(** * Tero: the ACID storage engine (src/src/acid-engine.ts)

    A shallow embedding of the three classes of [acid-engine.ts]
    ([WriteAheadLog], [LockManager], [ACIDStorageEngine]), and of the key
    check of the class [Tero] of [index.ts], together with the
    properties the specification states about them, and with further
    properties of the log, the lock table, the transactions, crash recovery
    and [deepMerge] that the code shows.

    Modelling conventions.
    - JavaScript values ([any]) are the JSON documents plus [undefined]
      (type [value]); [JSON.parse(JSON.stringify(v))] is [v] on the values
      that hold no [undefined] ([isJson]), and the statements about a value
      that is written to a file and read back are made for such values.
      Numbers are integers ([Z]).  Objects are property lists in insertion
      order (the special place of integer-like keys in that order is not
      modelled).  Object keys that name members of [Object.prototype]
      (such as [__proto__] or [hasOwnProperty]) are outside the model.
    - The engine is single-threaded: between two [await]s its code runs
      without interruption.  An asynchronous operation is a function from
      the state of the engine to an outcome and a new state; an operation
      that has to wait for a lock ends as [Suspended], and its body is a
      function of its own that runs when the request is resolved.
    - The file system calls of the engine succeed; the failures that are
      modelled are the ones the code raises itself and the [JSON.parse]
      failure on a malformed key file.  A key file is identified by its
      document key (the path is [join(dbPath, key + ".json")]); the redo of
      crash recovery does not make the directory of a key that has a path
      separator, so the statement about it is made for the keys that
      [Tero.validateKey] accepts.
    - The log file is a list of lines, each of them complete; a line that
      does not parse is [Garbled].  [flushBuffer] appends to the text of
      the file, which adds whole lines when that text is blank or ends with
      a line break; the statements about the entries a flush puts on disk
      are made for such files ([intactLog]).
    - [Date.now()] and [randomUUID()] are arguments of the operations that
      call them; the SHA-256 digest of a log record and the size test of the
      log rotation are parameters of the development (class [Platform]). *)

From Stdlib Require Import ZArith.
From stdpp Require Import gmap strings list fin_maps pretty sorting.

Set Warnings "-register-all".

Local Open Scope string_scope.
Local Open Scope list_scope.
Local Open Scope Z_scope.

(** ** JavaScript values *)

Inductive value : Type :=
  | VUndefined
  | VNull
  | VBool (b : bool)
  | VNumber (n : Z)
  | VString (s : string)
  | VArray (items : list value)
  | VObject (fields : list (string * value)).

(** Errors raised by the engine. *)
Inductive Error : Type :=
  | TypeError            (* property access on null or undefined *)
  | InvalidTransaction   (* `Invalid transaction: <id>` *)
  | TransactionNotFound  (* `Transaction not found: <id>` *)
  | ReadFailed           (* `Read failed for <key>: ...` *)
  | LockTimeout          (* `Lock acquisition timeout for key ...` *)
  | TransactionAborted.  (* `Transaction aborted`, from releaseAllLocks *)

Inductive Result (A : Type) : Type :=
  | Ok (a : A)
  | Err (e : Error).
Arguments Ok {A} a.
Arguments Err {A} e.

(** [!!v] *)
Definition truthy (v : value) : bool :=
  match v with
  | VUndefined | VNull => false
  | VBool b => b
  | VNumber n => negb (n =? 0)
  | VString s => negb (String.eqb s "")
  | VArray _ | VObject _ => true
  end.

(** [v || {}] *)
Definition orEmpty (v : value) : value :=
  if truthy v then v else VObject [].

(** [typeof v === 'object' && v !== null && !Array.isArray(v)] *)
Definition isPlainObject (v : value) : bool :=
  match v with
  | VObject _ => true
  | _ => false
  end.

(** The value holds no [undefined], at any depth: it is a JSON document,
    and [JSON.parse(JSON.stringify(v))] is [v].  ([JSON.stringify] leaves
    out a property of an object that is [undefined] and writes [null] for
    an element of an array that is [undefined].) *)
Fixpoint isJson (v : value) : bool :=
  match v with
  | VUndefined => false
  | VArray items => forallb isJson items
  | VObject fields =>
      (fix go (l : list (string * value)) : bool :=
         match l with
         | [] => true
         | (_, fv) :: rest => isJson fv && go rest
         end) fields
  | _ => true
  end.


(** Own property lookup in the property list of an object. *)
Fixpoint obj_lookup {A} (k : string) (fields : list (string * A)) : option A :=
  match fields with
  | [] => None
  | (k', v) :: rest => if String.eqb k' k then Some v else obj_lookup k rest
  end.

(** [result[k] = v] on an object: overwrite in place, or add a new property. *)
Fixpoint obj_set {A} (k : string) (v : A) (fields : list (string * A))
  : list (string * A) :=
  match fields with
  | [] => [(k, v)]
  | (k', v') :: rest =>
      if String.eqb k' k then (k', v) :: rest else (k', v') :: obj_set k v rest
  end.

(** The characters of a string, as one-character strings. *)
Definition chars (s : string) : list string :=
  (fun c => String c EmptyString) <$> String.list_ascii_of_string s.

(** The elements of an array or the characters of a string under their
    index keys "0", "1", ... *)
Definition indexed {A} (l : list A) : list (string * A) :=
  imap (fun i x => (pretty i, x)) l.

(** [{ ...v }]: the own enumerable properties of [v]. *)
Definition spread (v : value) : list (string * value) :=
  match v with
  | VObject fields => fields
  | VArray items => indexed items
  | VString s => indexed (VString <$> chars s)
  | _ => []
  end.

(** [target[key]] for a target that is neither null nor undefined.  A
    property that is missing, or inherited (a method, hence not of type
    'object'), reads as [VUndefined]. *)
Definition getProp (target : value) (key : string) : value :=
  match target with
  | VObject fields => default VUndefined (obj_lookup key fields)
  | VArray items =>
      if String.eqb key "length" then VNumber (Z.of_nat (length items))
      else default VUndefined (obj_lookup key (indexed items))
  | VString s =>
      if String.eqb key "length" then VNumber (Z.of_nat (String.length s))
      else default VUndefined (obj_lookup key (indexed (VString <$> chars s)))
  | _ => VUndefined
  end.

(** ** ACIDStorageEngine.deepMerge *)

(** The [for (const key in source)] loop of [deepMerge]; [dm] is the
    recursive call. *)
Fixpoint mergeFields (dm : value -> value -> Result value) (target : value)
    (sfields : list (string * value)) (result : list (string * value))
  : Result value :=
  match sfields with
  | [] => Ok (VObject result)
  | (key, sv) :: rest =>
      if isPlainObject sv then
        match target with
        | VNull | VUndefined => Err TypeError
        | _ =>
            if isPlainObject (getProp target key) then
              match dm (getProp target key) sv with
              | Ok m => mergeFields dm target rest (obj_set key m result)
              | Err e => Err e
              end
            else mergeFields dm target rest (obj_set key sv result)
        end
      else mergeFields dm target rest (obj_set key sv result)
  end.

Fixpoint deepMerge (target source : value) {struct source} : Result value :=
  match source with
  | VNull | VUndefined => Ok target
  | VObject sfields => mergeFields deepMerge target sfields (spread target)
  | _ => Ok source
  end.


(** ** Log entries (interface LogEntry) *)

Inductive Operation : Type :=
  BEGIN | WRITE | DELETE | COMMIT | ROLLBACK | CHECKPOINT.

Global Instance Operation_eq_dec : EqDecision Operation.
Proof. solve_decision. Defined.

(** What a caller hands to [writeLog]:
    [Omit<LogEntry, 'lsn' | 'checksum' | 'timestamp'>].  An optional field
    that is absent is [None] (the key) or [VUndefined] (the images). *)
Record LogRequest : Type := {
  operation : Operation;
  transactionId : string;
  key : option string;
  beforeImage : value;
  afterImage : value;
}.

(** [Omit<LogEntry, 'checksum'>], the part the checksum is computed over. *)
Record LogRecord : Type := {
  request : LogRequest;
  lsn : Z;
  timestamp : Z;
}.

Record LogEntry : Type := {
  record : LogRecord;
  checksum : string;
}.

Definition entryOp (e : LogEntry) : Operation := operation (request (record e)).
Definition entryTxn (e : LogEntry) : string := transactionId (request (record e)).
Definition entryKey (e : LogEntry) : option string := key (request (record e)).
Definition entryBefore (e : LogEntry) : value := beforeImage (request (record e)).
Definition entryAfter (e : LogEntry) : value := afterImage (request (record e)).
Definition entryLsn (e : LogEntry) : Z := lsn (record e).

(** A non-blank line of the log file: text that [JSON.parse] rejects or that
    is not an entry ([Garbled]), or the serialisation of an entry. *)
Inductive LogLine : Type :=
  | Garbled
  | Parsed (e : LogEntry).

(** The two library calls the log depends on. *)
Class Platform : Type := {
  (** [createHash('sha256').update(JSON.stringify(entry)).digest('hex')] *)
  sha256hex : LogRecord -> string;
  (** [statSync(logPath).size > LOG_FILE_SIZE_LIMIT] for a log file with
      these lines *)
  exceedsSizeLimit : list LogLine -> bool;
}.

(** [entry.key === key] *)
Definition keyIs (e : LogEntry) (k : string) : bool :=
  match entryKey e with
  | Some k' => String.eqb k' k
  | None => false
  end.

(** The key of an entry when [entry.key] is truthy. *)
Definition truthyKey (e : LogEntry) : option string :=
  match entryKey e with
  | Some k => if String.eqb k "" then None else Some k
  | None => None
  end.

(** [entries.sort((a, b) => a.lsn - b.lsn)]; the sort is stable. *)
Fixpoint insertByLsn (e : LogEntry) (l : list LogEntry) : list LogEntry :=
  match l with
  | [] => [e]
  | x :: rest =>
      if entryLsn e <=? entryLsn x then e :: l else x :: insertByLsn e rest
  end.

Definition sortByLsn (l : list LogEntry) : list LogEntry :=
  foldr insertByLsn [] l.

(** ** class WriteAheadLog *)

Module WriteAheadLog.

Record t : Type := {
  currentLSN : Z;
  logBuffer : list LogEntry;
  (** the file at [logPath]; [None] when it does not exist *)
  logFile : option (list LogLine);
  (** the files [logPath.<timestamp>] written by [rotateLog] *)
  archives : list (list LogLine);
}.

Definition BUFFER_SIZE : nat := 100.

Section WithPlatform.
Context `{!Platform}.

Definition calculateChecksum (r : LogRecord) : string := sha256hex r.

Definition verifyChecksum (e : LogEntry) : bool :=
  String.eqb (calculateChecksum (record e)) (checksum e).

(** The entries of the file that parse and pass [verifyChecksum]. *)
Definition validEntries (lines : list LogLine) : list LogEntry :=
  omap (fun l => match l with
                 | Parsed e => if verifyChecksum e then Some e else None
                 | Garbled => None
                 end) lines.

Definition recoverFromLog (lines : list LogLine) (w : t) : t :=
  {| currentLSN :=
       foldl (fun cur e => Z.max cur (entryLsn e)) (currentLSN w)
             (validEntries lines) + 1;
     logBuffer := logBuffer w;
     logFile := logFile w;
     archives := archives w |}.

(** The constructor, started on a directory whose log file is [file]. *)
Definition initializeWAL (file : option (list LogLine)) : t :=
  let w := {| currentLSN := 0; logBuffer := []; logFile := file;
              archives := [] |} in
  match file with
  | Some lines => recoverFromLog lines w
  | None => w
  end.

(** The first statements of [writeLog]: take the next LSN, stamp and
    checksum the entry, push it on the buffer. *)
Definition pushEntry (now : Z) (req : LogRequest) (w : t) : Z * t :=
  let lsn := currentLSN w in
  let entryWithoutChecksum :=
    {| request := req; lsn := lsn; timestamp := now |} in
  let logEntry :=
    {| record := entryWithoutChecksum;
       checksum := calculateChecksum entryWithoutChecksum |} in
  (lsn, {| currentLSN := currentLSN w + 1;
           logBuffer := logBuffer w ++ [logEntry];
           logFile := logFile w;
           archives := archives w |}).

(** The condition under which [writeLog] flushes. *)
Definition mustFlush (req : LogRequest) (w : t) : bool :=
  match operation req with
  | COMMIT | ROLLBACK => true
  | _ => bool_decide (BUFFER_SIZE <= length (logBuffer w))%nat
  end.

Definition checkpointRequest : LogRequest :=
  {| operation := CHECKPOINT; transactionId := "SYSTEM"; key := None;
     beforeImage := VUndefined; afterImage := VUndefined |}.

(** [rotateLog] is entered from [flushBuffer] with an empty buffer, so its
    call of [writeLog] for the CHECKPOINT pushes the entry and does not
    flush again (see [rotateLog_writeLog]). *)
Definition rotateLog (now : Z) (w : t) : t :=
  let currentContent := default [] (logFile w) in
  let w1 := {| currentLSN := currentLSN w; logBuffer := logBuffer w;
               logFile := Some [];
               archives := archives w ++ [currentContent] |} in
  snd (pushEntry now checkpointRequest w1).

Definition checkLogRotation (now : Z) (w : t) : t :=
  if exceedsSizeLimit (default [] (logFile w)) then rotateLog now w else w.

(** [writeFileSync(logPath, currentContent + logEntries)]: the entries of
    the buffer become the last lines of the file.  (The text of a file
    that this class wrote ends with a line break; onto a last line that
    was cut short the first entry would be written without one.) *)
Definition flushBuffer (now : Z) (w : t) : t :=
  match logBuffer w with
  | [] => w
  | _ =>
      checkLogRotation now
        {| currentLSN := currentLSN w; logBuffer := [];
           logFile := Some (default [] (logFile w) ++ (Parsed <$> logBuffer w));
           archives := archives w |}
  end.

Definition writeLog (now : Z) (req : LogRequest) (w : t) : Z * t :=
  let '(lsn, w1) := pushEntry now req w in
  (lsn, if mustFlush req w1 then flushBuffer now w1 else w1).

(** [!fromLSN || entry.lsn >= fromLSN] *)
Definition fromOk (fromLSN : option Z) (e : LogEntry) : bool :=
  match fromLSN with
  | None => true
  | Some f => (f =? 0) || (f <=? entryLsn e)
  end.

Definition getLogEntries (fromLSN : option Z) (w : t) : list LogEntry :=
  sortByLsn
    (List.filter (fromOk fromLSN) (logBuffer w) ++
     List.filter (fromOk fromLSN) (validEntries (default [] (logFile w)))).

Definition forceFlush (now : Z) (w : t) : t := flushBuffer now w.

Definition getCurrentLSN (w : t) : Z := currentLSN w - 1.

(** The line filter of [clearCommittedTransaction]. *)
Definition keepLine (txn : string) (l : LogLine) : bool :=
  match l with
  | Garbled => true
  | Parsed e =>
      negb (String.eqb (entryTxn e) txn) || bool_decide (entryOp e = COMMIT)
  end.

Definition isCommitOf (txn : string) (l : LogLine) : bool :=
  match l with
  | Garbled => false
  | Parsed e => String.eqb (entryTxn e) txn && bool_decide (entryOp e = COMMIT)
  end.

Definition clearCommittedTransaction (now : Z) (txn : string) (w : t) : t :=
  let w1 := flushBuffer now w in
  match logFile w1 with
  | None => w1
  | Some lines =>
      if existsb (isCommitOf txn) lines
      then {| currentLSN := currentLSN w1; logBuffer := logBuffer w1;
              logFile := Some (List.filter (keepLine txn) lines);
              archives := archives w1 |}
      else w1
  end.

End WithPlatform.
End WriteAheadLog.

(** ** class LockManager *)

Module LockManager.

Inductive LockType : Type := shared | exclusive.

Global Instance LockType_eq_dec : EqDecision LockType.
Proof. solve_decision. Defined.

(** An element of a wait queue.  Its [resolve] and [reject] closures are
    the suspended caller of [acquireLock]; the functions below report which
    requests they resolve or reject. *)
Record Request : Type := {
  requester : string;
  requested : LockType;
}.

Record LockInfo : Type := {
  type : LockType;
  holders : gset string;
  waitQueue : list Request;
}.

(** [this.locks] *)
Abbreviation LockTable := (gmap string LockInfo).

(** What the promise of [acquireLock] does at the end of the call: it is
    resolved, or it stays pending with the request in the wait queue. *)
Inductive Acquired : Type := Granted | Queued.

Definition canGrantLock (lockInfo : LockInfo) (requestedType : LockType)
    (transactionId : string) : bool :=
  if bool_decide (transactionId ∈ holders lockInfo) then true
  else if bool_decide (holders lockInfo = ∅) then true
  else if bool_decide (type lockInfo = shared)
          && bool_decide (requestedType = shared) then true
  else false.

Definition acquireLock (key transactionId : string) (lockType : LockType)
    (locks : LockTable) : Acquired * LockTable :=
  match locks !! key with
  | None =>
      (Granted,
       <[key := {| type := lockType; holders := {[transactionId]};
                   waitQueue := [] |}]> locks)
  | Some lockInfo =>
      if canGrantLock lockInfo lockType transactionId then
        if bool_decide (lockType = shared)
           && bool_decide (type lockInfo = shared) then
          (Granted,
           <[key := {| type := type lockInfo;
                       holders := holders lockInfo ∪ {[transactionId]};
                       waitQueue := waitQueue lockInfo |}]> locks)
        else
          (Granted,
           <[key := {| type := lockType;
                       holders := {[transactionId]};
                       waitQueue := waitQueue lockInfo |}]> locks)
      else
        (Queued,
         <[key := {| type := type lockInfo;
                     holders := holders lockInfo;
                     waitQueue := waitQueue lockInfo ++
                       [{| requester := transactionId;
                           requested := lockType |}] |}]> locks)
  end.

(** The [while] loop of [processWaitQueue]: the leading shared requests
    and the rest of the queue. *)
Fixpoint sharedPrefix (queue : list Request) : list Request * list Request :=
  match queue with
  | [] => ([], [])
  | r :: rest =>
      match requested r with
      | shared => let '(granted, remaining) := sharedPrefix rest in
                  (r :: granted, remaining)
      | exclusive => ([], queue)
      end
  end.

(** Returns the lock and the requests whose [resolve] was called. *)
Definition processWaitQueue (lockInfo : LockInfo) : LockInfo * list Request :=
  match waitQueue lockInfo with
  | [] => (lockInfo, [])
  | firstRequest :: rest =>
      match requested firstRequest with
      | shared =>
          let '(sharedRequests, remaining) := sharedPrefix (waitQueue lockInfo) in
          ({| type := shared;
              holders := holders lockInfo ∪ list_to_set (requester <$> sharedRequests);
              waitQueue := remaining |},
           sharedRequests)
      | exclusive =>
          ({| type := exclusive;
              holders := holders lockInfo ∪ {[requester firstRequest]};
              waitQueue := rest |},
           [firstRequest])
      end
  end.

(** Returns the table and the requests resolved by the release. *)
Definition releaseLock (key transactionId : string) (locks : LockTable)
  : LockTable * list Request :=
  match locks !! key with
  | None => (locks, [])
  | Some lockInfo =>
      if bool_decide (transactionId ∈ holders lockInfo) then
        let released :=
          {| type := type lockInfo;
             holders := holders lockInfo ∖ {[transactionId]};
             waitQueue := waitQueue lockInfo |} in
        let '(lockInfo', resolved) :=
          if bool_decide (holders released = ∅)
             && negb (bool_decide (waitQueue released = []))
          then processWaitQueue released
          else (released, []) in
        if bool_decide (holders lockInfo' = ∅)
           && bool_decide (waitQueue lockInfo' = [])
        then (base.delete key locks, resolved)
        else (<[key := lockInfo']> locks, resolved)
      else (locks, [])
  end.

Definition isRequestOf (transactionId : string) (r : Request) : bool :=
  String.eqb (requester r) transactionId.

(** Runs when the timer of a pending [acquireLock] fires. *)
Definition removeLockRequest (key transactionId : string) (locks : LockTable)
  : LockTable :=
  match locks !! key with
  | None => locks
  | Some lockInfo =>
      <[key := {| type := type lockInfo; holders := holders lockInfo;
                  waitQueue := List.filter (fun r => negb (isRequestOf transactionId r))
                                           (waitQueue lockInfo) |}]> locks
  end.

(** The outcome of [releaseAllLocks]: the table, the requests resolved
    and the requests rejected with 'Transaction aborted'. *)
Record Released : Type := {
  table : LockTable;
  resolved : list Request;
  rejected : list Request;
}.

(** One iteration of the loop of [releaseAllLocks] over [this.locks.entries()].
    The assignment to [lockInfo.waitQueue] reaches the table unless
    [releaseLock] has just removed the lock from it. *)
Definition releaseAllStep (transactionId : string) (acc : Released)
    (entry : string * LockInfo) : Released :=
  let '(key, lockInfo) := entry in
  let '(locks1, res) :=
    if bool_decide (transactionId ∈ holders lockInfo)
    then releaseLock key transactionId (table acc)
    else (table acc, []) in
  match locks1 !! key with
  | Some li =>
      {| table :=
           <[key := {| type := type li; holders := holders li;
                       waitQueue := List.filter (fun r => negb (isRequestOf transactionId r))
                                                (waitQueue li) |}]> locks1;
         resolved := resolved acc ++ res;
         rejected := rejected acc ++ List.filter (isRequestOf transactionId) (waitQueue li) |}
  | None =>
      {| table := locks1; resolved := resolved acc ++ res;
         rejected := rejected acc |}
  end.

Definition releaseAllLocks (transactionId : string) (locks : LockTable)
  : Released :=
  foldl (releaseAllStep transactionId)
        {| table := locks; resolved := []; rejected := [] |}
        (map_to_list locks).

(** [[...new Set(l)]]: the elements of [l] without repetition, each at the
    place of its first occurrence. *)
Definition distinct (l : list string) : list string :=
  foldl (fun seen x => if bool_decide (x ∈ seen) then seen else seen ++ [x]) [] l.

(** The locks are visited in the order of [map_to_list], which need not be
    the insertion order of [this.locks]; the order of the result follows
    it. *)
Definition detectDeadlock (locks : LockTable) : list string :=
  let suspiciousTransactions :=
    foldl (fun suspicious entry =>
             if bool_decide (5 < length (waitQueue entry.2))%nat
             then suspicious ++ (requester <$> waitQueue entry.2)
             else suspicious)
          [] (map_to_list locks) in
  distinct suspiciousTransactions.

End LockManager.

(** ** class ACIDStorageEngine *)

Module ACIDStorageEngine.
Import WriteAheadLog LockManager.

(** The content of a key file, as the engine reads it: [content.trim()] is
    empty ([FBlank]), [JSON.parse(content)] returns a value ([FJson]), or
    [JSON.parse(content)] throws ([FGarbage]).  On a value that holds no
    [undefined] ([isJson]), [JSON.parse(JSON.stringify(v, null, 2))] is
    [v]. *)
Inductive FileContent : Type :=
  | FBlank
  | FJson (v : value)
  | FGarbage.

Inductive Status : Type := active | committed | aborted.

Global Instance Status_eq_dec : EqDecision Status.
Proof. solve_decision. Defined.

Inductive OperationKind : Type := op_write | op_delete.

Record Transaction : Type := {
  id : string;
  startLSN : Z;
  operations : list (string * OperationKind);
  status : Status;
}.

Record Engine : Type := {
  wal : WriteAheadLog.t;
  lockManager : LockTable;
  (** the key files under [dbPath], by document key *)
  files : gmap string FileContent;
  activeTransactions : gmap string Transaction;
}.

(** How an asynchronous operation ends: its promise is fulfilled with a
    value, rejected with an error, or the operation is suspended in
    [acquireLock] (its body runs once the request is resolved). *)
Inductive Outcome : Type :=
  | Returned (v : value)
  | Threw (e : Error)
  | Suspended.

Definition setWal (w : WriteAheadLog.t) (e : Engine) : Engine :=
  {| wal := w; lockManager := lockManager e; files := files e;
     activeTransactions := activeTransactions e |}.

Definition setLocks (l : LockTable) (e : Engine) : Engine :=
  {| wal := wal e; lockManager := l; files := files e;
     activeTransactions := activeTransactions e |}.

Definition setFiles (f : gmap string FileContent) (e : Engine) : Engine :=
  {| wal := wal e; lockManager := lockManager e; files := f;
     activeTransactions := activeTransactions e |}.

Definition setTransactions (a : gmap string Transaction) (e : Engine) : Engine :=
  {| wal := wal e; lockManager := lockManager e; files := files e;
     activeTransactions := a |}.

(** [transaction.operations.push(o)] on the transaction object. *)
Definition pushOperation (o : string * OperationKind) (tr : Transaction)
  : Transaction :=
  {| id := id tr; startLSN := startLSN tr;
     operations := operations tr ++ [o]; status := status tr |}.

(** [transaction.status = s] *)
Definition setStatus (s : Status) (tr : Transaction) : Transaction :=
  {| id := id tr; startLSN := startLSN tr; operations := operations tr;
     status := s |}.

(** [writeFileSync(filePath, JSON.stringify(v, null, 2))].  [JSON.stringify]
    of [undefined] is [undefined], on which [writeFileSync] throws. *)
Definition writeJson (k : string) (v : value) (f : gmap string FileContent)
  : option (gmap string FileContent) :=
  match v with
  | VUndefined => None
  | _ => Some (<[k := FJson v]> f)
  end.

(** [if (existsSync(filePath)) unlinkSync(filePath)] *)
Definition unlinkIfExists (k : string) (f : gmap string FileContent)
  : gmap string FileContent := base.delete k f.

Section WithPlatform.
Context `{!Platform}.

(** *** Crash recovery *)

Definition redoOperation (entry : LogEntry) (f : gmap string FileContent)
  : gmap string FileContent :=
  match truthyKey entry with
  | None => f
  | Some k =>
      if truthy (entryAfter entry)
      then default f (writeJson k (entryAfter entry) f)
      else f
  end.

Definition redoDelete (entry : LogEntry) (f : gmap string FileContent)
  : gmap string FileContent :=
  match truthyKey entry with
  | None => f
  | Some k => unlinkIfExists k f
  end.

(** An error inside the [try] leaves the file as it was. *)
Definition undoOperation (entry : LogEntry) (f : gmap string FileContent)
  : gmap string FileContent :=
  match truthyKey entry with
  | None => f
  | Some k =>
      match entryOp entry with
      | WRITE =>
          match entryBefore entry with
          | VNull => unlinkIfExists k f
          | b => default f (writeJson k b f)
          end
      | DELETE =>
          if truthy (entryBefore entry)
          then default f (writeJson k (entryBefore entry) f)
          else f
      | _ => f
      end
  end.

(** Phase 1 of [performCrashRecovery]. *)
Definition committedTransactions (logEntries : list LogEntry) : gset string :=
  list_to_set (entryTxn <$> List.filter (fun e => bool_decide (entryOp e = COMMIT)) logEntries).

Definition abortedTransactions (logEntries : list LogEntry) : gset string :=
  list_to_set (entryTxn <$> List.filter (fun e => bool_decide (entryOp e = ROLLBACK)) logEntries).

(** Phase 2, one entry. *)
Definition redoEntry (committedTxns : gset string)
    (f : gmap string FileContent) (entry : LogEntry) : gmap string FileContent :=
  match entryOp entry with
  | WRITE =>
      if bool_decide (entryTxn entry ∈ committedTxns)
      then redoOperation entry f else f
  | DELETE =>
      if bool_decide (entryTxn entry ∈ committedTxns)
      then redoDelete entry f else f
  | _ => f
  end.

(** Phase 3, the filter. *)
Definition isUncommittedOp (committedTxns abortedTxns : gset string)
    (entry : LogEntry) : bool :=
  (bool_decide (entryOp entry = WRITE) || bool_decide (entryOp entry = DELETE))
  && negb (bool_decide (entryTxn entry ∈ committedTxns))
  && negb (bool_decide (entryTxn entry ∈ abortedTxns)).

Definition performCrashRecovery (w : WriteAheadLog.t)
    (f : gmap string FileContent) : gmap string FileContent :=
  let logEntries := getLogEntries None w in
  let committedTxns := committedTransactions logEntries in
  let abortedTxns := abortedTransactions logEntries in
  let redone := foldl (redoEntry committedTxns) f logEntries in
  let uncommittedOps :=
    rev (List.filter (isUncommittedOp committedTxns abortedTxns) logEntries) in
  foldl (fun f entry => undoOperation entry f) redone uncommittedOps.

(** The constructor, on a directory with log file [file] and key files [f]. *)
Definition create (file : option (list LogLine)) (f : gmap string FileContent)
  : Engine :=
  let w := initializeWAL file in
  {| wal := w; lockManager := ∅; files := performCrashRecovery w f;
     activeTransactions := ∅ |}.

(** *** Transactions *)

(** [transactionId] is the result of [randomUUID()]. *)
Definition beginTransaction (now : Z) (transactionId : string) (e : Engine)
  : string * Engine :=
  let '(startLSN, w) :=
    writeLog now {| operation := BEGIN; transactionId := transactionId;
                    key := None; beforeImage := VUndefined;
                    afterImage := VUndefined |} (wal e) in
  (transactionId,
   setTransactions
     (<[transactionId := {| id := transactionId; startLSN := startLSN;
                            operations := []; status := active |}]>
        (activeTransactions e))
     (setWal w e)).

(** The filter both [write] and [read] apply to
    [getLogEntries(transaction.startLSN)]. *)
Definition transactionEntries (transactionId : string) (tr : Transaction)
    (k : string) (e : Engine) : list LogEntry :=
  List.filter
    (fun entry =>
       String.eqb (entryTxn entry) transactionId && keyIs entry k
       && (bool_decide (entryOp entry = WRITE) || bool_decide (entryOp entry = DELETE)))
    (getLogEntries (Some (startLSN tr)) (wal e)).

(** The value [write] computes in [currentData]. *)
Definition currentData (transactionId : string) (tr : Transaction)
    (k : string) (e : Engine) : value :=
  match last (transactionEntries transactionId tr k e) with
  | Some lastEntry =>
      if bool_decide (entryOp lastEntry = DELETE) then VNull
      else orEmpty (entryAfter lastEntry)
  | None =>
      match files e !! k with
      | None => VNull
      | Some FBlank => VObject []
      | Some (FJson v) => v
      | Some FGarbage => VObject []
      end
  end.

(** The body of [write] after the lock is granted; [tr] is the
    transaction object the call looked up before it waited (the body reads
    [transaction.startLSN] from it). *)
Definition writeBody (now : Z) (transactionId : string) (tr : Transaction)
    (k : string) (data : value) (e : Engine) : Outcome * Engine :=
  let beforeImage := currentData transactionId tr k e in
  match deepMerge (orEmpty (currentData transactionId tr k e)) data with
  | Ok afterImage =>
      let '(_, w) :=
        writeLog now {| operation := WRITE; transactionId := transactionId;
                        key := Some k; beforeImage := beforeImage;
                        afterImage := afterImage |} (wal e) in
      (Returned VUndefined,
       setTransactions
         (alter (pushOperation (k, op_write)) transactionId (activeTransactions e))
         (setWal w e))
  | Err err =>
      (Threw err, setLocks (fst (releaseLock k transactionId (lockManager e))) e)
  end.

Definition write (now : Z) (transactionId k : string) (data : value)
    (e : Engine) : Outcome * Engine :=
  match activeTransactions e !! transactionId with
  | None => (Threw InvalidTransaction, e)
  | Some tr =>
      if bool_decide (status tr = active) then
        match acquireLock k transactionId exclusive (lockManager e) with
        | (Granted, locks) =>
            writeBody now transactionId tr k data (setLocks locks e)
        | (Queued, locks) => (Suspended, setLocks locks e)
        end
      else (Threw InvalidTransaction, e)
  end.

Definition readBody (transactionId : string) (tr : Transaction) (k : string)
    (e : Engine) : Outcome * Engine :=
  match last (transactionEntries transactionId tr k e) with
  | Some lastEntry =>
      if bool_decide (entryOp lastEntry = DELETE) then (Returned VNull, e)
      else (Returned (orEmpty (entryAfter lastEntry)), e)
  | None =>
      match files e !! k with
      | None => (Returned VNull, e)
      | Some FBlank => (Returned (VObject []), e)
      | Some (FJson v) => (Returned v, e)
      | Some FGarbage =>
          (Threw ReadFailed,
           setLocks (fst (releaseLock k transactionId (lockManager e))) e)
      end
  end.

Definition read (transactionId k : string) (e : Engine) : Outcome * Engine :=
  match activeTransactions e !! transactionId with
  | None => (Threw InvalidTransaction, e)
  | Some tr =>
      if bool_decide (status tr = active) then
        match acquireLock k transactionId shared (lockManager e) with
        | (Granted, locks) => readBody transactionId tr k (setLocks locks e)
        | (Queued, locks) => (Suspended, setLocks locks e)
        end
      else (Threw InvalidTransaction, e)
  end.

(** The before-image [delete] takes from the key file. *)
Definition deleteBeforeImage (k : string) (e : Engine) : value :=
  match files e !! k with
  | None => VNull
  | Some FBlank => VObject []
  | Some (FJson v) => v
  | Some FGarbage => VNull
  end.

Definition deleteBody (now : Z) (transactionId : string) (k : string)
    (e : Engine) : Outcome * Engine :=
  let '(_, w) :=
    writeLog now {| operation := DELETE; transactionId := transactionId;
                    key := Some k; beforeImage := deleteBeforeImage k e;
                    afterImage := VNull |} (wal e) in
  (Returned VUndefined,
   setTransactions
     (alter (pushOperation (k, op_delete)) transactionId (activeTransactions e))
     (setWal w e)).

Definition delete (now : Z) (transactionId k : string) (e : Engine)
  : Outcome * Engine :=
  match activeTransactions e !! transactionId with
  | None => (Threw InvalidTransaction, e)
  | Some tr =>
      if bool_decide (status tr = active) then
        match acquireLock k transactionId exclusive (lockManager e) with
        | (Granted, locks) => deleteBody now transactionId k (setLocks locks e)
        | (Queued, locks) => (Suspended, setLocks locks e)
        end
      else (Threw InvalidTransaction, e)
  end.

(** One iteration of the loop of [commitTransaction] that applies the
    entries of the transaction to the key files. *)
Definition applyEntry (f : gmap string FileContent) (entry : LogEntry)
  : gmap string FileContent :=
  match entryOp entry, truthyKey entry with
  | WRITE, Some k => default f (writeJson k (entryAfter entry) f)
  | DELETE, Some k => unlinkIfExists k f
  | _, _ => f
  end.

Definition commitTransaction (now : Z) (transactionId : string) (e : Engine)
  : Outcome * Engine :=
  match activeTransactions e !! transactionId with
  | None => (Threw InvalidTransaction, e)
  | Some tr =>
      if bool_decide (status tr = active) then
        let '(_, w1) :=
          writeLog now {| operation := COMMIT; transactionId := transactionId;
                          key := None; beforeImage := VUndefined;
                          afterImage := VUndefined |} (wal e) in
        let w2 := forceFlush now w1 in
        let entries :=
          List.filter (fun entry => String.eqb (entryTxn entry) transactionId)
                      (getLogEntries (Some (startLSN tr)) w2) in
        let f := foldl applyEntry (files e) entries in
        let txns := alter (setStatus committed) transactionId (activeTransactions e) in
        let w3 := clearCommittedTransaction now transactionId w2 in
        let locks := table (releaseAllLocks transactionId (lockManager e)) in
        (Returned VUndefined,
         {| wal := w3; lockManager := locks; files := f;
            activeTransactions := txns |})
      else (Threw InvalidTransaction, e)
  end.

Definition rollbackTransaction (now : Z) (transactionId : string) (e : Engine)
  : Outcome * Engine :=
  match activeTransactions e !! transactionId with
  | None => (Threw TransactionNotFound, e)
  | Some tr =>
      let '(_, w) :=
        writeLog now {| operation := ROLLBACK; transactionId := transactionId;
                        key := None; beforeImage := VUndefined;
                        afterImage := VUndefined |} (wal e) in
      (Returned VUndefined,
       {| wal := w;
          lockManager := table (releaseAllLocks transactionId (lockManager e));
          files := files e;
          activeTransactions :=
            alter (setStatus aborted) transactionId (activeTransactions e) |})
  end.

Definition getActiveTransactions (e : Engine) : list string :=
  List.filter
    (fun transactionId =>
       match activeTransactions e !! transactionId with
       | Some tr => bool_decide (status tr = active)
       | None => false
       end)
    (map_to_list (activeTransactions e)).*1.

Definition forceCheckpoint (now : Z) (e : Engine) : Engine :=
  setWal (forceFlush now (snd (writeLog now checkpointRequest (wal e)))) e.

(** One iteration of the loop of [destroy]; the promise that
    [rollbackTransaction] returns is settled when the call returns, since
    its body does not wait. *)
Definition destroyStep (now : Z) (e : Engine) (entry : string * Transaction)
  : Engine :=
  let '(transactionId, transaction) := entry in
  if bool_decide (status transaction = active)
  then snd (rollbackTransaction now transactionId e)
  else e.

Definition destroy (now : Z) (e : Engine) : Engine :=
  let e1 := foldl (destroyStep now) e (map_to_list (activeTransactions e)) in
  {| wal := forceFlush now (wal e1); lockManager := lockManager e1;
     files := files e1; activeTransactions := ∅ |}.

End WithPlatform.
End ACIDStorageEngine.

(** ** class Tero (src/src/index.ts): the keys it hands to the engine *)

Module Tero.




End Tero.

(** ** deepMerge on the heap

    The function above takes and returns values.  In the program the
    arguments of [deepMerge] are references to objects that other
    variables share.  The second embedding below keeps the objects in a
    heap and follows the statements of [deepMerge] on it: the spread
    allocates [result], and [result[key] = ...] updates that object in
    place. *)

Module Heap.

(** What a variable holds: a primitive, or a pointer to an object or an
    array of the heap. *)
Inductive ref : Type :=
  | RUndefined
  | RNull
  | RBool (b : bool)
  | RNumber (n : Z)
  | RString (s : string)
  | RPointer (l : nat).

Inductive cell : Type :=
  | CObject (fields : list (string * ref))
  | CArray (items : list ref).

(** The heap: the cell at index [l] is the object [RPointer l] points to;
    a new object goes to the end. *)
Abbreviation heap := (list cell).

(** [typeof r === 'object' && r !== null && !Array.isArray(r)] *)
Definition isPlainObjectH (h : heap) (r : ref) : bool :=
  match r with
  | RPointer l => match h !! l with
                  | Some (CObject _) => true
                  | _ => false
                  end
  | _ => false
  end.


(** The properties that [{ ...target }] copies. *)
Definition spreadH (h : heap) (target : ref) : list (string * ref) :=
  match target with
  | RPointer l => match h !! l with
                  | Some (CObject fields) => fields
                  | Some (CArray items) => indexed items
                  | None => []
                  end
  | RString s => indexed (RString <$> chars s)
  | _ => []
  end.

(** [target[key]] for a target that is neither null nor undefined. *)
Definition getPropH (h : heap) (target : ref) (key : string) : ref :=
  match target with
  | RPointer l =>
      match h !! l with
      | Some (CObject fields) => default RUndefined (obj_lookup key fields)
      | Some (CArray items) =>
          if String.eqb key "length" then RNumber (Z.of_nat (length items))
          else default RUndefined (obj_lookup key (indexed items))
      | None => RUndefined
      end
  | RString s =>
      if String.eqb key "length" then RNumber (Z.of_nat (String.length s))
      else default RUndefined (obj_lookup key (indexed (RString <$> chars s)))
  | _ => RUndefined
  end.

(** [result[key] = r], where [result] is the location of an object. *)
Definition assignProp (result : nat) (key : string) (r : ref) (h : heap) : heap :=
  match h !! result with
  | Some (CObject fields) => <[result := CObject (obj_set key r fields)]> h
  | _ => h
  end.

(** The loop of [deepMerge] over the own properties of the source; [dm]
    is the recursive call.  [None] means that the recursion ran out of
    fuel. *)
Fixpoint mergeFieldsH (dm : heap -> ref -> ref -> option (Result (ref * heap)))
    (target : ref) (result : nat) (sfields : list (string * ref)) (h : heap)
  : option (Result (ref * heap)) :=
  match sfields with
  | [] => Some (Ok (RPointer result, h))
  | (key, sv) :: rest =>
      if isPlainObjectH h sv then
        match target with
        | RNull | RUndefined => Some (Err TypeError)
        | _ =>
            if isPlainObjectH h (getPropH h target key) then
              match dm h (getPropH h target key) sv with
              | Some (Ok (m, h1)) =>
                  mergeFieldsH dm target result rest (assignProp result key m h1)
              | Some (Err e) => Some (Err e)
              | None => None
              end
            else mergeFieldsH dm target result rest (assignProp result key sv h)
        end
      else mergeFieldsH dm target result rest (assignProp result key sv h)
  end.

(** The source of a merge is a finite tree in every use of the engine (it
    comes out of [JSON.parse] or of an earlier merge); the fuel bounds the
    depth of the recursion. *)
Fixpoint deepMergeH (fuel : nat) (h : heap) (target source : ref)
  : option (Result (ref * heap)) :=
  match fuel with
  | O => None
  | S fuel' =>
      match source with
      | RNull | RUndefined => Some (Ok (target, h))
      | RPointer ls =>
          match h !! ls with
          | Some (CObject sfields) =>
              mergeFieldsH (deepMergeH fuel') target (length h) sfields
                (h ++ [CObject (spreadH h target)])
          | _ => Some (Ok (source, h))
          end
      | _ => Some (Ok (source, h))
      end
  end.

(** *** Values in the heap *)





End Heap.

(** ** Statements about deepMerge *)

Definition isNullish (v : value) : bool :=
  match v with
  | VNull | VUndefined => true
  | _ => false
  end.

(** The rule of the specification for the property [k] of the merged
    object [result], which started as a copy of [base]. *)
Definition mergedFieldFrom (base : list (string * value)) (target : value)
    (sfields result : list (string * value)) (k : string) : Prop :=
  match obj_lookup k sfields with
  | Some sv =>
      if isPlainObject sv && isPlainObject (getProp target k)
      then exists m, deepMerge (getProp target k) sv = Ok m
                     /\ obj_lookup k result = Some m
      else obj_lookup k result = Some sv
  | None => obj_lookup k result = obj_lookup k base
  end.

Definition mergedField (target : value) (sfields result : list (string * value))
    (k : string) : Prop :=
  mergedFieldFrom (spread target) target sfields result k.

(** The rules of section 4.4 of the specification, on values. *)
Definition deepMergeReference (target source : value) : Prop :=
  match source with
  | VNull | VUndefined => deepMerge target source = Ok target
  | VObject sfields =>
      exists result, deepMerge target source = Ok (VObject result)
                     /\ forall k, mergedField target sfields result k
  | _ => deepMerge target source = Ok source
  end.


(** ** Statements about the lock table *)

Import WriteAheadLog LockManager ACIDStorageEngine.

(** [transactionId] is among the holders of the lock of [key]. *)
Definition holdsLock (locks : LockTable) (key transactionId : string) : Prop :=
  match locks !! key with
  | Some lockInfo => transactionId ∈ holders lockInfo
  | None => False
  end.

(** When [acquireLock] resolves at once. *)
Definition grantable (locks : LockTable) (key transactionId : string)
    (lockType : LockType) : Prop :=
  match locks !! key with
  | None => True
  | Some lockInfo =>
      transactionId ∈ holders lockInfo
      \/ holders lockInfo = ∅
      \/ (type lockInfo = shared /\ lockType = shared)
  end.

(** The granting policy as section 4.2 of the specification words it: a
    holder that asks for an upgrade to exclusive is served only when it is
    the sole holder. *)
Definition grantableAsSpecified (locks : LockTable) (key transactionId : string)
    (lockType : LockType) : Prop :=
  match locks !! key with
  | None => True
  | Some lockInfo =>
      (transactionId ∈ holders lockInfo
       /\ (lockType = exclusive -> type lockInfo = shared ->
           holders lockInfo = {[transactionId]}))
      \/ holders lockInfo = ∅
      \/ (type lockInfo = shared /\ lockType = shared)
  end.

(** The lock with one more request at the end of its wait queue. *)
Definition enqueue (transactionId : string) (lockType : LockType)
    (lockInfo : LockInfo) : LockInfo :=
  {| type := type lockInfo; holders := holders lockInfo;
     waitQueue := waitQueue lockInfo ++
                    [{| requester := transactionId; requested := lockType |}] |}.

(** ** Statements about crash recovery *)

(** What one step of recovery does to the key files: nothing, or it sets
    the file of one key to a content that does not depend on the files
    ([None]: the file is removed). *)
Definition Assignment : Type := option (string * option FileContent).

Definition assign (a : Assignment) (f : gmap string FileContent)
  : gmap string FileContent :=
  match a with
  | None => f
  | Some (k, content) => partial_alter (fun _ => content) k f
  end.

(** The last content the assignments give to the file of [k], if any. *)
Fixpoint lastAssigned (k : string) (l : list Assignment)
  : option (option FileContent) :=
  match l with
  | [] => None
  | a :: rest =>
      match lastAssigned k rest with
      | Some content => Some content
      | None =>
          match a with
          | Some (k', content) => if String.eqb k' k then Some content else None
          | None => None
          end
      end
  end.

(** ** Statements about the log *)

Definition parsedEntries (lines : list LogLine) : list LogEntry :=
  omap (fun l => match l with Parsed e => Some e | Garbled => None end) lines.

(** Every entry the log holds: in its buffer, in its file or in an archive
    made by a rotation. *)
Definition logged (w : WriteAheadLog.t) : list LogEntry :=
  logBuffer w ++ parsedEntries (default [] (logFile w))
              ++ parsedEntries (concat (archives w)).

(** The entries that [getLogEntries] can return lie below the next LSN. *)
Definition lsnBelowNext `{!Platform} (w : WriteAheadLog.t) : Prop :=
  forall e, e ∈ logBuffer w ++ validEntries (default [] (logFile w)) ->
            entryLsn e < currentLSN w.

(** The same for an engine, whose transactions began below the next LSN. *)
Definition consistent `{!Platform} (e : Engine) : Prop :=
  lsnBelowNext (wal e)
  /\ forall transactionId tr,
       activeTransactions e !! transactionId = Some tr ->
       startLSN tr < currentLSN (wal e).

(** ** Statements about the engine *)

(** The value [write] finds in the key file. *)
Definition onDisk (content : option FileContent) : value :=
  match content with
  | None => VNull
  | Some FBlank => VObject []
  | Some (FJson v) => v
  | Some FGarbage => VObject []
  end.

(** What can happen to an engine: a call of its interface ([Checkpoint] is
    [forceCheckpoint], [Shutdown] is [destroy]), the body of a suspended
    [write], [read] or [delete] that runs once its lock request is resolved,
    or the timer of a pending lock request that fires. *)
Inductive Event : Type :=
  | Begin (transactionId : string)
  | Write (transactionId key : string) (data : value)
  | Read (transactionId key : string)
  | Delete (transactionId key : string)
  | Commit (transactionId : string)
  | Rollback (transactionId : string)
  | ResumeWrite (transactionId : string) (tr : Transaction) (key : string)
      (data : value)
  | ResumeRead (transactionId : string) (tr : Transaction) (key : string)
  | ResumeDelete (transactionId key : string)
  | Timeout (key transactionId : string)
  | Checkpoint
  | Shutdown.

Definition run `{!Platform} (now : Z) (ev : Event) (e : Engine)
  : Outcome * Engine :=
  match ev with
  | Begin transactionId =>
      let '(i, e') := beginTransaction now transactionId e in
      (Returned (VString i), e')
  | Write transactionId key data => write now transactionId key data e
  | Read transactionId key => read transactionId key e
  | Delete transactionId key => delete now transactionId key e
  | Commit transactionId => commitTransaction now transactionId e
  | Rollback transactionId => rollbackTransaction now transactionId e
  | ResumeWrite transactionId tr key data =>
      writeBody now transactionId tr key data e
  | ResumeRead transactionId tr key => readBody transactionId tr key e
  | ResumeDelete transactionId key => deleteBody now transactionId key e
  | Timeout key transactionId =>
      (Threw LockTimeout,
       setLocks (removeLockRequest key transactionId (lockManager e)) e)
  | Checkpoint => (Returned VUndefined, forceCheckpoint now e)
  | Shutdown => (Returned VUndefined, destroy now e)
  end.

(** The event is the commit or the rollback of [transactionId];
    [destroy] rolls back every active transaction. *)
Definition finishes (transactionId : string) (ev : Event) : Prop :=
  ev = Commit transactionId \/ ev = Rollback transactionId \/ ev = Shutdown.

(** The event is a write, read or delete of [transactionId] on [key]. *)
Definition operatesOn (transactionId key : string) (ev : Event) : Prop :=
  match ev with
  | Write t k _ | Read t k | Delete t k
  | ResumeWrite t _ k _ | ResumeRead t _ k | ResumeDelete t k =>
      t = transactionId /\ k = key
  | _ => False
  end.

(** The operation failed after it had acquired its lock. *)
Definition failedHoldingLock (out : Outcome) : Prop :=
  match out with
  | Threw InvalidTransaction => False
  | Threw _ => True
  | _ => False
  end.

(** Another active transaction that holds the lock of [key] calls [write]
    or [delete] on [key]: [acquireLock] grants the holder its exclusive
    request at once and makes it the only holder. *)
Definition regrantsToOther (e : Engine) (transactionId key : string)
    (ev : Event) : Prop :=
  match ev with
  | Write t k _ | Delete t k =>
      t <> transactionId /\ k = key /\ holdsLock (lockManager e) key t
      /\ exists tr, activeTransactions e !! t = Some tr /\ status tr = active
  | _ => False
  end.

(** The entry [writeLog] makes of a request. *)
Definition newEntry `{!Platform} (now : Z) (req : LogRequest)
    (w : WriteAheadLog.t) : LogEntry :=
  {| record := {| request := req; lsn := currentLSN w; timestamp := now |};
     checksum := calculateChecksum
                   {| request := req; lsn := currentLSN w; timestamp := now |} |}.

(** The request [write] hands to [writeLog]. *)
Definition writeRequest (transactionId k : string) (before after : value)
  : LogRequest :=
  {| operation := WRITE; transactionId := transactionId; key := Some k;
     beforeImage := before; afterImage := after |}.

(** ** deepMerge and the objects it is given *)


(** ** More statements about the log *)

(** The entries come in the order of their LSNs. *)
Definition sortedByLsn (l : list LogEntry) : Prop :=
  StronglySorted (fun a b => entryLsn a <= entryLsn b) l.

(** The line of [e] is in the log file or in one of the archives. *)
Definition onDiskEntry (w : WriteAheadLog.t) (e : LogEntry) : Prop :=
  Parsed e ∈ default [] (logFile w)
  \/ exists archive, archive ∈ archives w /\ Parsed e ∈ archive.

(** How the log holds the entries it was given by [writeLog]: an entry of
    the buffer carries its own checksum, the LSNs grow along the buffer, the
    entries of the buffer lie above the entries of the file, and all of them
    lie below the next LSN. *)
Definition ordered `{!Platform} (w : WriteAheadLog.t) : Prop :=
  Forall (fun e => verifyChecksum e = true) (logBuffer w)
  /\ StronglySorted (fun a b => entryLsn a < entryLsn b) (logBuffer w)
  /\ (forall f b, f ∈ validEntries (default [] (logFile w)) ->
                  b ∈ logBuffer w -> entryLsn f < entryLsn b)
  /\ lsnBelowNext w.

(** The log [w'] comes from the log [w] by calls of [writeLog],
    [forceFlush] and [clearCommittedTransaction]. *)
Inductive logSteps `{!Platform} (w : WriteAheadLog.t)
  : WriteAheadLog.t -> Prop :=
  | steps_none : logSteps w w
  | steps_writeLog now req w' :
      logSteps w w' -> logSteps w (snd (writeLog now req w'))
  | steps_forceFlush now w' :
      logSteps w w' -> logSteps w (forceFlush now w')
  | steps_clear now txn w' :
      logSteps w w' -> logSteps w (clearCommittedTransaction now txn w').

(** The engines that the interface can reach from the constructor. *)
Inductive reachable `{!Platform} : Engine -> Prop :=
  | reachable_create file f : reachable (create file f)
  | reachable_run now ev e : reachable e -> reachable (snd (run now ev e)).

(** The LSNs the log hands out are not negative, and a log that has handed
    out none has no entry to return. *)
Definition started `{!Platform} (w : WriteAheadLog.t) : Prop :=
  0 <= currentLSN w
  /\ (currentLSN w = 0 ->
      logBuffer w = [] /\ validEntries (default [] (logFile w)) = []).


(** An image of a log entry is absent or holds no [undefined]. *)
Definition jsonImage (v : value) : bool :=
  match v with
  | VUndefined => true
  | _ => isJson v
  end.

(** The images of the entry are JSON documents: the line that
    [JSON.stringify] makes of the entry parses back to the entry. *)
Definition jsonEntry (e : LogEntry) : bool :=
  jsonImage (entryBefore e) && jsonImage (entryAfter e).

(** The images a caller hands to [writeLog] are JSON documents. *)
Definition jsonRequest (req : LogRequest) : bool :=
  jsonImage (beforeImage req) && jsonImage (afterImage req).

(** The line is the line of an entry whose images are JSON documents. *)
Definition jsonLine (l : LogLine) : bool :=
  match l with
  | Parsed e => jsonEntry e
  | Garbled => false
  end.

(** The log is intact: its file was missing or blank when the entries of
    the buffer were the only ones it held, and since then it was given
    entries by [writeLog], flushed and trimmed by this class only; and the
    images of all these entries are JSON documents.  The text of such a
    file ends with a line break, so that [flushBuffer], which writes
    [currentContent + logEntries], adds whole lines to it, and each of its
    lines parses back to the entry it was made of. *)
Inductive intactLog `{!Platform} : WriteAheadLog.t -> Prop :=
  | intact_blank w :
      default [] (logFile w) = [] ->
      Forall (fun e => jsonEntry e = true) (logBuffer w) ->
      intactLog w
  | intact_writeLog now req w :
      intactLog w -> jsonRequest req = true ->
      intactLog (snd (writeLog now req w))
  | intact_forceFlush now w : intactLog w -> intactLog (forceFlush now w)
  | intact_clear now txn w :
      intactLog w -> intactLog (clearCommittedTransaction now txn w).

(** ** More statements about the lock table *)

(** A lock object has a holder, and an exclusive lock has one holder. *)
Definition lockOk (lockInfo : LockInfo) : Prop :=
  holders lockInfo <> ∅
  /\ (type lockInfo = exclusive -> exists t, holders lockInfo = {[t]}).

Definition locksOk (locks : LockTable) : Prop :=
  forall key lockInfo, locks !! key = Some lockInfo -> lockOk lockInfo.

(** A request of [transactionId] is in the wait queue of [key]. *)
Definition waitsFor (locks : LockTable) (key transactionId : string) : Prop :=
  match locks !! key with
  | Some lockInfo => transactionId ∈ requester <$> waitQueue lockInfo
  | None => False
  end.

(** ** More statements about crash recovery and deepMerge *)






(** ** Sample data *)

Definition profileDocument : value :=
  VObject [("user", VObject [("profile",
     VObject [("name", VString "John"); ("age", VNumber 30)])])].

Definition profilePatch : value :=
  VObject [("user", VObject [("profile", VObject [("age", VNumber 31)]);
                             ("preferences", VObject [("lang", VString "en")])])].

(** A lock table in which the transactions A and B share the lock of k. *)
Definition sharedByAB : LockManager.LockTable :=
  {[ "k" := {| LockManager.type := LockManager.shared;
               LockManager.holders := {[ "A"; "B" ]};
               LockManager.waitQueue := [] |} ]}.

(** A platform for the examples.  None of them flushes an entry that is
    read back, so the digest plays no part in them, and no log reaches the
    rotation threshold. *)
Definition samplePlatform : Platform :=
  {| sha256hex := fun _ => "00"; exceedsSizeLimit := fun _ => false |}.

(** An engine opened on a fresh directory with the key files [f] (there is
    no log file), in which the transaction T has begun. *)
Definition begun (f : gmap string FileContent) : Engine :=
  snd (@beginTransaction samplePlatform 0 "T" (@create samplePlatform None f)).

(** T has begun and committed. *)
Definition begunCommitted : Engine :=
  snd (@commitTransaction samplePlatform 1 "T" (begun ∅)).

(** T has begun and written the patch {a: 1} to the key k, which has no
    file. *)
Definition begunWritten : Engine :=
  snd (@write samplePlatform 1 "T" "k" (VObject [("a", VNumber 1)]) (begun ∅)).

(** The transaction object of T in [begun f]. *)
Definition transactionT : Transaction :=
  {| id := "T"; startLSN := 0; operations := []; status := active |}.

(** A heap with the object {a: {x: 1}} at location 1 and the object
    {a: {y: 2}} at location 3. *)
Definition sampleHeap : Heap.heap :=
  [ Heap.CObject [("x", Heap.RNumber 1)];
    Heap.CObject [("a", Heap.RPointer 0)];
    Heap.CObject [("y", Heap.RNumber 2)];
    Heap.CObject [("a", Heap.RPointer 2)] ].

(** Scenario 1 of the specification: two transactions patch u in turn. *)
Definition patchedTwice : Engine :=
  let e1 := begun ∅ in
  let e2 := snd (@write samplePlatform 1 "T" "u" (VObject [("a", VNumber 1)]) e1) in
  let e3 := snd (@commitTransaction samplePlatform 2 "T" e2) in
  let e4 := snd (@beginTransaction samplePlatform 3 "U" e3) in
  let e5 := snd (@write samplePlatform 4 "U" "u" (VObject [("b", VNumber 2)]) e4) in
  snd (@commitTransaction samplePlatform 5 "U" e5).

(** A log entry with the digest of the sample platform. *)
Definition sampleEntry (l : Z) (req : LogRequest) : LogLine :=
  Parsed {| record := {| request := req; lsn := l; timestamp := 0 |};
            checksum := "00" |}.

Definition beginRequest (t : string) : LogRequest :=
  {| operation := BEGIN; transactionId := t; key := None;
     beforeImage := VUndefined; afterImage := VUndefined |}.

Definition commitRequest (t : string) : LogRequest :=
  {| operation := COMMIT; transactionId := t; key := None;
     beforeImage := VUndefined; afterImage := VUndefined |}.

(** Scenario 4: the log of a crash between WRITE and COMMIT; the last line
    was cut short. *)
Definition crashedBeforeCommit : list LogLine :=
  [ sampleEntry 1 (beginRequest "T");
    sampleEntry 2 (writeRequest "T" "acct"
                     (VObject [("balance", VNumber 1000)])
                     (VObject [("balance", VNumber (-1))]));
    Garbled ].

(** Scenario 5: the log of a crash after COMMIT and before the apply. *)
Definition crashedAfterCommit : list LogLine :=
  [ sampleEntry 1 (beginRequest "T");
    sampleEntry 2 (writeRequest "T" "acct" VNull
                     (VObject [("balance", VNumber 1000)]));
    sampleEntry 3 (commitRequest "T") ].


(** ** More sample data *)




(** A has the lock of k; B and C wait to share it, and D waits for it in
    exclusive mode behind them. *)
Definition queuedBehindA : LockManager.LockTable :=
  {[ "k" := {| LockManager.type := LockManager.exclusive;
               LockManager.holders := {[ "A" ]};
               LockManager.waitQueue :=
                 [ {| LockManager.requester := "B";
                      LockManager.requested := LockManager.shared |};
                   {| LockManager.requester := "C";
                      LockManager.requested := LockManager.shared |};
                   {| LockManager.requester := "D";
                      LockManager.requested := LockManager.exclusive |} ] |} ]}.


(** The key file of acct with a balance of 1000. *)
Definition accountFile : gmap string ACIDStorageEngine.FileContent :=
  {[ "acct" := ACIDStorageEngine.FJson (VObject [("balance", VNumber 1000)]) ]}.

(** The transactions A and B have begun on a fresh directory, and both
    have read the key k: they share its lock. *)
Definition readByAB : Engine :=
  let e0 := @create samplePlatform None ∅ in
  let e1 := snd (@beginTransaction samplePlatform 0 "A" e0) in
  let e2 := snd (@beginTransaction samplePlatform 1 "B" e1) in
  let e3 := snd (@read samplePlatform "A" "k" e2) in
  snd (@read samplePlatform "B" "k" e3).

(** A platform on which a log file of a hundred lines is over the size
    limit of the rotation. *)
Definition smallLogPlatform : Platform :=
  {| sha256hex := fun _ => "00";
     exceedsSizeLimit := fun lines => bool_decide (100 <= length lines)%nat |}.

(** An engine opened on a directory with no log file, in which the file of
    k holds {b: 2}; T has begun and has written ninety-eight times to the
    key j, so that the buffer of the log holds ninety-nine entries. *)
Definition bufferAlmostFull : Engine :=
  Nat.iter 98
    (fun e => snd (@write smallLogPlatform 1 "T" "j" (VObject [("n", VNumber 1)]) e))
    (snd (@beginTransaction smallLogPlatform 0 "T"
            (@create smallLogPlatform None
               {[ "k" := FJson (VObject [("b", VNumber 2)]) ]}))).

(** * Properties *)

(** ** deepMerge *)

Section DeepMerge.




Lemma orEmpty_not_nullish v : isNullish (orEmpty v) = false.
Proof. unfold orEmpty. destruct (truthy v) eqn:E; [by destruct v | done]. Qed.

Lemma isPlainObject_not_nullish v : isPlainObject v = true -> isNullish v = false.
Proof. by destruct v. Qed.

Lemma mergeFields_cons dm tv key sv rest acc :
  mergeFields dm tv ((key, sv) :: rest) acc =
  if isPlainObject sv then
    if isNullish tv then Err TypeError
    else if isPlainObject (getProp tv key) then
      match dm (getProp tv key) sv with
      | Ok m => mergeFields dm tv rest (obj_set key m acc)
      | Err e => Err e
      end
    else mergeFields dm tv rest (obj_set key sv acc)
  else mergeFields dm tv rest (obj_set key sv acc).
Proof. simpl. destruct (isPlainObject sv); [| done]. by destruct tv. Qed.


(** Induction on values, with the hypothesis available for the elements of
    an array and the values of an object. *)
Lemma value_nested_ind (P : value -> Prop) :
  P VUndefined -> P VNull -> (forall b, P (VBool b)) ->
  (forall n, P (VNumber n)) -> (forall s, P (VString s)) ->
  (forall items, Forall P items -> P (VArray items)) ->
  (forall fields, Forall (fun kv => P kv.2) fields -> P (VObject fields)) ->
  forall v, P v.
Proof.
  intros Hundef Hnull Hbool Hnum Hstr Harr Hobj.
  fix IH 1. intros [| |b|n|s|items|fields].
  - exact Hundef.
  - exact Hnull.
  - apply Hbool.
  - apply Hnum.
  - apply Hstr.
  - apply Harr. induction items as [|x items IHitems]; constructor;
      [apply IH | exact IHitems].
  - apply Hobj. induction fields as [|[k x] fields IHfields]; constructor;
      [apply IH | exact IHfields].
Qed.

(** [deepMerge] returns on every target that is neither null nor
    undefined. *)
Lemma deepMerge_total source :
  forall target, isNullish target = false ->
  exists r, deepMerge target source = Ok r.
Proof.
  induction source as [| |b|n|s|items _|sfields IH] using value_nested_ind;
    intros target Htarget; simpl; eauto.
  assert (Hloop : forall acc, exists r,
            mergeFields deepMerge target sfields acc = Ok r).
  { induction IH as [|[key sv] rest Hsv _ IHrest]; intros acc; [by eexists |].
    rewrite mergeFields_cons, Htarget.
    destruct (isPlainObject sv); [| apply IHrest].
    destruct (isPlainObject (getProp target key)) eqn:Htv; [| apply IHrest].
    destruct (Hsv _ (isPlainObject_not_nullish _ Htv)) as [m Hm].
    simpl in Hm. rewrite Hm. apply IHrest. }
  apply Hloop.
Qed.


(** The two rules that do not look inside the target hold for every
    target, null included. *)
Lemma deepMerge_non_object_source (target source : value) :
  isPlainObject source = false -> deepMergeReference target source.
Proof. by destruct source. Qed.

(** *** JSON documents *)








(** Scenario 6 of the specification: siblings are preserved. *)
Example deepMerge_preserves_siblings :
  deepMerge profileDocument profilePatch =
  Ok (VObject [("user", VObject
       [("profile", VObject [("name", VString "John"); ("age", VNumber 31)]);
        ("preferences", VObject [("lang", VString "en")])])]).
Proof. reflexivity. Qed.

End DeepMerge.

(** ** deepMerge on the heap *)

Section HeapMerge.
Import Heap.














(** *** The heap after a merge *)










(** *** The merge on the heap computes the merge of the values *)








End HeapMerge.

(** ** deepMerge: the reference definition *)



(** The merge of the objects at locations 1 and 3 of the sample heap: the
    result is the new object at location 4, whose property a is the new
    object at location 5; the four objects that existed are as they
    were. *)
Example deepMergeH_sample :
  Heap.deepMergeH 2 sampleHeap (Heap.RPointer 1) (Heap.RPointer 3) =
  Some (Ok (Heap.RPointer 4,
            sampleHeap ++
            [ Heap.CObject [("a", Heap.RPointer 5)];
              Heap.CObject [("x", Heap.RNumber 1); ("y", Heap.RNumber 2)] ])).
Proof. reflexivity. Qed.


(** ** LockManager *)

Section LockManagerProperties.

Lemma holdsLock_insert_ne (locks : LockTable) key lockInfo K T :
  key <> K -> holdsLock (<[key := lockInfo]> locks) K T <-> holdsLock locks K T.
Proof. intros Hne. unfold holdsLock. by rewrite lookup_insert_ne. Qed.

Lemma holdsLock_insert_eq (locks : LockTable) lockInfo K T :
  holdsLock (<[K := lockInfo]> locks) K T <-> T ∈ holders lockInfo.
Proof. unfold holdsLock. by rewrite lookup_insert_eq. Qed.

Lemma holdsLock_delete_ne (locks : LockTable) key K T :
  key <> K -> holdsLock (base.delete key locks) K T <-> holdsLock locks K T.
Proof. intros Hne. unfold holdsLock. by rewrite lookup_delete_ne. Qed.

Lemma holdsLock_lookup (locks : LockTable) K T :
  holdsLock locks K T ->
  exists lockInfo, locks !! K = Some lockInfo /\ T ∈ holders lockInfo.
Proof.
  unfold holdsLock. destruct (locks !! K) as [lockInfo|]; [| done].
  intros Hin. by exists lockInfo.
Qed.

Lemma canGrantLock_grantable (locks : LockTable) key t lockType lockInfo :
  locks !! key = Some lockInfo ->
  grantable locks key t lockType ->
  canGrantLock lockInfo lockType t = true.
Proof.
  unfold grantable, canGrantLock. intros -> [Hin|[Hempty|[Htype Hreq]]].
  - by rewrite (bool_decide_eq_true_2 _ Hin).
  - destruct (bool_decide (t ∈ holders lockInfo)); [done |].
    by rewrite (bool_decide_eq_true_2 _ Hempty).
  - destruct (bool_decide (t ∈ holders lockInfo)); [done |].
    destruct (bool_decide (holders lockInfo = ∅)); [done |].
    by rewrite (bool_decide_eq_true_2 _ Htype), (bool_decide_eq_true_2 _ Hreq).
Qed.

(** A request that can be granted makes the transaction a holder. *)
Lemma acquireLock_granted (locks : LockTable) key t lockType :
  grantable locks key t lockType ->
  exists locks', acquireLock key t lockType locks = (Granted, locks')
                 /\ holdsLock locks' key t.
Proof.
  intros Hgrant. unfold acquireLock.
  destruct (locks !! key) as [lockInfo|] eqn:Hkey.
  - rewrite (canGrantLock_grantable locks key t lockType lockInfo Hkey Hgrant).
    destruct (bool_decide (lockType = shared) && bool_decide (type lockInfo = shared));
      eexists; (split; [reflexivity |]); apply holdsLock_insert_eq; simpl.
    + apply elem_of_union. right. by apply elem_of_singleton.
    + by apply elem_of_singleton.
  - eexists. split; [reflexivity |]. apply holdsLock_insert_eq. simpl.
    by apply elem_of_singleton.
Qed.

(** C10: [releaseLock(key, transactionId)] for a transaction that is not
    among the holders of the lock of [key], or for a key without a lock
    object, returns normally, leaves the whole lock table as it was and
    resolves no waiting request. *)
Theorem releaseLock_not_holder (key transactionId : string) (locks : LockTable) :
  ~ holdsLock locks key transactionId ->
  releaseLock key transactionId locks = (locks, []).
Proof.
  unfold holdsLock, releaseLock. intros Hnot.
  destruct (locks !! key) as [lockInfo|]; [| done].
  by rewrite bool_decide_eq_false_2.
Qed.

Lemma releaseLock_not_holder_witness :
  ~ holdsLock sharedByAB "k" "C"
  /\ ~ holdsLock sharedByAB "j" "A"
  /\ releaseLock "k" "C" sharedByAB = (sharedByAB, [])
  /\ releaseLock "j" "A" sharedByAB = (sharedByAB, []).
Proof.
  assert (H1 : ~ holdsLock sharedByAB "k" "C").
  { unfold holdsLock, sharedByAB. rewrite lookup_singleton_eq. simpl.
    rewrite elem_of_union, !elem_of_singleton. intros [?|?]; discriminate. }
  assert (H2 : ~ holdsLock sharedByAB "j" "A").
  { unfold holdsLock, sharedByAB. rewrite lookup_singleton_ne by discriminate.
    tauto. }
  split; [exact H1 |]. split; [exact H2 |].
  split; [exact (releaseLock_not_holder "k" "C" sharedByAB H1)
         | exact (releaseLock_not_holder "j" "A" sharedByAB H2)].
Defined.

(** What [acquireLock] does, by cases on whether the request can be
    granted. *)
Lemma acquireLock_outcome (key transactionId : string) (lockType : LockType)
    (locks : LockTable) :
  match acquireLock key transactionId lockType locks with
  | (Granted, locks') =>
      grantable locks key transactionId lockType
      /\ holdsLock locks' key transactionId
  | (Queued, locks') =>
      ~ grantable locks key transactionId lockType
      /\ exists lockInfo,
           locks !! key = Some lockInfo
           /\ locks' = <[key := enqueue transactionId lockType lockInfo]> locks
  end.
Proof.
  assert (Hgrant : fst (acquireLock key transactionId lockType locks) = Granted ->
                   grantable locks key transactionId lockType).
  { unfold acquireLock, grantable, canGrantLock.
    destruct (locks !! key) as [lockInfo|]; [| done].
    repeat case_bool_decide; simpl; try (repeat case_bool_decide); simpl;
      try tauto; done. }
  destruct (acquireLock key transactionId lockType locks) as [[|] locks']
    eqn:Hacquire.
  - specialize (Hgrant eq_refl). split; [done |].
    destruct (acquireLock_granted _ _ _ _ Hgrant) as (locks'' & Hsame & Hholds).
    rewrite Hacquire in Hsame. by injection Hsame as <-.
  - split.
    + intros Hcan.
      destruct (acquireLock_granted _ _ _ _ Hcan) as (locks'' & Hsame & _).
      by rewrite Hacquire in Hsame.
    + unfold acquireLock in Hacquire.
      destruct (locks !! key) as [lockInfo|]; [| done].
      exists lockInfo. split; [done |].
      destruct (canGrantLock lockInfo lockType transactionId);
        [by destruct (bool_decide (lockType = shared) && bool_decide (type lockInfo = shared)) |].
      by injection Hacquire as <-.
Qed.

(** C3 (as amended): [acquireLock(key, transactionId, lockType)] is
    granted at once exactly when the key has no lock object, or the
    transaction already holds the lock (whatever it asks for, and whoever
    else holds the lock), or the lock has no holder, or a shared request
    meets a shared lock, and the transaction then is a holder of the lock;
    otherwise the request is appended to the wait queue of the lock, whose
    mode and holders stay as they are. *)
Theorem acquireLock_policy (key transactionId : string) (lockType : LockType)
    (locks : LockTable) :
  match acquireLock key transactionId lockType locks with
  | (Granted, locks') =>
      grantable locks key transactionId lockType
      /\ holdsLock locks' key transactionId
  | (Queued, locks') =>
      ~ grantable locks key transactionId lockType
      /\ exists lockInfo,
           locks !! key = Some lockInfo
           /\ locks' = <[key := enqueue transactionId lockType lockInfo]> locks
  end.
Proof. apply acquireLock_outcome. Qed.

(** C3 as stated fails: A and B share the lock of k and A asks for an
    exclusive lock.  The specification makes A wait; the code grants the
    request (and A becomes the only holder). *)
Lemma upgrade_with_other_holder_granted :
  holdsLock sharedByAB "k" "A" /\ holdsLock sharedByAB "k" "B"
  /\ ~ grantableAsSpecified sharedByAB "k" "A" exclusive
  /\ acquireLock "k" "A" exclusive sharedByAB =
     (Granted, {[ "k" := {| type := exclusive; holders := {[ "A" ]};
                            waitQueue := [] |} ]}).
Proof.
  split; [| split; [| split]].
  - unfold holdsLock, sharedByAB. rewrite lookup_singleton_eq. simpl. set_solver.
  - unfold holdsLock, sharedByAB. rewrite lookup_singleton_eq. simpl. set_solver.
  - unfold grantableAsSpecified, sharedByAB. rewrite lookup_singleton_eq. simpl.
    intros [[_ Hsole]|[Hempty|[_ Hshared]]].
    + specialize (Hsole eq_refl eq_refl).
      assert (Hin : "B" ∈ ({[ "A"; "B" ]} : gset string)) by set_solver.
      rewrite Hsole in Hin. apply elem_of_singleton in Hin. discriminate.
    + assert (Hin : "B" ∈ ({[ "A"; "B" ]} : gset string)) by set_solver.
      rewrite Hempty in Hin. by apply not_elem_of_empty in Hin.
    + discriminate.
  - unfold acquireLock, sharedByAB. rewrite lookup_singleton_eq.
    unfold canGrantLock. simpl.
    rewrite bool_decide_eq_true_2 by set_solver. simpl.
    by rewrite insert_singleton_eq.
Qed.

End LockManagerProperties.

(** ** WriteAheadLog *)

Section WriteAheadLogProperties.
Context `{!Platform}.

Lemma writeLog_lsn now req (w : WriteAheadLog.t) :
  fst (writeLog now req w) = currentLSN w.
Proof. reflexivity. Qed.

(** C8, the absent log: the constructor leaves [currentLSN] at its initial
    value 0 when there is no log file, so the first entry appended gets
    LSN 0 where the specification says 1. *)
Theorem first_lsn_absent_log (now : Z) (req : LogRequest) :
  fst (writeLog now req (initializeWAL None)) = 0.
Proof. reflexivity. Qed.

(** With a log file that exists and is empty the first LSN is 1. *)
Lemma first_lsn_empty_log (now : Z) (req : LogRequest) :
  fst (writeLog now req (initializeWAL (Some []))) = 1.
Proof. reflexivity. Qed.

Lemma foldl_max_lower (l : list LogEntry) :
  forall c, c <= foldl (fun cur e => Z.max cur (entryLsn e)) c l.
Proof.
  induction l as [|x rest IH]; intros c; simpl; [lia |].
  specialize (IH (Z.max c (entryLsn x))). lia.
Qed.

Lemma foldl_max_upper (l : list LogEntry) :
  forall c e, e ∈ l ->
    entryLsn e <= foldl (fun cur e => Z.max cur (entryLsn e)) c l.
Proof.
  induction l as [|x rest IH]; intros c e Hin; simpl.
  - by apply elem_of_nil in Hin.
  - apply elem_of_cons in Hin as [->|Hin]; [| by apply IH].
    pose proof (foldl_max_lower rest (Z.max c (entryLsn x))). lia.
Qed.

Lemma foldl_max_attained (l : list LogEntry) :
  forall c,
    foldl (fun cur e => Z.max cur (entryLsn e)) c l = c
    \/ exists e, e ∈ l
         /\ foldl (fun cur e => Z.max cur (entryLsn e)) c l = entryLsn e.
Proof.
  induction l as [|x rest IH]; intros c; simpl; [by left |].
  destruct (IH (Z.max c (entryLsn x))) as [Heq|(e & Hin & Heq)].
  - rewrite Heq. destruct (Z.max_spec c (entryLsn x)) as [[_ ->]|[_ ->]].
    + right. exists x. split; [apply list_elem_of_here | done].
    + by left.
  - right. exists e. split; [by apply list_elem_of_further | done].
Qed.

(** With a log file the next LSN is one more than the largest LSN among
    the entries that pass the checksum (and 1 when there is none, the
    LSNs being non-negative). *)
Lemma next_lsn_after_recovery (lines : list LogLine) :
  (forall e, e ∈ validEntries lines ->
             entryLsn e < currentLSN (initializeWAL (Some lines)))
  /\ (currentLSN (initializeWAL (Some lines)) = 1
      \/ exists e, e ∈ validEntries lines
           /\ currentLSN (initializeWAL (Some lines)) = entryLsn e + 1).
Proof.
  simpl. split.
  - intros e Hin. pose proof (foldl_max_upper _ 0 e Hin). lia.
  - destruct (foldl_max_attained (validEntries lines) 0) as [->|(e & Hin & ->)];
      [by left | right; by exists e].
Qed.

Lemma getLogEntries_empty_log :
  getLogEntries None (initializeWAL None) = []
  /\ getLogEntries None (initializeWAL (Some [])) = [].
Proof. by split. Qed.

(** With an absent or an empty log the constructor of the engine leaves
    the key files as they are. *)
Lemma create_empty_log_files (f : gmap string FileContent) :
  files (create None f) = f /\ files (create (Some []) f) = f.
Proof. by split. Qed.

(** *** The entries of the log lie below the next LSN *)

Lemma validEntries_app (l1 l2 : list LogLine) :
  validEntries (l1 ++ l2) = validEntries l1 ++ validEntries l2.
Proof. unfold validEntries. apply omap_app. Qed.

Lemma validEntries_Parsed (l : list LogEntry) e :
  e ∈ validEntries (Parsed <$> l) -> e ∈ l /\ verifyChecksum e = true.
Proof.
  induction l as [|x rest IH]; simpl.
  - intros Hin. by apply elem_of_nil in Hin.
  - unfold validEntries in *. simpl. destruct (verifyChecksum x) eqn:Hx.
    + intros Hin. apply elem_of_cons in Hin as [->|Hin].
      * split; [apply list_elem_of_here | done].
      * destruct (IH Hin). split; [by apply list_elem_of_further | done].
    + intros Hin. destruct (IH Hin). split; [by apply list_elem_of_further | done].
Qed.

Lemma validEntries_Parsed_elem (l : list LogEntry) e :
  e ∈ l -> verifyChecksum e = true -> e ∈ validEntries (Parsed <$> l).
Proof.
  intros Hin Hok. unfold validEntries. apply list_elem_of_omap.
  exists (Parsed e). split; [by apply list_elem_of_fmap_2 | by rewrite Hok].
Qed.

Lemma validEntries_filter (P : LogLine -> bool) (lines : list LogLine) e :
  e ∈ validEntries (List.filter P lines) -> e ∈ validEntries lines.
Proof.
  unfold validEntries. rewrite !list_elem_of_omap.
  intros (l & Hin & Hl). exists l. split; [| done].
  apply list_elem_of_In in Hin. apply filter_In in Hin as [Hin _].
  by apply list_elem_of_In.
Qed.

Lemma initializeWAL_below (file : option (list LogLine)) :
  lsnBelowNext (initializeWAL file).
Proof.
  destruct file as [lines|]; intros e Hin.
  - apply (proj1 (next_lsn_after_recovery lines)). simpl in Hin. exact Hin.
  - simpl in Hin. by apply elem_of_nil in Hin.
Qed.

Lemma pushEntry_below now req (w : WriteAheadLog.t) :
  lsnBelowNext w -> lsnBelowNext (snd (pushEntry now req w)).
Proof.
  intros Hw e. simpl. rewrite <- app_assoc, !elem_of_app.
  intros [Hin|[Hin|Hin]].
  - assert (entryLsn e < currentLSN w) by (apply Hw, elem_of_app; by left). lia.
  - apply list_elem_of_singleton in Hin as ->. unfold entryLsn. simpl. lia.
  - assert (entryLsn e < currentLSN w) by (apply Hw, elem_of_app; by right). lia.
Qed.

Lemma flushBuffer_currentLSN now (w : WriteAheadLog.t) :
  currentLSN w <= currentLSN (flushBuffer now w).
Proof.
  unfold flushBuffer. destruct (logBuffer w); [lia |].
  unfold checkLogRotation. simpl.
  destruct (exceedsSizeLimit _); simpl; lia.
Qed.

Lemma flushBuffer_below now (w : WriteAheadLog.t) :
  lsnBelowNext w -> lsnBelowNext (flushBuffer now w).
Proof.
  intros Hw. unfold flushBuffer.
  destruct (logBuffer w) as [|x buffer] eqn:Hbuffer; [done |].
  unfold checkLogRotation. simpl.
  destruct (exceedsSizeLimit _); intros e; simpl.
  - intros Hin. apply list_elem_of_singleton in Hin as ->.
    unfold entryLsn. simpl. lia.
  - change (Parsed x :: list_fmap LogEntry LogLine Parsed buffer)
      with (Parsed <$> (x :: buffer)).
    rewrite validEntries_app, elem_of_app. intros [Hin|Hin].
    + apply Hw, elem_of_app. by right.
    + apply Hw, elem_of_app. left. rewrite Hbuffer.
      by apply (validEntries_Parsed (x :: buffer)).
Qed.

Lemma writeLog_currentLSN now req (w : WriteAheadLog.t) :
  currentLSN w < currentLSN (snd (writeLog now req w)).
Proof.
  unfold writeLog. simpl. destruct (mustFlush _ _); simpl; [| lia].
  match goal with |- _ < currentLSN (flushBuffer ?n ?x) =>
    pose proof (flushBuffer_currentLSN n x) end.
  simpl in *. lia.
Qed.

Lemma writeLog_below now req (w : WriteAheadLog.t) :
  lsnBelowNext w -> lsnBelowNext (snd (writeLog now req w)).
Proof.
  intros Hw. unfold writeLog.
  pose proof (pushEntry_below now req w Hw) as Hpush.
  destruct (pushEntry now req w) as [l w1]. simpl in *.
  destruct (mustFlush req w1); [by apply flushBuffer_below | done].
Qed.

Lemma clearCommittedTransaction_currentLSN now txn (w : WriteAheadLog.t) :
  currentLSN w <= currentLSN (clearCommittedTransaction now txn w).
Proof.
  unfold clearCommittedTransaction.
  pose proof (flushBuffer_currentLSN now w).
  destruct (logFile (flushBuffer now w)); [| done].
  by destruct (existsb _ _).
Qed.

Lemma clearCommittedTransaction_below now txn (w : WriteAheadLog.t) :
  lsnBelowNext w -> lsnBelowNext (clearCommittedTransaction now txn w).
Proof.
  intros Hw. apply (flushBuffer_below now) in Hw.
  unfold clearCommittedTransaction.
  destruct (logFile (flushBuffer now w)) as [lines|] eqn:Hfile; [| done].
  destruct (existsb _ _); [| done].
  intros e. simpl. rewrite elem_of_app. intros [Hin|Hin].
  - apply Hw, elem_of_app. by left.
  - apply Hw, elem_of_app. right. rewrite Hfile. simpl.
    by apply validEntries_filter in Hin.
Qed.

(** The call of [writeLog] inside [rotateLog] does not flush: the buffer
    holds the CHECKPOINT entry alone. *)
Lemma rotateLog_writeLog now (w : WriteAheadLog.t) :
  logBuffer w = [] ->
  let w1 := {| currentLSN := currentLSN w; logBuffer := logBuffer w;
               logFile := Some [];
               archives := archives w ++ [default [] (logFile w)] |} in
  rotateLog now w = snd (writeLog now checkpointRequest w1).
Proof. intros Hbuffer. unfold rotateLog, writeLog. simpl. by rewrite Hbuffer. Qed.

End WriteAheadLogProperties.

(** ** Crash recovery *)

Section Recovery.
Context `{!Platform}.

Lemma assign_lookup a f k :
  assign a f !! k =
  match a with
  | Some (k', content) => if String.eqb k' k then content else f !! k
  | None => f !! k
  end.
Proof.
  destruct a as [[k' content]|]; simpl; [| done].
  destruct (String.eqb_spec k' k) as [->|Hne].
  - by rewrite lookup_partial_alter_eq.
  - by rewrite lookup_partial_alter_ne.
Qed.

(** After a run of assignments a file has the last content assigned to it,
    or the content it had. *)
Lemma foldl_assign_lookup (l : list Assignment) :
  forall f k,
    foldl (fun f a => assign a f) f l !! k
    = default (f !! k) (lastAssigned k l).
Proof.
  induction l as [|a rest IH]; intros f k; simpl; [done |].
  rewrite IH. destruct (lastAssigned k rest) as [content|]; simpl; [done |].
  rewrite assign_lookup. destruct a as [[k' content]|]; [| done].
  by destruct (String.eqb k' k).
Qed.

Lemma foldl_assign_idempotent (l : list Assignment) f :
  foldl (fun f a => assign a f) (foldl (fun f a => assign a f) f l) l
  = foldl (fun f a => assign a f) f l.
Proof.
  apply map_eq. intros k. rewrite !foldl_assign_lookup.
  by destruct (lastAssigned k l).
Qed.

Lemma writeJson_assign (k : string) (v : value) :
  exists a, forall f', default f' (writeJson k v f') = assign a f'.
Proof.
  destruct v;
    first [ by exists None
          | eexists (Some (k, Some (FJson _))); intros f'; reflexivity ].
Qed.

Lemma unlinkIfExists_assign k f : unlinkIfExists k f = assign (Some (k, None)) f.
Proof.
  unfold unlinkIfExists, assign. apply map_eq. intros j.
  destruct (decide (k = j)) as [->|Hne].
  - by rewrite lookup_delete_eq, lookup_partial_alter_eq.
  - by rewrite lookup_delete_ne, lookup_partial_alter_ne.
Qed.

Lemma redoEntry_assign committedTxns entry :
  exists a, forall f, redoEntry committedTxns f entry = assign a f.
Proof.
  unfold redoEntry, redoOperation, redoDelete.
  destruct (entryOp entry); try (by exists None);
    (destruct (bool_decide (entryTxn entry ∈ committedTxns)); [| by exists None]);
    (destruct (truthyKey entry) as [k|]; [| by exists None]).
  - destruct (truthy (entryAfter entry)); [| by exists None].
    destruct (writeJson_assign k (entryAfter entry)) as [a Ha]. by exists a.
  - exists (Some (k, None)). intros f. apply unlinkIfExists_assign.
Qed.

Lemma undoOperation_assign entry :
  exists a, forall f, undoOperation entry f = assign a f.
Proof.
  unfold undoOperation.
  destruct (truthyKey entry) as [k|]; [| by exists None].
  destruct (entryOp entry); try (by exists None).
  - destruct (writeJson_assign k (entryBefore entry)) as [a Ha].
    destruct (entryBefore entry) eqn:E;
      first [ exists (Some (k, None)); intros f; apply unlinkIfExists_assign
            | by exists a ].
  - destruct (truthy (entryBefore entry)); [| by exists None].
    destruct (writeJson_assign k (entryBefore entry)) as [a Ha]. by exists a.
Qed.

Lemma foldl_steps_assign {A} (step : gmap string FileContent -> A -> gmap string FileContent)
    (l : list A) :
  (forall x, exists a, forall f, step f x = assign a f) ->
  exists assignments, forall f,
    foldl step f l = foldl (fun f a => assign a f) f assignments.
Proof.
  intros Hstep. induction l as [|x rest [assignments IH]].
  - by exists [].
  - destruct (Hstep x) as [a Ha]. exists (a :: assignments). intros f. simpl.
    by rewrite Ha, IH.
Qed.

(** The whole recovery pass is a run of assignments that is fixed by the
    log. *)
Lemma performCrashRecovery_assign (w : WriteAheadLog.t) :
  exists assignments, forall f,
    performCrashRecovery w f = foldl (fun f a => assign a f) f assignments.
Proof.
  unfold performCrashRecovery.
  set (logEntries := getLogEntries None w).
  set (c := committedTransactions logEntries).
  set (a := abortedTransactions logEntries).
  destruct (foldl_steps_assign (redoEntry c) logEntries) as [redo Hredo].
  { intros x. apply redoEntry_assign. }
  destruct (foldl_steps_assign (fun f entry => undoOperation entry f)
              (rev (List.filter (isUncommittedOp c a) logEntries)))
    as [undo Hundo].
  { intros x. apply undoOperation_assign. }
  exists (redo ++ undo). intros f. by rewrite Hundo, Hredo, foldl_app.
Qed.

(** A second run of the three passes changes nothing. *)
Lemma performCrashRecovery_twice (w : WriteAheadLog.t)
    (f : gmap string FileContent) :
  performCrashRecovery w (performCrashRecovery w f) = performCrashRecovery w f.
Proof.
  destruct (performCrashRecovery_assign w) as [assignments Hrun].
  rewrite !Hrun. apply foldl_assign_idempotent.
Qed.

(** C6: crash recovery is idempotent.  For every log and every set of key
    files, running the analysis, redo and undo passes a second time leaves
    the key files exactly as the first run left them. *)
Theorem performCrashRecovery_idempotent (w : WriteAheadLog.t)
    (f : gmap string FileContent) :
  performCrashRecovery w (performCrashRecovery w f) = performCrashRecovery w f.
Proof. apply performCrashRecovery_twice. Qed.

(** Recovery reads the log and does not write it, so the second run of the
    constructor sees the log of the first. *)
Lemma create_twice (file : option (list LogLine)) (f : gmap string FileContent) :
  files (create file (files (create file f))) = files (create file f).
Proof. apply performCrashRecovery_twice. Qed.

End Recovery.

(** ** The engine and its locks *)

Section LockRetention.
Context `{!Platform}.

(** A release on another key, or by another transaction, keeps the hold. *)
Lemma releaseLock_keeps (locks : LockTable) key t K T :
  key <> K \/ t <> T ->
  holdsLock locks K T ->
  holdsLock (fst (releaseLock key t locks)) K T.
Proof.
  intros Hother Hholds. unfold releaseLock.
  destruct (locks !! key) as [lockInfo|] eqn:Hkey; [| done].
  destruct (bool_decide (t ∈ holders lockInfo)); [| done].
  destruct (decide (key = K)) as [->|Hne].
  - destruct Hother as [?|Ht]; [done |].
    unfold holdsLock in Hholds. rewrite Hkey in Hholds.
    assert (Hstill : T ∈ holders lockInfo ∖ {[t]}).
    { apply elem_of_difference. split; [done |].
      intros Hsame. apply elem_of_singleton in Hsame. congruence. }
    assert (Hnonempty : holders lockInfo ∖ {[t]} <> ∅).
    { intros Hempty. rewrite Hempty in Hstill. by apply not_elem_of_empty in Hstill. }
    simpl. rewrite (bool_decide_eq_false_2 _ Hnonempty). simpl.
    rewrite (bool_decide_eq_false_2 _ Hnonempty). simpl.
    by apply holdsLock_insert_eq.
  - match goal with
    | |- context [let '(_, _) := ?x in _] => destruct x as [l r]
    end.
    destruct (bool_decide (holders l = ∅) && bool_decide (waitQueue l = []));
      simpl.
    + by apply holdsLock_delete_ne.
    + by apply holdsLock_insert_ne.
Qed.

Lemma removeLockRequest_keeps (locks : LockTable) key t K T :
  holdsLock locks K T -> holdsLock (removeLockRequest key t locks) K T.
Proof.
  intros Hholds. unfold removeLockRequest.
  destruct (locks !! key) as [lockInfo|] eqn:Hkey; [| done].
  destruct (decide (key = K)) as [->|Hne].
  - apply holdsLock_insert_eq. simpl.
    unfold holdsLock in Hholds. by rewrite Hkey in Hholds.
  - by apply holdsLock_insert_ne.
Qed.

(** [acquireLock] keeps the hold of [T] on [K], unless another holder of
    [K] asks for the lock in a mode that does not share it. *)
Lemma acquireLock_keeps (locks : LockTable) key t lockType K T :
  holdsLock locks K T ->
  key <> K \/ t = T \/ ~ holdsLock locks K t
  \/ (lockType = shared
      /\ forall lockInfo, locks !! K = Some lockInfo -> type lockInfo = shared) ->
  holdsLock (snd (acquireLock key t lockType locks)) K T.
Proof.
  intros Hholds Hcases. unfold acquireLock.
  destruct (decide (key = K)) as [->|Hne].
  - destruct Hcases as [?|Hcases]; [done |].
    unfold holdsLock in Hholds, Hcases.
    destruct (locks !! K) as [lockInfo|] eqn:HK; [| done].
    unfold canGrantLock.
    destruct (decide (t ∈ holders lockInfo)) as [Hin|Hout].
    + rewrite (bool_decide_eq_true_2 _ Hin).
      destruct (bool_decide (lockType = shared) && bool_decide (type lockInfo = shared))
        eqn:Hmode; cbn [snd]; apply holdsLock_insert_eq; cbn [holders].
      * apply elem_of_union. by left.
      * destruct Hcases as [->|[Hnot|[-> Hshared]]];
          [by apply elem_of_singleton | done |].
        rewrite (Hshared lockInfo eq_refl) in Hmode. done.
    + rewrite (bool_decide_eq_false_2 _ Hout).
      assert (Hnonempty : holders lockInfo <> ∅).
      { intros Hempty. rewrite Hempty in Hholds.
        by apply not_elem_of_empty in Hholds. }
      rewrite (bool_decide_eq_false_2 _ Hnonempty).
      destruct (bool_decide (type lockInfo = shared)) eqn:Htype;
        destruct (bool_decide (lockType = shared)) eqn:Hreq; simpl;
        apply holdsLock_insert_eq; cbn [holders];
        first [ done | apply elem_of_union; by left ].
  - destruct (locks !! key) as [lockInfo|]; simpl.
    + destruct (canGrantLock lockInfo lockType t);
        [destruct (bool_decide (lockType = shared) && bool_decide (type lockInfo = shared)) |];
        simpl; by apply holdsLock_insert_ne.
    + by apply holdsLock_insert_ne.
Qed.

Lemma releaseAllStep_keeps t (acc : Released) (entry : string * LockInfo) K T :
  t <> T ->
  holdsLock (table acc) K T ->
  holdsLock (table (releaseAllStep t acc entry)) K T.
Proof.
  intros Hne Hholds. destruct entry as [key lockInfo]. unfold releaseAllStep.
  assert (Hreleased : holdsLock
            (fst (if bool_decide (t ∈ holders lockInfo)
                  then releaseLock key t (table acc) else (table acc, []))) K T).
  { destruct (bool_decide (t ∈ holders lockInfo)); [| done].
    apply releaseLock_keeps; [by right | done]. }
  destruct (if bool_decide (t ∈ holders lockInfo)
            then releaseLock key t (table acc) else (table acc, []))
    as [locks1 res]. simpl in Hreleased.
  destruct (locks1 !! key) as [li|] eqn:Hkey; simpl; [| done].
  destruct (decide (key = K)) as [->|HneK].
  - apply holdsLock_insert_eq. simpl.
    unfold holdsLock in Hreleased. by rewrite Hkey in Hreleased.
  - by apply holdsLock_insert_ne.
Qed.

(** [releaseAllLocks] of one transaction keeps the holds of the others. *)
Lemma releaseAllLocks_keeps t (locks : LockTable) K T :
  t <> T ->
  holdsLock locks K T ->
  holdsLock (table (releaseAllLocks t locks)) K T.
Proof.
  intros Hne Hholds. unfold releaseAllLocks.
  assert (Hgen : forall entries acc,
            holdsLock (table acc) K T ->
            holdsLock (table (foldl (releaseAllStep t) acc entries)) K T).
  { induction entries as [|entry rest IH]; intros acc Hacc; simpl; [done |].
    apply IH. by apply releaseAllStep_keeps. }
  by apply Hgen.
Qed.

Lemma holdsLock_dec (locks : LockTable) K T :
  holdsLock locks K T \/ ~ holdsLock locks K T.
Proof.
  unfold holdsLock. destruct (locks !! K) as [lockInfo|]; [| right; tauto].
  destruct (decide (T ∈ holders lockInfo)); [by left | by right].
Qed.

Lemma writeBody_locks now t tr k data (e : Engine) :
  lockManager (snd (writeBody now t tr k data e)) = lockManager e.
Proof.
  unfold writeBody.
  destruct (deepMerge_total data (orEmpty (currentData t tr k e))
              (orEmpty_not_nullish _)) as [m ->].
  done.
Qed.

Lemma deleteBody_locks now t k (e : Engine) :
  lockManager (snd (deleteBody now t k e)) = lockManager e.
Proof. unfold deleteBody. done. Qed.

Lemma readBody_keeps t tr k (e : Engine) K T :
  ~ (operatesOn T K (ResumeRead t tr k)
     /\ failedHoldingLock (fst (readBody t tr k e))) ->
  holdsLock (lockManager e) K T ->
  holdsLock (lockManager (snd (readBody t tr k e))) K T.
Proof.
  unfold readBody. intros Hfail Hholds.
  destruct (last (transactionEntries t tr k e)) as [lastEntry|].
  { by destruct (bool_decide (entryOp lastEntry = DELETE)). }
  destruct (files e !! k) as [[|v|]|]; try done.
  simpl in *. apply releaseLock_keeps; [| done].
  destruct (decide (k = K)) as [->|?]; [| by left].
  destruct (decide (t = T)) as [->|?]; [| by right].
  destruct Hfail. by split.
Qed.

End LockRetention.

(** ** The engine and its log *)

Section EngineLog.
Context `{!Platform}.

(** *** The sort of [getLogEntries] *)

Lemma insertByLsn_snoc (l : list LogEntry) e new :
  entryLsn e <= entryLsn new ->
  insertByLsn e (l ++ [new]) = insertByLsn e l ++ [new].
Proof.
  intros Hle. induction l as [|x rest IH]; simpl.
  - by rewrite (proj2 (Z.leb_le _ _) Hle).
  - destruct (entryLsn e <=? entryLsn x); [done |]. by rewrite IH.
Qed.

Lemma insertByLsn_max (l : list LogEntry) new :
  (forall x, x ∈ l -> entryLsn x < entryLsn new) ->
  insertByLsn new l = l ++ [new].
Proof.
  induction l as [|x rest IH]; intros Hbelow; simpl; [done |].
  assert (entryLsn x < entryLsn new) by (apply Hbelow, list_elem_of_here).
  rewrite (proj2 (Z.leb_gt _ _)) by lia.
  rewrite IH; [done |]. intros y Hy. by apply Hbelow, list_elem_of_further.
Qed.

Lemma elem_of_insertByLsn (l : list LogEntry) e x :
  x ∈ insertByLsn e l <-> x = e \/ x ∈ l.
Proof.
  induction l as [|y rest IH]; simpl.
  - rewrite list_elem_of_singleton, elem_of_nil. tauto.
  - destruct (entryLsn e <=? entryLsn y).
    + by rewrite elem_of_cons.
    + rewrite !elem_of_cons, IH. tauto.
Qed.

Lemma elem_of_sortByLsn (l : list LogEntry) x : x ∈ sortByLsn l <-> x ∈ l.
Proof.
  induction l as [|y rest IH]; simpl; [done |].
  by rewrite elem_of_insertByLsn, elem_of_cons, IH.
Qed.

(** An entry whose LSN is above the LSN of every other entry comes last. *)
Lemma sortByLsn_last (l : list LogEntry) new :
  (forall x, x ∈ l -> x = new \/ entryLsn x < entryLsn new) ->
  new ∈ l ->
  exists l', sortByLsn l = l' ++ [new].
Proof.
  intros Hall Hin.
  assert (Hgen : (exists l', sortByLsn l = l' ++ [new])
                 \/ (forall x, x ∈ l -> entryLsn x < entryLsn new)).
  { clear Hin. induction l as [|y rest IH]; [right; intros x Hx; by apply elem_of_nil in Hx |].
    assert (Hy : y = new \/ entryLsn y < entryLsn new)
      by apply Hall, list_elem_of_here.
    destruct IH as [[l' Hl']|Hbelow].
    - intros x Hx. by apply Hall, list_elem_of_further.
    - left. simpl. rewrite Hl'. exists (insertByLsn y l').
      apply insertByLsn_snoc. destruct Hy as [->|?]; lia.
    - destruct Hy as [->|Hy].
      + left. exists (sortByLsn rest). simpl. apply insertByLsn_max.
        intros x Hx. by apply Hbelow, elem_of_sortByLsn.
      + right. intros x Hx. apply elem_of_cons in Hx as [->|Hx]; [done |].
        by apply Hbelow. }
  destruct Hgen as [?|Hbelow]; [done |].
  specialize (Hbelow new Hin). lia.
Qed.

Lemma filter_snoc_last (P : LogEntry -> bool) (l : list LogEntry) new :
  P new = true -> last (List.filter P (l ++ [new])) = Some new.
Proof.
  intros HP. rewrite List.filter_app. simpl. rewrite HP. apply last_snoc.
Qed.

(** *** What [writeLog] does to the log *)

Lemma verifyChecksum_newEntry now req (w : WriteAheadLog.t) :
  verifyChecksum (newEntry now req w) = true.
Proof. unfold verifyChecksum, newEntry. simpl. apply String.eqb_refl. Qed.

(** [writeLog] leaves the new entry in the buffer, or flushes it to the
    file, or flushes it and rotates the log. *)
Lemma writeLog_cases now req (w : WriteAheadLog.t) :
  let w' := snd (writeLog now req w) in
  let flushed := default [] (logFile w)
                 ++ (Parsed <$> (logBuffer w ++ [newEntry now req w])) in
  currentLSN w < currentLSN w'
  /\ ((logBuffer w' = logBuffer w ++ [newEntry now req w]
       /\ logFile w' = logFile w /\ archives w' = archives w)
      \/ (logBuffer w' = [] /\ logFile w' = Some flushed
          /\ archives w' = archives w)
      \/ archives w' = archives w ++ [flushed]).
Proof.
  simpl. split; [apply writeLog_currentLSN |].
  unfold writeLog. simpl. destruct (mustFlush _ _); simpl; [| by left].
  right. unfold flushBuffer. simpl.
  destruct (logBuffer w ++ _) as [|x buffer] eqn:Hbuffer.
  { by apply app_eq_nil in Hbuffer as [_ ?]. }
  rewrite <- Hbuffer. unfold checkLogRotation. simpl.
  destruct (exceedsSizeLimit _); simpl; [by right | by left].
Qed.

Lemma elem_of_parsedEntries (lines : list LogLine) e :
  e ∈ parsedEntries lines <-> Parsed e ∈ lines.
Proof.
  unfold parsedEntries. rewrite list_elem_of_omap. split.
  - intros (l & Hin & Hl). destruct l; [done |]. by inversion Hl; subst.
  - intros Hin. by exists (Parsed e).
Qed.

(** The entry [writeLog] appends is in the log afterwards. *)
Lemma writeLog_logged now req (w : WriteAheadLog.t) :
  newEntry now req w ∈ logged (snd (writeLog now req w)).
Proof.
  destruct (writeLog_cases now req w) as [_ Hcases]. cbv zeta in Hcases.
  assert (Hflushed : Parsed (newEntry now req w)
            ∈ default [] (logFile w)
              ++ (Parsed <$> (logBuffer w ++ [newEntry now req w]))).
  { apply elem_of_app. right. apply list_elem_of_fmap_2, elem_of_app. right.
    apply list_elem_of_here. }
  unfold logged.
  destruct Hcases as [(Hbuffer & _ & _)|[(_ & Hfile & _)|Harchives]].
  - rewrite Hbuffer. apply elem_of_app. left. apply elem_of_app. right.
    apply list_elem_of_here.
  - rewrite Hfile. apply elem_of_app. right. apply elem_of_app. left.
    by apply elem_of_parsedEntries.
  - rewrite Harchives. apply elem_of_app. right. apply elem_of_app. right.
    apply elem_of_parsedEntries. rewrite concat_app, elem_of_app. right.
    simpl. by rewrite app_nil_r.
Qed.

(** Unless the log was rotated, the entry [writeLog] appends is the last
    entry [getLogEntries] returns afterwards. *)
Lemma writeLog_visible now req fromLSN (w : WriteAheadLog.t) :
  lsnBelowNext w ->
  archives (snd (writeLog now req w)) = archives w ->
  fromOk fromLSN (newEntry now req w) = true ->
  exists l',
    getLogEntries fromLSN (snd (writeLog now req w)) = l' ++ [newEntry now req w].
Proof.
  intros Hw Harchives Hfrom.
  destruct (writeLog_cases now req w) as [_ Hcases]. cbv zeta in Hcases.
  unfold getLogEntries.
  assert (Hold : forall x, x ∈ logBuffer w ++ validEntries (default [] (logFile w)) ->
                 x = newEntry now req w \/ entryLsn x < entryLsn (newEntry now req w)).
  { intros x Hx. right. by apply Hw. }
  assert (Hnew : forall l (x : LogEntry), x ∈ l ++ [newEntry now req w] ->
                 x ∈ l \/ x = newEntry now req w).
  { intros l x Hx. apply elem_of_app in Hx as [?|Hx]; [by left |].
    apply list_elem_of_singleton in Hx. by right. }
  destruct Hcases as [(Hbuffer & Hfile & _)|[(Hbuffer & Hfile & _)|Hrotated]].
  - rewrite Hbuffer, Hfile. apply sortByLsn_last.
    + intros x Hx. apply elem_of_app in Hx as [Hx|Hx];
        apply list_elem_of_In, filter_In in Hx as [Hx _];
        apply list_elem_of_In in Hx.
      * apply Hnew in Hx as [Hx | ->]; [| by left].
        apply Hold, elem_of_app. by left.
      * apply Hold, elem_of_app. by right.
    + apply elem_of_app. left. apply list_elem_of_In, filter_In.
      split; [| done]. apply list_elem_of_In, elem_of_app. right.
      apply list_elem_of_here.
  - rewrite Hbuffer, Hfile. simpl. apply sortByLsn_last.
    + intros x Hx. apply list_elem_of_In, filter_In in Hx as [Hx _].
      apply list_elem_of_In in Hx. rewrite validEntries_app in Hx.
      apply elem_of_app in Hx as [Hx|Hx].
      * apply Hold, elem_of_app. by right.
      * apply validEntries_Parsed in Hx as [Hx _].
        apply Hnew in Hx as [Hx | ->]; [| by left].
        apply Hold, elem_of_app. by left.
    + apply list_elem_of_In, filter_In. split; [| done].
      apply list_elem_of_In. rewrite validEntries_app. apply elem_of_app. right.
      apply validEntries_Parsed_elem; [| apply verifyChecksum_newEntry].
      apply elem_of_app. right. apply list_elem_of_here.
  - rewrite Harchives in Hrotated.
    apply (f_equal length) in Hrotated. rewrite length_app in Hrotated.
    simpl in Hrotated. lia.
Qed.

End EngineLog.

(** ** The engine: write and read *)

Section WriteRead.
Context `{!Platform}.

(** A write, read or delete that returns has made the transaction a
    holder of the lock of its key. *)
Lemma successful_operation_holds_lock (now : Z) (t k : string) (data v : value)
    (e : Engine) :
  (fst (write now t k data e) = Returned v ->
     holdsLock (lockManager (snd (write now t k data e))) k t)
  /\ (fst (read t k e) = Returned v ->
        holdsLock (lockManager (snd (read t k e))) k t)
  /\ (fst (delete now t k e) = Returned v ->
        holdsLock (lockManager (snd (delete now t k e))) k t).
Proof.
  assert (Hacquired : forall lockType locks,
            acquireLock k t lockType (lockManager e) = (Granted, locks) ->
            holdsLock locks k t).
  { intros lockType locks Hacquire.
    pose proof (acquireLock_outcome k t lockType (lockManager e)) as Hpolicy.
    rewrite Hacquire in Hpolicy. by destruct Hpolicy. }
  unfold write, read, delete.
  destruct (activeTransactions e !! t) as [tr|]; [| done].
  destruct (bool_decide (status tr = active)); [| done].
  split; [| split].
  - destruct (acquireLock k t exclusive (lockManager e)) as [[|] locks] eqn:Hacquire;
      [| done].
    intros _. rewrite writeBody_locks. by apply (Hacquired exclusive).
  - destruct (acquireLock k t shared (lockManager e)) as [[|] locks] eqn:Hacquire;
      [| done].
    specialize (Hacquired shared locks Hacquire). unfold readBody.
    destruct (last (transactionEntries t tr k (setLocks locks e))) as [lastEntry|].
    { by destruct (bool_decide (entryOp lastEntry = DELETE)). }
    by destruct (files (setLocks locks e) !! k) as [[|w|]|].
  - destruct (acquireLock k t exclusive (lockManager e)) as [[|] locks] eqn:Hacquire;
      [| done].
    intros _. by apply (Hacquired exclusive).
Qed.

(** The body of [write] appends one WRITE entry and returns. *)
Lemma writeBody_runs now t tr k data (e : Engine) :
  exists m,
    deepMerge (orEmpty (currentData t tr k e)) data = Ok m
    /\ writeBody now t tr k data e =
       (Returned VUndefined,
        setTransactions
          (alter (pushOperation (k, op_write)) t (activeTransactions e))
          (setWal (snd (writeLog now (writeRequest t k (currentData t tr k e) m)
                                 (wal e))) e)).
Proof.
  destruct (deepMerge_total data (orEmpty (currentData t tr k e))
              (orEmpty_not_nullish _)) as [m Hm].
  exists m. split; [done |]. unfold writeBody. by rewrite Hm.
Qed.

(** [write] on an active transaction whose lock request is granted at
    once. *)
Lemma write_runs now t tr k data (e : Engine) :
  activeTransactions e !! t = Some tr ->
  status tr = active ->
  grantable (lockManager e) k t exclusive ->
  exists locks,
    acquireLock k t exclusive (lockManager e) = (Granted, locks)
    /\ holdsLock locks k t
    /\ write now t k data e = writeBody now t tr k data (setLocks locks e).
Proof.
  intros Htr Hactive Hgrant.
  destruct (acquireLock_granted _ _ _ _ Hgrant) as (locks & Hacquire & Hholds).
  exists locks. split; [done |]. split; [done |].
  unfold write. by rewrite Htr, (bool_decide_eq_true_2 _ Hactive), Hacquire.
Qed.

Lemma newEntry_pending now t k before after (w : WriteAheadLog.t) :
  String.eqb (entryTxn (newEntry now (writeRequest t k before after) w)) t
  && keyIs (newEntry now (writeRequest t k before after) w) k
  && (bool_decide (entryOp (newEntry now (writeRequest t k before after) w) = WRITE)
      || bool_decide (entryOp (newEntry now (writeRequest t k before after) w) = DELETE))
  = true.
Proof.
  unfold keyIs, entryTxn, entryKey, entryOp. simpl.
  by rewrite !String.eqb_refl.
Qed.

(** The body of [write] followed by [read], for a transaction that is
    active and holds the lock; this covers a [write] that was suspended and
    resumed as well as one that ran at once. *)
Lemma writeBody_then_read now t tr tr0 k data (e : Engine) :
  lsnBelowNext (wal e) ->
  startLSN tr < currentLSN (wal e) ->
  activeTransactions e !! t = Some tr0 ->
  status tr0 = active ->
  startLSN tr0 = startLSN tr ->
  holdsLock (lockManager e) k t ->
  archives (wal (snd (writeBody now t tr k data e))) = archives (wal e) ->
  exists m, deepMerge (orEmpty (currentData t tr k e)) data = Ok m
    /\ fst (writeBody now t tr k data e) = Returned VUndefined
    /\ fst (read t k (snd (writeBody now t tr k data e))) = Returned (orEmpty m).
Proof.
  intros Hbelow Hstart Htr0 Hactive Hsame Hholds Harchives.
  destruct (writeBody_runs now t tr k data e) as (m & Hm & Hrun).
  exists m. split; [done |]. rewrite Hrun in *.
  set (req := writeRequest t k (currentData t tr k e) m) in *.
  cbn [fst snd wal setWal setTransactions] in Harchives.
  split; [done |]. cbn [fst snd].
  destruct (writeLog_visible now req (Some (startLSN tr)) (wal e) Hbelow Harchives)
    as [l' Hentries].
  { unfold fromOk, newEntry, entryLsn. simpl.
    apply orb_true_iff. right. apply Z.leb_le. lia. }
  unfold read.
  cbn [activeTransactions lockManager setTransactions setWal].
  rewrite lookup_alter_eq, Htr0.
  cbn [fmap option_fmap option_map status pushOperation].
  rewrite (bool_decide_eq_true_2 _ Hactive).
  destruct (acquireLock_granted (lockManager e) k t shared) as (locks & -> & _).
  { unfold grantable. unfold holdsLock in Hholds.
    destruct (lockManager e !! k); [by left | done]. }
  unfold readBody, transactionEntries.
  cbn [wal setLocks setTransactions setWal startLSN pushOperation].
  rewrite Hsame, Hentries.
  rewrite filter_snoc_last by apply newEntry_pending.
  reflexivity.
Qed.

(** As long as the write does not rotate the log, the read that follows it
    finds the WRITE entry in the buffer or in the log file: for an active
    transaction T whose lock request is granted at once, [write(T, k, p)]
    followed by [read(T, k)] returns [deepMerge(v || {}, p) || {}], where
    [v] is the value visible to T for k before the write. *)
Lemma write_then_read (now : Z) (t : string) (tr : Transaction) (k : string)
    (data : value) (e : Engine) :
  consistent e ->
  activeTransactions e !! t = Some tr ->
  status tr = active ->
  grantable (lockManager e) k t exclusive ->
  archives (wal (snd (write now t k data e))) = archives (wal e) ->
  exists m, deepMerge (orEmpty (currentData t tr k e)) data = Ok m
    /\ fst (write now t k data e) = Returned VUndefined
    /\ fst (read t k (snd (write now t k data e))) = Returned (orEmpty m).
Proof.
  intros [Hbelow Hstart] Htr Hactive Hgrant Harchives.
  destruct (write_runs now t tr k data e Htr Hactive Hgrant)
    as (locks & _ & Hholds & Hwrite).
  rewrite Hwrite in *.
  by apply (writeBody_then_read now t tr tr k data (setLocks locks e));
    [| apply (Hstart t) | | | | |].
Qed.


(** [delete] records the content of the key file as before-image, whether
    or not the transaction has pending entries for the key. *)
Lemma delete_before_image (now : Z) (t : string) (tr : Transaction)
    (k : string) (e : Engine) :
  activeTransactions e !! t = Some tr ->
  status tr = active ->
  grantable (lockManager e) k t exclusive ->
  fst (delete now t k e) = Returned VUndefined
  /\ exists entry,
       entry ∈ logged (wal (snd (delete now t k e)))
       /\ entryLsn entry = currentLSN (wal e)
       /\ entryOp entry = DELETE
       /\ entryTxn entry = t
       /\ entryKey entry = Some k
       /\ entryBefore entry = deleteBeforeImage k e
       /\ entryAfter entry = VNull.
Proof.
  intros Htr Hactive Hgrant.
  destruct (acquireLock_granted _ _ _ _ Hgrant) as (locks & Hacquire & _).
  unfold delete. rewrite Htr, (bool_decide_eq_true_2 _ Hactive), Hacquire.
  split; [done |]. eexists. split; [apply writeLog_logged |]. done.
Qed.

(** *** Consistency is kept by every event *)

Lemma beginTransaction_unfold now t (e : Engine) :
  beginTransaction now t e =
  (t, setTransactions
        (<[t := {| id := t; startLSN := currentLSN (wal e); operations := [];
                   status := active |}]> (activeTransactions e))
        (setWal (snd (writeLog now
                        {| operation := BEGIN; transactionId := t; key := None;
                           beforeImage := VUndefined; afterImage := VUndefined |}
                        (wal e))) e)).
Proof. reflexivity. Qed.

Lemma deleteBody_unfold now t k (e : Engine) :
  deleteBody now t k e =
  (Returned VUndefined,
   setTransactions
     (alter (pushOperation (k, op_delete)) t (activeTransactions e))
     (setWal (snd (writeLog now
                     {| operation := DELETE; transactionId := t; key := Some k;
                        beforeImage := deleteBeforeImage k e;
                        afterImage := VNull |} (wal e))) e)).
Proof. reflexivity. Qed.

Lemma rollbackTransaction_unfold now t tr (e : Engine) :
  activeTransactions e !! t = Some tr ->
  rollbackTransaction now t e =
  (Returned VUndefined,
   {| wal := snd (writeLog now
                    {| operation := ROLLBACK; transactionId := t; key := None;
                       beforeImage := VUndefined; afterImage := VUndefined |}
                    (wal e));
      lockManager := table (releaseAllLocks t (lockManager e));
      files := files e;
      activeTransactions := alter (setStatus aborted) t (activeTransactions e) |}).
Proof. intros Htr. unfold rollbackTransaction. by rewrite Htr. Qed.

Lemma create_consistent (file : option (list LogLine))
    (f : gmap string FileContent) :
  consistent (create file f).
Proof. split; [apply initializeWAL_below | done]. Qed.

Lemma consistent_writeLog now req (e : Engine) txns locks f :
  consistent e ->
  (forall t tr, txns !! t = Some tr ->
     startLSN tr <= currentLSN (wal e)
     \/ exists tr', activeTransactions e !! t = Some tr'
                    /\ startLSN tr = startLSN tr') ->
  consistent {| wal := snd (writeLog now req (wal e)); lockManager := locks;
                files := f; activeTransactions := txns |}.
Proof.
  intros [Hbelow Hstart] Htxns. split; cbn [wal activeTransactions].
  - by apply writeLog_below.
  - intros t tr Htr. pose proof (writeLog_currentLSN now req (wal e)).
    destruct (Htxns t tr Htr) as [?|(tr' & Htr' & Heq)]; [lia |].
    specialize (Hstart t tr' Htr'). lia.
Qed.

Lemma alter_startLSN (g : Transaction -> Transaction)
    (txns : gmap string Transaction) t0 t tr :
  (forall x, startLSN (g x) = startLSN x) ->
  alter g t0 txns !! t = Some tr ->
  exists tr', txns !! t = Some tr' /\ startLSN tr = startLSN tr'.
Proof.
  intros Hg. destruct (decide (t0 = t)) as [->|Hne].
  - rewrite lookup_alter_eq. destruct (txns !! t) as [tr'|]; [| done].
    simpl. intros [= <-]. exists tr'. by rewrite Hg.
  - rewrite lookup_alter_ne by done. intros ->. by exists tr.
Qed.

Lemma writeBody_consistent now t tr k data (e : Engine) :
  consistent e -> consistent (snd (writeBody now t tr k data e)).
Proof.
  intros He. destruct (writeBody_runs now t tr k data e) as (m & _ & ->).
  apply (consistent_writeLog now _ e); [done |].
  intros t' tr' Htr'. right.
  by refine (alter_startLSN _ _ _ _ _ _ Htr').
Qed.

Lemma readBody_consistent t tr k (e : Engine) :
  consistent e -> consistent (snd (readBody t tr k e)).
Proof.
  intros He. unfold readBody.
  destruct (last (transactionEntries t tr k e)) as [lastEntry|].
  { by destruct (bool_decide (entryOp lastEntry = DELETE)). }
  by destruct (files e !! k) as [[|v|]|].
Qed.

Lemma deleteBody_consistent now t k (e : Engine) :
  consistent e -> consistent (snd (deleteBody now t k e)).
Proof.
  intros He. rewrite deleteBody_unfold.
  apply (consistent_writeLog now _ e); [done |].
  intros t' tr' Htr'. right.
  by refine (alter_startLSN _ _ _ _ _ _ Htr').
Qed.

Lemma run_rollback_consistent now t (e : Engine) :
  consistent e -> consistent (snd (rollbackTransaction now t e)).
Proof.
  intros He.
  destruct (activeTransactions e !! t) as [tr|] eqn:Htr;
    [| unfold rollbackTransaction; by rewrite Htr].
  rewrite (rollbackTransaction_unfold now t tr e Htr).
  apply (consistent_writeLog now _ e); [done |].
  intros t' tr' Htr'. right.
  by refine (alter_startLSN _ _ _ _ _ _ Htr').
Qed.

(** Every event takes a consistent engine to a consistent engine; with
    [create_consistent], the engines that the interface can reach are
    consistent. *)
Lemma run_consistent (now : Z) (ev : Event) (e : Engine) :
  consistent e -> consistent (snd (run now ev e)).
Proof.
  intros He.
  destruct ev as [t|t k data|t k|t k|t|t|t tr k data|t tr k|t k|k t| |];
    cbn [run].
  - rewrite beginTransaction_unfold. cbn [snd].
    apply (consistent_writeLog now _ e); [done |].
    intros t' tr' Htr'. destruct (decide (t = t')) as [->|Hne].
    + rewrite lookup_insert_eq in Htr'. injection Htr' as <-. left. simpl. lia.
    + rewrite lookup_insert_ne in Htr' by done. right. by exists tr'.
  - unfold write. destruct (activeTransactions e !! t) as [tr|]; [| done].
    destruct (bool_decide (status tr = active)); [| done].
    destruct (acquireLock k t exclusive (lockManager e)) as [[|] locks]; [| done].
    by apply writeBody_consistent.
  - unfold read. destruct (activeTransactions e !! t) as [tr|]; [| done].
    destruct (bool_decide (status tr = active)); [| done].
    destruct (acquireLock k t shared (lockManager e)) as [[|] locks]; [| done].
    by apply readBody_consistent.
  - unfold delete. destruct (activeTransactions e !! t) as [tr|]; [| done].
    destruct (bool_decide (status tr = active)); [| done].
    destruct (acquireLock k t exclusive (lockManager e)) as [[|] locks]; [| done].
    by apply deleteBody_consistent.
  - unfold commitTransaction.
    destruct (activeTransactions e !! t) as [tr|]; [| done].
    destruct (bool_decide (status tr = active)); [| done].
    destruct He as [Hbelow Hstart].
    set (req := {| operation := COMMIT; transactionId := t; key := None;
                   beforeImage := VUndefined; afterImage := VUndefined |}).
    pose proof (writeLog_currentLSN now req (wal e)) as Hlsn.
    pose proof (writeLog_below now req (wal e) Hbelow) as Hbelow1.
    destruct (writeLog now req (wal e)) as [l w1]. simpl in *.
    unfold forceFlush.
    pose proof (flushBuffer_currentLSN now w1).
    pose proof (clearCommittedTransaction_currentLSN now t (flushBuffer now w1)).
    split; simpl.
    + by apply clearCommittedTransaction_below, flushBuffer_below.
    + intros t' tr' Htr'.
      destruct (alter_startLSN (setStatus committed) _ _ _ _
                  (fun x => eq_refl) Htr') as (tr'' & Htr'' & ->).
      specialize (Hstart t' tr'' Htr''). lia.
  - by apply run_rollback_consistent.
  - by apply writeBody_consistent.
  - by apply readBody_consistent.
  - by apply deleteBody_consistent.
  - done.
  - cbn [snd]. unfold forceCheckpoint, forceFlush.
    pose proof (consistent_writeLog now checkpointRequest e
                  (activeTransactions e) (lockManager e) (files e) He) as Hlog.
    destruct Hlog as [Hbelow Hstart].
    { intros t' tr' Htr'. right. by exists tr'. }
    cbn [wal activeTransactions] in Hbelow, Hstart.
    split; cbn [wal activeTransactions setWal].
    + by apply flushBuffer_below.
    + intros t' tr' Htr'. specialize (Hstart t' tr' Htr').
      pose proof (flushBuffer_currentLSN now
                    (snd (writeLog now checkpointRequest (wal e)))). lia.
  - cbn [snd]. unfold destroy.
    assert (Hloop : forall entries e0, consistent e0 ->
              consistent (foldl (destroyStep now) e0 entries)).
    { induction entries as [|[t' tr'] rest IH]; intros e0 He0; [done |].
      cbn [foldl]. apply IH. unfold destroyStep.
      destruct (bool_decide (status tr' = active)); [| done].
      apply (run_rollback_consistent now t' e0 He0). }
    destruct (Hloop (map_to_list (activeTransactions e)) e He) as [Hbelow _].
    split; cbn [wal activeTransactions]; [| done].
    by apply flushBuffer_below.
Qed.

End WriteRead.

(** ** The engine: transactions *)

Section TransactionStatus.
Context `{!Platform}.


(** [rollbackTransaction] only checks that the transaction is known: it
    appends ROLLBACK and marks the transaction aborted whatever its status
    was. *)
Lemma rollback_ignores_status (now : Z) (transactionId : string) (e : Engine)
    (tr : Transaction) :
  activeTransactions e !! transactionId = Some tr ->
  fst (rollbackTransaction now transactionId e) = Returned VUndefined
  /\ activeTransactions (snd (rollbackTransaction now transactionId e))
       !! transactionId = Some (setStatus aborted tr).
Proof.
  intros Htr. unfold rollbackTransaction. rewrite Htr. simpl.
  split; [done |]. by rewrite lookup_alter_eq, Htr.
Qed.

End TransactionStatus.

(** C1, at the failing input: T has committed, and [rollbackTransaction]
    on T returns normally and turns the status of T from committed into
    aborted, where the specification asks for InvalidTransaction and an
    unchanged status. *)
Theorem rollback_after_commit :
  status <$> activeTransactions begunCommitted !! "T" = Some committed
  /\ fst (@rollbackTransaction samplePlatform 2 "T" begunCommitted)
     = Returned VUndefined
  /\ status <$> activeTransactions
       (snd (@rollbackTransaction samplePlatform 2 "T" begunCommitted)) !! "T"
     = Some aborted.
Proof. by vm_compute. Qed.

(** C4, at the failing input: T has written {a: 1} to k, so T reads
    {a: 1} for k; the DELETE entry that [delete] then appends carries the
    on-disk value, null, as its before-image. *)
Theorem delete_before_image_ignores_pending_write :
  fst (@read samplePlatform "T" "k" begunWritten)
    = Returned (VObject [("a", VNumber 1)])
  /\ fst (@delete samplePlatform 2 "T" "k" begunWritten) = Returned VUndefined
  /\ (fun entry => (entryOp entry, entryKey entry, entryBefore entry))
       <$> last (logBuffer (wal (snd (@delete samplePlatform 2 "T" "k" begunWritten))))
     = Some (DELETE, Some "k", VNull).
Proof. by vm_compute. Qed.


(** [read] returns [lastEntry.afterImage || {}]: k has no file and T
    writes the value 0, which is not a document; the merge is 0, and the
    read that follows returns {}. *)
Lemma read_after_write_of_falsy_patch :
  @currentData samplePlatform "T"
     {| id := "T"; startLSN := 0; operations := []; status := active |}
     "k" (begun ∅) = VNull
  /\ deepMerge VNull (VNumber 0) = Ok (VNumber 0)
  /\ deepMerge (VObject []) (VNumber 0) = Ok (VNumber 0)
  /\ fst (@write samplePlatform 1 "T" "k" (VNumber 0) (begun ∅))
     = Returned VUndefined
  /\ fst (@read samplePlatform "T" "k"
            (snd (@write samplePlatform 1 "T" "k" (VNumber 0) (begun ∅))))
     = Returned (VObject []).
Proof. by vm_compute. Qed.

(** C5, at the failing input: the file of k holds {b: 2}, which is what T
    reads for k, and the buffer of the log holds ninety-nine entries.  T
    writes the patch {a: 1} to k: the WRITE entry is the hundredth of the
    buffer, [writeLog] flushes, the log file passes the size limit and is
    rotated into an archive.  The read of T that follows finds no entry of
    T for k in the log and returns the content of the file, {b: 2}, where
    the specification asks for the merge, {b: 2, a: 1}; the commit of T
    then leaves the file as it was. *)
Theorem read_after_rotating_write :
  let patch := VObject [("a", VNumber 1)] in
  let written := snd (@write smallLogPlatform 2 "T" "k" patch bufferAlmostFull) in
  length (logBuffer (wal bufferAlmostFull)) = 99%nat
  /\ fst (@read smallLogPlatform "T" "k" bufferAlmostFull)
     = Returned (VObject [("b", VNumber 2)])
  /\ deepMerge (VObject [("b", VNumber 2)]) patch
     = Ok (VObject [("b", VNumber 2); ("a", VNumber 1)])
  /\ fst (@write smallLogPlatform 2 "T" "k" patch bufferAlmostFull)
     = Returned VUndefined
  /\ logFile (wal written) = Some []
  /\ length <$> archives (wal written) = [100%nat]
  /\ entryOp <$> logBuffer (wal written) = [CHECKPOINT]
  /\ fst (@read smallLogPlatform "T" "k" written)
     = Returned (VObject [("b", VNumber 2)])
  /\ fst (@commitTransaction smallLogPlatform 3 "T" written) = Returned VUndefined
  /\ files (snd (@commitTransaction smallLogPlatform 3 "T" written)) !! "k"
     = Some (FJson (VObject [("b", VNumber 2)])).
Proof. by vm_compute. Qed.

(** ** The scenarios of the specification *)

(** Scenario 1: sequential patches compose. *)
Example sequential_patches_compose :
  files patchedTwice !! "u"
  = Some (FJson (VObject [("a", VNumber 1); ("b", VNumber 2)])).
Proof. by vm_compute. Qed.

(** Scenario 3: a rollback leaves the key file as it was. *)
Example rollback_restores :
  let e0 := snd (@beginTransaction samplePlatform 0 "T"
                   (@create samplePlatform None
                      {[ "acct" := FJson (VObject [("balance", VNumber 1000)]) ]})) in
  let e1 := snd (@write samplePlatform 1 "T" "acct"
                   (VObject [("balance", VNumber (-1))]) e0) in
  files (snd (@rollbackTransaction samplePlatform 2 "T" e1)) !! "acct"
  = Some (FJson (VObject [("balance", VNumber 1000)])).
Proof. by vm_compute. Qed.

(** Scenario 4: a crash between WRITE and COMMIT; recovery leaves the file
    in its state before the transaction, and the next LSN is 3. *)
Example recovery_undoes_uncommitted :
  let e := @create samplePlatform (Some crashedBeforeCommit)
             {[ "acct" := FJson (VObject [("balance", VNumber 1000)]) ]} in
  files e !! "acct" = Some (FJson (VObject [("balance", VNumber 1000)]))
  /\ currentLSN (wal e) = 3.
Proof. by vm_compute. Qed.

(** Scenario 5: a crash after COMMIT and before the apply; the redo pass
    writes the after-image. *)
Example recovery_redoes_committed :
  files (@create samplePlatform (Some crashedAfterCommit) ∅) !! "acct"
  = Some (FJson (VObject [("balance", VNumber 1000)])).
Proof. by vm_compute. Qed.

(** ** The theorems at sample engines *)

Lemma begun_consistent (f : gmap string FileContent) :
  @consistent samplePlatform (begun f).
Proof.
  exact (@run_consistent samplePlatform 0 (Begin "T") _
           (@create_consistent samplePlatform None f)).
Defined.

(** T writes {a: 1} to k, which has no file, and reads it back. *)
Lemma write_then_read_witness :
  exists m,
    deepMerge (orEmpty (@currentData samplePlatform "T" transactionT "k" (begun ∅)))
              (VObject [("a", VNumber 1)]) = Ok m
    /\ fst (@write samplePlatform 1 "T" "k" (VObject [("a", VNumber 1)]) (begun ∅))
       = Returned VUndefined
    /\ fst (@read samplePlatform "T" "k"
              (snd (@write samplePlatform 1 "T" "k" (VObject [("a", VNumber 1)])
                      (begun ∅))))
       = Returned (orEmpty m).
Proof.
  apply (@write_then_read samplePlatform 1 "T" transactionT "k"
           (VObject [("a", VNumber 1)]) (begun ∅)).
  - apply begun_consistent.
  - vm_compute. reflexivity.
  - reflexivity.
  - vm_compute. exact I.
  - vm_compute. reflexivity.
Defined.


(** ** The log: what it returns and what it keeps *)

Section LogEntries.
Context `{!Platform}.

(** *** [getLogEntries] *)

Lemma insertByLsn_sorted (l : list LogEntry) e :
  sortedByLsn l -> sortedByLsn (insertByLsn e l).
Proof.
  unfold sortedByLsn. induction l as [|x rest IH]; intros Hsorted; simpl.
  - by repeat constructor.
  - apply StronglySorted_inv in Hsorted as [Hrest Hx].
    destruct (entryLsn e <=? entryLsn x) eqn:Hle.
    + apply Z.leb_le in Hle. constructor; [by constructor |].
      constructor; [done |].
      eapply Forall_impl; [exact Hx |]. simpl. intros y Hy. lia.
    + apply Z.leb_gt in Hle. constructor; [by apply IH |].
      apply Forall_forall. intros y Hy.
      apply elem_of_insertByLsn in Hy as [->|Hy]; [lia |].
      by apply (proj1 (Forall_forall _ _) Hx).
Qed.

Lemma sortByLsn_sorted (l : list LogEntry) : sortedByLsn (sortByLsn l).
Proof.
  induction l as [|x rest IH]; simpl; [constructor |].
  by apply insertByLsn_sorted.
Qed.

Lemma elem_of_filter_bool {A} (P : A -> bool) (l : list A) x :
  x ∈ List.filter P l <-> x ∈ l /\ P x = true.
Proof. rewrite !list_elem_of_In. apply filter_In. Qed.

Lemma elem_of_validEntries (lines : list LogLine) e :
  e ∈ validEntries lines <-> Parsed e ∈ lines /\ verifyChecksum e = true.
Proof.
  unfold validEntries. rewrite list_elem_of_omap. split.
  - intros (l & Hin & Hl). destruct l as [|x]; [done |].
    destruct (verifyChecksum x) eqn:Hx; [| done]. by injection Hl as ->.
  - intros [Hin Hok]. exists (Parsed e). by rewrite Hok.
Qed.

Lemma elem_of_getLogEntries fromLSN (w : WriteAheadLog.t) e :
  e ∈ getLogEntries fromLSN w
  <-> fromOk fromLSN e = true
      /\ (e ∈ logBuffer w
          \/ (Parsed e ∈ default [] (logFile w) /\ verifyChecksum e = true)).
Proof.
  unfold getLogEntries.
  rewrite elem_of_sortByLsn, elem_of_app, !elem_of_filter_bool,
    elem_of_validEntries.
  tauto.
Qed.

(** X1: [getLogEntries(fromLSN)] returns its entries in the order of their
    LSNs, and it returns exactly the entries of the buffer and the lines of
    the log file that parse and pass the checksum, restricted to the LSNs
    from [fromLSN] on (to all of them when [fromLSN] is absent or 0); a
    line that is corrupt is never returned. *)
Theorem getLogEntries_sorted_valid (fromLSN : option Z) (w : WriteAheadLog.t) :
  sortedByLsn (getLogEntries fromLSN w)
  /\ forall e,
       e ∈ getLogEntries fromLSN w
       <-> fromOk fromLSN e = true
           /\ (e ∈ logBuffer w
               \/ (Parsed e ∈ default [] (logFile w)
                   /\ verifyChecksum e = true)).
Proof.
  split; [apply sortByLsn_sorted | apply elem_of_getLogEntries].
Qed.

(** *** [writeLog] *)

(** X2: the LSNs that [writeLog] hands out grow strictly from one call to
    the next, whether or not the calls flush the buffer or rotate the
    log. *)
Theorem writeLog_lsn_increases (now1 now2 : Z) (req1 req2 : LogRequest)
    (w : WriteAheadLog.t) :
  fst (writeLog now1 req1 w)
  < fst (writeLog now2 req2 (snd (writeLog now1 req1 w))).
Proof.
  rewrite (writeLog_lsn now2), (writeLog_lsn now1).
  apply writeLog_currentLSN.
Qed.

Lemma flushBuffer_cases now (w : WriteAheadLog.t) :
  let flushed := default [] (logFile w) ++ (Parsed <$> logBuffer w) in
  flushBuffer now w = w /\ logBuffer w = []
  \/ (logBuffer w <> []
      /\ flushBuffer now w
         = {| currentLSN := currentLSN w; logBuffer := [];
              logFile := Some flushed; archives := archives w |})
  \/ (logBuffer w <> []
      /\ flushBuffer now w
         = {| currentLSN := currentLSN w + 1;
              logBuffer := [newEntry now checkpointRequest w];
              logFile := Some [];
              archives := archives w ++ [flushed] |}).
Proof.
  simpl. unfold flushBuffer.
  destruct (logBuffer w) as [|x buffer] eqn:Hbuffer; [by left |].
  right. unfold checkLogRotation. cbn [logFile default].
  destruct (exceedsSizeLimit _); [right | left]; by split.
Qed.

Lemma onDiskEntry_flushBuffer now (w : WriteAheadLog.t) e :
  e ∈ logBuffer w \/ onDiskEntry w e -> onDiskEntry (flushBuffer now w) e.
Proof.
  intros Hin.
  assert (Hflushed : e ∈ logBuffer w \/ Parsed e ∈ default [] (logFile w) ->
            Parsed e ∈ default [] (logFile w) ++ (Parsed <$> logBuffer w)).
  { intros [?|?]; apply elem_of_app; [right | by left].
    by apply list_elem_of_fmap_2. }
  destruct (flushBuffer_cases now w) as [[-> Hempty]|[[_ ->]|[_ ->]]].
  - destruct Hin as [Hin|?]; [| done]. rewrite Hempty in Hin.
    by apply elem_of_nil in Hin.
  - destruct Hin as [Hin|[Hin|(a & Ha & Hin)]].
    + left. apply Hflushed. by left.
    + left. apply Hflushed. by right.
    + right. by exists a.
  - right. cbn [archives].
    destruct Hin as [Hin|[Hin|(a & Ha & Hin)]].
    + eexists. split; [apply elem_of_app; right; apply list_elem_of_here |].
      apply Hflushed. by left.
    + eexists. split; [apply elem_of_app; right; apply list_elem_of_here |].
      apply Hflushed. by right.
    + exists a. split; [apply elem_of_app; by left | done].
Qed.

Lemma flushBuffer_buffer now (w : WriteAheadLog.t) :
  Forall (fun e => entryOp e = CHECKPOINT) (logBuffer (flushBuffer now w)).
Proof.
  destruct (flushBuffer_cases now w) as [[-> ->]|[[_ ->]|[_ ->]]];
    by repeat constructor.
Qed.

Lemma writeLog_unfold now req (w : WriteAheadLog.t) :
  writeLog now req w
  = (currentLSN w,
     if mustFlush req (snd (pushEntry now req w))
     then flushBuffer now (snd (pushEntry now req w))
     else snd (pushEntry now req w)).
Proof. reflexivity. Qed.

(** In an intact log the entries of the buffer carry JSON documents, and
    every line of the file is the line of such an entry: none is
    garbled. *)
Lemma flushBuffer_lines now (w : WriteAheadLog.t) :
  Forall (fun e => jsonEntry e = true) (logBuffer w) ->
  Forall (fun l => jsonLine l = true) (default [] (logFile w)) ->
  Forall (fun e => jsonEntry e = true) (logBuffer (flushBuffer now w))
  /\ Forall (fun l => jsonLine l = true) (default [] (logFile (flushBuffer now w))).
Proof.
  intros Hbuffer Hfile.
  destruct (flushBuffer_cases now w) as [[-> _]|[[_ ->]|[_ ->]]];
    cbn [logBuffer logFile default from_option Datatypes.id].
  - done.
  - split; [constructor |]. apply Forall_app. split; [done |].
    by apply Forall_fmap.
  - split; [by repeat constructor | constructor].
Qed.

Lemma intactLog_lines (w : WriteAheadLog.t) :
  intactLog w ->
  Forall (fun e => jsonEntry e = true) (logBuffer w)
  /\ Forall (fun l => jsonLine l = true) (default [] (logFile w)).
Proof.
  induction 1 as [w Hblank Hbuffer|now req w _ [IHbuffer IHfile] Hreq
                  |now w _ [IHbuffer IHfile]|now txn w _ [IHbuffer IHfile]].
  - rewrite Hblank. by split; [| constructor].
  - rewrite writeLog_unfold. cbn [snd].
    assert (Hpushed : Forall (fun e => jsonEntry e = true)
                        (logBuffer (snd (pushEntry now req w)))).
    { cbn [pushEntry snd logBuffer]. apply Forall_app. split; [done |].
      by repeat constructor. }
    destruct (mustFlush _ _); [by apply flushBuffer_lines | done].
  - by apply flushBuffer_lines.
  - destruct (flushBuffer_lines now w IHbuffer IHfile) as [Hbuffer Hfile].
    unfold clearCommittedTransaction.
    destruct (logFile (flushBuffer now w)) as [lines|] eqn:Hlines;
      [| by rewrite Hlines].
    destruct (existsb _ _); [| by rewrite Hlines].
    cbn [logBuffer logFile default from_option Datatypes.id] in *.
    split; [done |]. apply Forall_forall. intros l Hl.
    apply list_elem_of_In, filter_In in Hl as [Hl _].
    rewrite Forall_forall in Hfile. by apply Hfile, list_elem_of_In.
Qed.

(** X3: when [writeLog] returns from appending a COMMIT or a ROLLBACK
    entry, that entry and every entry that was in the buffer before it are
    in the log file or in an archive, and the buffer holds nothing but the
    CHECKPOINT entry of a rotation.  (The log is intact: its file ends with
    a line break, so that the flush adds whole lines to it, and the images
    of its entries and of the new one are JSON documents, so that the line
    of an entry parses back to the entry.) *)
Theorem writeLog_commit_durable (now : Z) (req : LogRequest)
    (w : WriteAheadLog.t) :
  intactLog w ->
  jsonRequest req = true ->
  operation req = COMMIT \/ operation req = ROLLBACK ->
  let w' := snd (writeLog now req w) in
  onDiskEntry w' (newEntry now req w)
  /\ (forall e, e ∈ logBuffer w -> onDiskEntry w' e)
  /\ Forall (fun e => entryOp e = CHECKPOINT) (logBuffer w').
Proof.
  intros _ _ Hop. cbv zeta. rewrite writeLog_unfold. cbn [snd].
  assert (Hflush : mustFlush req (snd (pushEntry now req w)) = true).
  { unfold mustFlush. by destruct Hop as [-> | ->]. }
  rewrite Hflush. split; [| split].
  - apply onDiskEntry_flushBuffer. left. cbn [pushEntry snd logBuffer].
    apply elem_of_app. right. apply list_elem_of_here.
  - intros e He. apply onDiskEntry_flushBuffer. left.
    cbn [pushEntry snd logBuffer]. apply elem_of_app. by left.
  - apply flushBuffer_buffer.
Qed.

Lemma logged_alt (w : WriteAheadLog.t) e :
  e ∈ logged w <-> e ∈ logBuffer w \/ onDiskEntry w e.
Proof.
  unfold logged, onDiskEntry.
  rewrite !elem_of_app, !elem_of_parsedEntries. split.
  - intros [?|[?|Hin]]; [by left | right; by left |].
    right. right. apply list_elem_of_In, in_concat in Hin as (a & Ha & Hin).
    exists a. by rewrite !list_elem_of_In.
  - intros [?|[?|(a & Ha & Hin)]]; [by left | right; by left |].
    right. right. apply list_elem_of_In, in_concat.
    exists a. by rewrite <- !list_elem_of_In.
Qed.

Lemma flushBuffer_logged now (w : WriteAheadLog.t) :
  logged w ⊆ logged (flushBuffer now w).
Proof.
  intros e He. apply logged_alt. right.
  apply onDiskEntry_flushBuffer. by apply logged_alt.
Qed.

Lemma writeLog_keeps (now : Z) (req : LogRequest) (w : WriteAheadLog.t) :
  logged w ⊆ logged (snd (writeLog now req w)).
Proof.
  intros e He. rewrite writeLog_unfold. cbn [snd].
  assert (Hpush : e ∈ logged (snd (pushEntry now req w))).
  { apply logged_alt in He. apply logged_alt. cbn [pushEntry snd].
    unfold onDiskEntry. cbn [logBuffer logFile archives].
    destruct He as [?|?]; [left; apply elem_of_app; by left | by right]. }
  destruct (mustFlush _ _); [by apply flushBuffer_logged | done].
Qed.

(** X4: [writeLog] loses no entry: whatever the log held in its buffer,
    its file or its archives it still holds afterwards, together with the
    new entry, also when the call flushes the buffer and rotates the log.
    (The log is intact: its file ends with a line break, so that a flush
    adds whole lines to it, and the images of its entries and of the new
    one are JSON documents, so that the line of an entry parses back to
    the entry.) *)
Theorem writeLog_keeps_logged (now : Z) (req : LogRequest)
    (w : WriteAheadLog.t) :
  intactLog w ->
  jsonRequest req = true ->
  newEntry now req w :: logged w ⊆ logged (snd (writeLog now req w)).
Proof.
  intros _ _ e He. apply elem_of_cons in He as [->|He].
  - apply writeLog_logged.
  - by apply writeLog_keeps.
Qed.

End LogEntries.

(** ** The log: the order of its entries *)

Section LogOrder.
Context `{!Platform}.

Lemma insertByLsn_app_l (l later : list LogEntry) e :
  (forall x, x ∈ later -> entryLsn e <= entryLsn x) ->
  insertByLsn e (l ++ later) = insertByLsn e l ++ later.
Proof.
  intros Hlater. induction l as [|x rest IH]; simpl.
  - destruct later as [|y later']; [done |]. simpl.
    by rewrite (proj2 (Z.leb_le _ _) (Hlater y (list_elem_of_here _ _))).
  - destruct (entryLsn e <=? entryLsn x); [done |]. by rewrite IH.
Qed.

Lemma sortByLsn_increasing (l : list LogEntry) :
  StronglySorted (fun a b => entryLsn a < entryLsn b) l -> sortByLsn l = l.
Proof.
  induction l as [|x rest IH]; intros Hsorted; [done |].
  apply StronglySorted_inv in Hsorted as [Hrest Hx]. simpl.
  rewrite (IH Hrest). destruct rest as [|y rest']; [done |]. simpl.
  apply Forall_cons in Hx as [Hxy _].
  by rewrite (proj2 (Z.leb_le _ _)) by lia.
Qed.

(** Sorting entries that are followed by larger entries in increasing order
    sorts the entries in front. *)
Lemma sortByLsn_app (l later : list LogEntry) :
  StronglySorted (fun a b => entryLsn a < entryLsn b) later ->
  (forall x y, x ∈ l -> y ∈ later -> entryLsn x < entryLsn y) ->
  sortByLsn (l ++ later) = sortByLsn l ++ later.
Proof.
  intros Hsorted Hbelow. induction l as [|x rest IH]; simpl.
  - by apply sortByLsn_increasing.
  - rewrite IH.
    + apply insertByLsn_app_l. intros y Hy.
      specialize (Hbelow x y (list_elem_of_here _ _) Hy). lia.
    + intros x' y Hx' Hy. apply Hbelow; [by apply list_elem_of_further | done].
Qed.

Lemma sortByLsn_app_comm (l later : list LogEntry) :
  StronglySorted (fun a b => entryLsn a < entryLsn b) later ->
  (forall x y, x ∈ l -> y ∈ later -> entryLsn x < entryLsn y) ->
  sortByLsn (later ++ l) = sortByLsn l ++ later.
Proof.
  intros Hsorted Hbelow. induction later as [|y rest IH]; simpl.
  - by rewrite app_nil_r.
  - apply StronglySorted_inv in Hsorted as [Hrest Hy].
    rewrite IH; [| done |].
    + assert (Hfront : insertByLsn y (sortByLsn l ++ rest)
                       = sortByLsn l ++ insertByLsn y rest).
      { assert (Hgen : forall front, (forall x, x ∈ front -> entryLsn x < entryLsn y) ->
                  insertByLsn y (front ++ rest) = front ++ insertByLsn y rest).
        { induction front as [|x front' IHf]; intros Hfront; [done |]. simpl.
          rewrite (proj2 (Z.leb_gt _ _))
            by (apply Hfront, list_elem_of_here).
          rewrite IHf; [done |]. intros x' Hx'.
          by apply Hfront, list_elem_of_further. }
        apply Hgen. intros x Hx. apply (proj1 (elem_of_sortByLsn _ _)) in Hx.
        apply Hbelow; [done | apply list_elem_of_here]. }
      rewrite Hfront. f_equal.
      destruct rest as [|z rest']; [done |]. simpl.
      apply Forall_cons in Hy as [Hyz _].
      by rewrite (proj2 (Z.leb_le _ _)) by lia.
    + intros x z Hx Hz. apply Hbelow; [done | by apply list_elem_of_further].
Qed.

Lemma filter_increasing (P : LogEntry -> bool) (l : list LogEntry) :
  StronglySorted (fun a b => entryLsn a < entryLsn b) l ->
  StronglySorted (fun a b => entryLsn a < entryLsn b) (List.filter P l).
Proof.
  induction l as [|x rest IH]; intros Hsorted; simpl; [constructor |].
  apply StronglySorted_inv in Hsorted as [Hrest Hx].
  destruct (P x); [| by apply IH]. constructor; [by apply IH |].
  apply Forall_forall. intros y Hy. apply elem_of_filter_bool in Hy as [Hy _].
  by apply (proj1 (Forall_forall _ _) Hx).
Qed.

Lemma validEntries_verified (l : list LogEntry) :
  Forall (fun e => verifyChecksum e = true) l ->
  validEntries (Parsed <$> l) = l.
Proof.
  induction 1 as [|x rest Hx _ IH]; [done |].
  unfold validEntries in *. simpl. rewrite Hx. f_equal. exact IH.
Qed.

(** With its entries in order, the log returns the entries of the file,
    sorted, followed by the entries of the buffer. *)
Lemma getLogEntries_ordered fromLSN (w : WriteAheadLog.t) :
  ordered w ->
  getLogEntries fromLSN w
  = sortByLsn (List.filter (fromOk fromLSN)
                 (validEntries (default [] (logFile w))))
    ++ List.filter (fromOk fromLSN) (logBuffer w).
Proof.
  intros (_ & Hsorted & Habove & _). unfold getLogEntries.
  apply sortByLsn_app_comm; [by apply filter_increasing |].
  intros x y Hx Hy. apply elem_of_filter_bool in Hx as [Hx _].
  apply elem_of_filter_bool in Hy as [Hy _]. by apply Habove.
Qed.

(** *** The order is kept *)

Lemma initializeWAL_ordered (file : option (list LogLine)) :
  ordered (initializeWAL file).
Proof.
  assert (Hbuffer : logBuffer (initializeWAL file) = []) by by destruct file.
  unfold ordered. rewrite Hbuffer.
  split; [constructor |]. split; [constructor |]. split.
  - intros f b _ Hb. by apply elem_of_nil in Hb.
  - apply initializeWAL_below.
Qed.

Lemma pushEntry_ordered now req (w : WriteAheadLog.t) :
  ordered w -> ordered (snd (pushEntry now req w)).
Proof.
  intros (Hverified & Hsorted & Habove & Hbelow).
  split; [| split; [| split]]; cbn [pushEntry snd logBuffer logFile].
  - apply Forall_app. split; [done |]. constructor; [| constructor].
    apply verifyChecksum_newEntry.
  - apply StronglySorted_app. split; [| split; [done | by repeat constructor]].
    intros x y Hx Hy. apply list_elem_of_singleton in Hy as ->.
    unfold entryLsn at 2. simpl. apply Hbelow, elem_of_app. by left.
  - intros f b Hf Hb. apply elem_of_app in Hb as [Hb|Hb]; [by apply Habove |].
    apply list_elem_of_singleton in Hb as ->.
    unfold entryLsn at 2. simpl. apply Hbelow, elem_of_app. by right.
  - by apply pushEntry_below.
Qed.

Lemma flushBuffer_ordered now (w : WriteAheadLog.t) :
  ordered w -> ordered (flushBuffer now w).
Proof.
  intros Hw. pose proof (flushBuffer_below now w (proj2 (proj2 (proj2 Hw)))) as Hbelow.
  destruct (flushBuffer_cases now w) as [[-> _]|[[_ Heq]|[_ Heq]]]; [done | |];
    rewrite Heq in *; (split; [| split; [| split; [| done]]]);
    cbn [logBuffer logFile default].
  - constructor.
  - constructor.
  - intros f b _ Hb. by apply elem_of_nil in Hb.
  - constructor; [| constructor]. apply verifyChecksum_newEntry.
  - by repeat constructor.
  - intros f b Hf. by apply elem_of_nil in Hf.
Qed.

Lemma writeLog_ordered now req (w : WriteAheadLog.t) :
  ordered w -> ordered (snd (writeLog now req w)).
Proof.
  intros Hw. rewrite writeLog_unfold. cbn [snd].
  pose proof (pushEntry_ordered now req w Hw).
  destruct (mustFlush _ _); [by apply flushBuffer_ordered | done].
Qed.

Lemma clearCommittedTransaction_ordered now txn (w : WriteAheadLog.t) :
  ordered w -> ordered (clearCommittedTransaction now txn w).
Proof.
  intros Hw.
  pose proof (clearCommittedTransaction_below now txn w (proj2 (proj2 (proj2 Hw))))
    as Hbelow.
  apply (flushBuffer_ordered now) in Hw.
  unfold clearCommittedTransaction in *.
  destruct (logFile (flushBuffer now w)) as [lines|] eqn:Hfile; [| done].
  destruct (existsb _ _); [| done].
  destruct Hw as (Hverified & Hsorted & Habove & _). rewrite Hfile in Habove.
  split; [done |]. split; [done |]. split; [| done].
  cbn [logBuffer logFile default] in *. intros f b Hf Hb.
  apply Habove; [| done]. by apply validEntries_filter in Hf.
Qed.

Lemma logSteps_ordered (w w' : WriteAheadLog.t) :
  logSteps w w' -> ordered w -> ordered w'.
Proof.
  induction 1 as [|now req w' _ IH|now w' _ IH|now txn w' _ IH]; intros Hw.
  - done.
  - by apply writeLog_ordered, IH.
  - by apply flushBuffer_ordered, IH.
  - by apply clearCommittedTransaction_ordered, IH.
Qed.

(** *** Flushing *)

Lemma flushBuffer_entries now fromLSN (w : WriteAheadLog.t) :
  ordered w ->
  archives (flushBuffer now w) = archives w ->
  getLogEntries fromLSN (flushBuffer now w) = getLogEntries fromLSN w.
Proof.
  intros Hw Harchives.
  destruct (flushBuffer_cases now w) as [[-> _]|[[_ Heq]|[_ Heq]]]; [done | |].
  - rewrite (getLogEntries_ordered fromLSN w Hw).
    destruct Hw as (Hverified & Hsorted & Habove & _).
    rewrite Heq. unfold getLogEntries.
    cbn [logBuffer logFile default from_option Datatypes.id].
    rewrite validEntries_app, (validEntries_verified _ Hverified).
    rewrite List.filter_app. simpl.
    apply sortByLsn_app; [by apply filter_increasing |].
    intros x y Hx Hy. apply elem_of_filter_bool in Hx as [Hx _].
    apply elem_of_filter_bool in Hy as [Hy _]. by apply Habove.
  - rewrite Heq in Harchives. cbn [archives] in Harchives.
    apply (f_equal length) in Harchives. rewrite length_app in Harchives.
    simpl in Harchives. lia.
Qed.

(** X5: flushing the buffer to the log file does not change what
    [getLogEntries] returns, as long as the flush does not rotate the log:
    the entries that were read from the buffer are read from the file, in
    the same order.  (The log is intact: its file ends with a line break,
    so that the flush adds whole lines to it, and the images of its
    entries are JSON documents, so that the line of an entry parses back
    to the entry.) *)
Theorem forceFlush_keeps_entries (now : Z) (fromLSN : option Z)
    (w : WriteAheadLog.t) :
  intactLog w ->
  ordered w ->
  archives (forceFlush now w) = archives w ->
  getLogEntries fromLSN (forceFlush now w) = getLogEntries fromLSN w.
Proof. intros _. apply flushBuffer_entries. Qed.

(** *** [clearCommittedTransaction] *)

Lemma keepLine_true txn e :
  keepLine txn (Parsed e) = true <-> entryTxn e <> txn \/ entryOp e = COMMIT.
Proof.
  simpl. rewrite orb_true_iff, negb_true_iff, bool_decide_eq_true.
  destruct (String.eqb_spec (entryTxn e) txn); split; try tauto.
  intros [?|?]; [done | by right].
Qed.

(** X6: [clearCommittedTransaction(t)] first flushes the buffer; of the
    entries that [getLogEntries] returned after that flush it removes none
    of another transaction and no COMMIT entry, and it adds none; and when
    the log file holds a COMMIT line of [t], no other line of [t] is left in
    the file. *)
Theorem clearCommittedTransaction_trims (now : Z) (txn : string)
    (fromLSN : option Z) (w : WriteAheadLog.t) :
  let flushed := flushBuffer now w in
  let cleared := clearCommittedTransaction now txn w in
  (forall e, e ∈ getLogEntries fromLSN cleared ->
             e ∈ getLogEntries fromLSN flushed)
  /\ (forall e, e ∈ getLogEntries fromLSN flushed ->
                entryTxn e <> txn \/ entryOp e = COMMIT ->
                e ∈ getLogEntries fromLSN cleared)
  /\ (existsb (isCommitOf txn) (default [] (logFile flushed)) = true ->
      forall e, Parsed e ∈ default [] (logFile cleared) ->
                entryTxn e = txn -> entryOp e = COMMIT).
Proof.
  cbv zeta. unfold clearCommittedTransaction.
  destruct (logFile (flushBuffer now w)) as [lines|] eqn:Hfile.
  - destruct (existsb (isCommitOf txn) lines) eqn:Hcommit.
    + split; [| split].
      * intros e. rewrite !elem_of_getLogEntries. rewrite Hfile.
        cbn [logBuffer logFile default].
        intros [Hfrom [Hin|[Hin Hok]]]; (split; [done |]); [by left |].
        right. split; [| done]. by apply elem_of_filter_bool in Hin as [Hin _].
      * intros e. rewrite !elem_of_getLogEntries. rewrite Hfile.
        cbn [logBuffer logFile default].
        intros [Hfrom [Hin|[Hin Hok]]] Hkeep; (split; [done |]); [by left |].
        right. split; [| done]. apply elem_of_filter_bool. split; [done |].
        by apply keepLine_true.
      * intros _ e. cbn [logFile default]. intros Hin Htxn.
        apply elem_of_filter_bool in Hin as [_ Hkeep].
        apply keepLine_true in Hkeep as [?|?]; done.
    + rewrite Hfile. split; [done |]. split; [done |].
      simpl. by rewrite Hcommit.
  - rewrite Hfile. split; [done |]. split; done.
Qed.

End LogOrder.

(** ** The lock table: its invariant *)

Section LockTableInvariant.

Lemma gset_nonempty (X : gset string) x : x ∈ X -> X <> ∅.
Proof. intros Hin ->. by apply not_elem_of_empty in Hin. Qed.

Lemma locksOk_insert (locks : LockTable) key lockInfo :
  locksOk locks -> lockOk lockInfo -> locksOk (<[key := lockInfo]> locks).
Proof.
  intros Hlocks Hli k l. destruct (decide (key = k)) as [->|Hne].
  - rewrite lookup_insert_eq. by intros [= <-].
  - rewrite lookup_insert_ne by done. apply Hlocks.
Qed.

Lemma locksOk_delete (locks : LockTable) key :
  locksOk locks -> locksOk (base.delete key locks).
Proof.
  intros Hlocks k l. destruct (decide (key = k)) as [->|Hne].
  - by rewrite lookup_delete_eq.
  - rewrite lookup_delete_ne by done. apply Hlocks.
Qed.

Lemma lockOk_single lockType t queue :
  lockOk {| type := lockType; holders := {[t]}; waitQueue := queue |}.
Proof.
  split; simpl.
  - apply (gset_nonempty _ t). by apply elem_of_singleton.
  - intros _. by exists t.
Qed.

Lemma acquireLock_ok key t lockType (locks : LockTable) :
  locksOk locks -> locksOk (snd (acquireLock key t lockType locks)).
Proof.
  intros Hlocks. unfold acquireLock.
  destruct (locks !! key) as [li|] eqn:Hkey; cbn [snd].
  - pose proof (Hlocks key li Hkey) as [Hnonempty Hexclusive].
    destruct (canGrantLock li lockType t).
    + destruct (bool_decide (lockType = shared) && bool_decide (type li = shared))
        eqn:Hmode; cbn [snd].
      * apply locksOk_insert; [done |]. split; cbn [holders type].
        -- apply (gset_nonempty _ t). apply elem_of_union. right.
           by apply elem_of_singleton.
        -- apply andb_true_iff in Hmode as [_ Hshared].
           apply bool_decide_eq_true in Hshared. by rewrite Hshared.
      * apply locksOk_insert; [done | apply lockOk_single].
    + cbn [snd]. apply locksOk_insert; [done |]. by split.
  - apply locksOk_insert; [done | apply lockOk_single].
Qed.

Lemma sharedPrefix_spec (queue : list Request) :
  queue = (sharedPrefix queue).1 ++ (sharedPrefix queue).2
  /\ Forall (fun r => requested r = shared) (sharedPrefix queue).1
  /\ (forall r, head (sharedPrefix queue).2 = Some r -> requested r = exclusive).
Proof.
  induction queue as [|r rest (IH1 & IH2 & IH3)]; simpl.
  - split; [done |]. split; [constructor | done].
  - destruct (requested r) eqn:Hr.
    + destruct (sharedPrefix rest) as [granted remaining]. simpl in *.
      split; [by f_equal |]. split; [by constructor | done].
    + simpl. split; [done |]. split; [constructor |]. by intros r' [= <-].
Qed.

Lemma processWaitQueue_ok (lockInfo : LockInfo) :
  holders lockInfo = ∅ -> waitQueue lockInfo <> [] ->
  lockOk (fst (processWaitQueue lockInfo)).
Proof.
  intros Hempty Hqueue. unfold processWaitQueue.
  destruct (waitQueue lockInfo) as [|first rest] eqn:Hq; [done |].
  destruct (requested first) eqn:Hfirst.
  - simpl. rewrite Hfirst. destruct (sharedPrefix rest) as [granted remaining].
    split; simpl; [| done].
    apply (gset_nonempty _ (requester first)). apply elem_of_union. right.
    apply elem_of_union. left. by apply elem_of_singleton.
  - split; simpl.
    + apply (gset_nonempty _ (requester first)). apply elem_of_union. right.
      by apply elem_of_singleton.
    + intros _. exists (requester first). rewrite Hempty.
      apply (left_id_L ∅ (∪)).
Qed.

Lemma releaseLock_ok key t (locks : LockTable) :
  locksOk locks -> locksOk (fst (releaseLock key t locks)).
Proof.
  intros Hlocks. unfold releaseLock.
  destruct (locks !! key) as [li|] eqn:Hkey; [| done].
  destruct (bool_decide (t ∈ holders li)) eqn:Hin; [| done].
  apply bool_decide_eq_true in Hin.
  destruct (Hlocks key li Hkey) as [_ Hexclusive].
  set (released := {| type := type li; holders := holders li ∖ {[t]};
                      waitQueue := waitQueue li |}).
  destruct (decide (holders released = ∅)) as [Hempty|Hnonempty].
  - rewrite (bool_decide_eq_true_2 _ Hempty).
    destruct (decide (waitQueue released = [])) as [Hq|Hq].
    + rewrite (bool_decide_eq_true_2 _ Hq). cbn [negb andb].
      rewrite (bool_decide_eq_true_2 _ Hempty), (bool_decide_eq_true_2 _ Hq).
      cbn [andb fst]. by apply locksOk_delete.
    + rewrite (bool_decide_eq_false_2 _ Hq). cbn [negb andb].
      pose proof (processWaitQueue_ok released Hempty Hq) as Hok.
      destruct (processWaitQueue released) as [li' res]. cbn [fst] in Hok.
      destruct (bool_decide (holders li' = ∅) && bool_decide (waitQueue li' = []));
        cbn [fst]; [by apply locksOk_delete | by apply locksOk_insert].
  - rewrite (bool_decide_eq_false_2 _ Hnonempty). cbn [andb].
    rewrite (bool_decide_eq_false_2 _ Hnonempty). cbn [andb fst].
    apply locksOk_insert; [done |]. split; [done |].
    intros Htype. destruct (Hexclusive Htype) as [x Hx]. exfalso.
    apply Hnonempty. subst released. cbn [holders]. rewrite Hx in *.
    apply elem_of_singleton in Hin as ->. apply difference_diag_L.
Qed.

Lemma removeLockRequest_ok key t (locks : LockTable) :
  locksOk locks -> locksOk (removeLockRequest key t locks).
Proof.
  intros Hlocks. unfold removeLockRequest.
  destruct (locks !! key) as [li|] eqn:Hkey; [| done].
  apply locksOk_insert; [done |]. apply (Hlocks key li Hkey).
Qed.

Lemma releaseAllStep_ok t (acc : Released) (entry : string * LockInfo) :
  locksOk (table acc) -> locksOk (table (releaseAllStep t acc entry)).
Proof.
  intros Hacc. destruct entry as [key lockInfo]. unfold releaseAllStep.
  assert (Hreleased : locksOk
            (fst (if bool_decide (t ∈ holders lockInfo)
                  then releaseLock key t (table acc) else (table acc, [])))).
  { destruct (bool_decide (t ∈ holders lockInfo)); [| done].
    by apply releaseLock_ok. }
  destruct (if bool_decide (t ∈ holders lockInfo)
            then releaseLock key t (table acc) else (table acc, []))
    as [locks1 res]. cbn [fst] in Hreleased.
  destruct (locks1 !! key) as [li|] eqn:Hkey; cbn [table]; [| done].
  apply locksOk_insert; [done |]. apply (Hreleased key li Hkey).
Qed.

Lemma releaseAllLocks_ok t (locks : LockTable) :
  locksOk locks -> locksOk (table (releaseAllLocks t locks)).
Proof.
  intros Hlocks. unfold releaseAllLocks.
  assert (Hgen : forall entries acc,
            locksOk (table acc) ->
            locksOk (table (foldl (releaseAllStep t) acc entries))).
  { induction entries as [|entry rest IH]; intros acc Hacc; simpl; [done |].
    apply IH. by apply releaseAllStep_ok. }
  by apply Hgen.
Qed.

End LockTableInvariant.

Section EngineLocks.
Context `{!Platform}.

Lemma readBody_locksOk t tr k (e : Engine) :
  locksOk (lockManager e) -> locksOk (lockManager (snd (readBody t tr k e))).
Proof.
  intros He. unfold readBody.
  destruct (last (transactionEntries t tr k e)) as [lastEntry|].
  { by destruct (bool_decide (entryOp lastEntry = DELETE)). }
  destruct (files e !! k) as [[|v|]|]; try done.
  cbn [snd lockManager setLocks]. by apply releaseLock_ok.
Qed.

Lemma rollbackTransaction_locksOk now t (e : Engine) :
  locksOk (lockManager e) ->
  locksOk (lockManager (snd (rollbackTransaction now t e))).
Proof.
  intros He.
  destruct (activeTransactions e !! t) as [tr|] eqn:Htr;
    [| unfold rollbackTransaction; by rewrite Htr].
  rewrite (rollbackTransaction_unfold now t tr e Htr). cbn [snd lockManager].
  by apply releaseAllLocks_ok.
Qed.

Lemma run_locksOk (now : Z) (ev : Event) (e : Engine) :
  locksOk (lockManager e) -> locksOk (lockManager (snd (run now ev e))).
Proof.
  intros He.
  destruct ev as [t|t k data|t k|t k|t|t|t tr k data|t tr k|t k|k t| |];
    cbn [run].
  - by rewrite beginTransaction_unfold.
  - unfold write. destruct (activeTransactions e !! t) as [tr|]; [| done].
    destruct (bool_decide (status tr = active)); [| done].
    pose proof (acquireLock_ok k t exclusive (lockManager e) He) as Hacquired.
    destruct (acquireLock k t exclusive (lockManager e)) as [[|] locks];
      [| done].
    by rewrite writeBody_locks.
  - unfold read. destruct (activeTransactions e !! t) as [tr|]; [| done].
    destruct (bool_decide (status tr = active)); [| done].
    pose proof (acquireLock_ok k t shared (lockManager e) He) as Hacquired.
    destruct (acquireLock k t shared (lockManager e)) as [[|] locks];
      [| done].
    by apply readBody_locksOk.
  - unfold delete. destruct (activeTransactions e !! t) as [tr|]; [| done].
    destruct (bool_decide (status tr = active)); [| done].
    pose proof (acquireLock_ok k t exclusive (lockManager e) He) as Hacquired.
    destruct (acquireLock k t exclusive (lockManager e)) as [[|] locks];
      [| done].
    by rewrite deleteBody_locks.
  - unfold commitTransaction.
    destruct (activeTransactions e !! t) as [tr|]; [| done].
    destruct (bool_decide (status tr = active)); [| done].
    cbn [snd lockManager]. by apply releaseAllLocks_ok.
  - by apply rollbackTransaction_locksOk.
  - by rewrite writeBody_locks.
  - by apply readBody_locksOk.
  - by rewrite deleteBody_locks.
  - cbn [snd lockManager setLocks]. by apply removeLockRequest_ok.
  - done.
  - cbn [snd]. unfold destroy. cbn [lockManager].
    assert (Hloop : forall entries e0, locksOk (lockManager e0) ->
              locksOk (lockManager (foldl (destroyStep now) e0 entries))).
    { induction entries as [|[t' tr'] rest IH]; intros e0 He0; [done |].
      cbn [foldl]. apply IH. unfold destroyStep.
      destruct (bool_decide (status tr' = active)); [| done].
      by apply rollbackTransaction_locksOk. }
    by apply Hloop.
Qed.

(** X7: in every engine that the interface can reach, each lock object of
    the lock table has at least one holder, and an exclusive lock has
    exactly one: two transactions never hold an exclusive lock on the same
    key together, and no request waits for a lock that nobody holds. *)
Theorem exclusive_lock_has_one_holder (e : Engine) (key : string)
    (lockInfo : LockInfo) :
  reachable e ->
  lockManager e !! key = Some lockInfo ->
  holders lockInfo <> ∅
  /\ (type lockInfo = exclusive -> exists t, holders lockInfo = {[t]}).
Proof.
  intros Hreach. revert key lockInfo.
  change (locksOk (lockManager e)).
  induction Hreach as [file f|now ev e _ IH]; [done |].
  by apply run_locksOk.
Qed.

End EngineLocks.

(** ** The lock table: the wait queues *)

Section WaitQueues.

(** X8: when the only holder of a lock releases it while requests wait,
    the lock goes to the head of the queue: to the first request alone when
    it is exclusive, and to the first request together with all the shared
    requests that follow it directly when it is shared.  The requests served
    are resolved in the order of the queue, the others keep their order,
    and the lock takes the mode of the first request. *)
Theorem releaseLock_hands_over (key t : string) (locks : LockTable)
    (lockInfo : LockInfo) (first : Request) (rest : list Request) :
  locks !! key = Some lockInfo ->
  holders lockInfo = {[t]} ->
  waitQueue lockInfo = first :: rest ->
  exists more remaining,
    rest = more ++ remaining
    /\ releaseLock key t locks
       = (<[key := {| type := requested first;
                      holders := list_to_set (requester <$> first :: more);
                      waitQueue := remaining |}]> locks,
          first :: more)
    /\ match requested first with
       | exclusive => more = []
       | shared =>
           Forall (fun r => requested r = shared) more
           /\ forall r, head remaining = Some r -> requested r = exclusive
       end.
Proof.
  intros Hkey Hholders Hqueue.
  assert (Hin : t ∈ holders lockInfo)
    by (rewrite Hholders; by apply elem_of_singleton).
  assert (Hempty : holders lockInfo ∖ {[t]} = ∅)
    by (rewrite Hholders; apply difference_diag_L).
  assert (Hnonempty : forall (X : gset string),
            bool_decide (X ∪ {[requester first]} = ∅) = false).
  { intros X. apply bool_decide_eq_false_2, (gset_nonempty _ (requester first)).
    apply elem_of_union. right. by apply elem_of_singleton. }
  unfold releaseLock. rewrite Hkey, (bool_decide_eq_true_2 _ Hin).
  cbn [holders waitQueue]. rewrite Hempty, Hqueue.
  rewrite (bool_decide_eq_true_2 (∅ = ∅) eq_refl).
  rewrite (bool_decide_eq_false_2 (first :: rest = [])) by done.
  cbn [negb andb]. unfold processWaitQueue. cbn [waitQueue holders].
  destruct (requested first) eqn:Hfirst.
  - pose proof (sharedPrefix_spec rest) as (Hsplit & Hshared & Hhead).
    cbn [sharedPrefix]. rewrite Hfirst.
    destruct (sharedPrefix rest) as [more remaining]. cbn [fst snd] in *.
    exists more, remaining. split; [done |]. split; [| done].
    cbn [holders waitQueue fmap list_fmap list_to_set].
    rewrite (left_id_L ∅ (∪)).
    rewrite (bool_decide_eq_false_2 ({[requester first]} ∪ _ = ∅)).
    + done.
    + apply (gset_nonempty _ (requester first)). apply elem_of_union. left.
      by apply elem_of_singleton.
  - exists [], rest. split; [done |]. split; [| done].
    cbn [holders waitQueue fmap list_fmap list_to_set].
    rewrite Hnonempty. cbn [andb].
    by rewrite (left_id_L ∅ (∪)), (right_id_L ∅ (∪)).
Qed.

(** *** [releaseAllLocks] *)

Lemma releaseLock_frame key t (locks : LockTable) k :
  k <> key -> fst (releaseLock key t locks) !! k = locks !! k.
Proof.
  intros Hne. unfold releaseLock.
  destruct (locks !! key) as [li|]; [| done].
  destruct (bool_decide (t ∈ holders li)); [| done].
  match goal with
  | |- context [let '(_, _) := ?x in _] => destruct x as [l r]
  end.
  destruct (bool_decide (holders l = ∅) && bool_decide (waitQueue l = []));
    cbn [fst].
  - by rewrite lookup_delete_ne.
  - by rewrite lookup_insert_ne.
Qed.

Lemma releaseLock_local key t (locks locks' : LockTable) :
  locks !! key = locks' !! key ->
  fst (releaseLock key t locks) !! key = fst (releaseLock key t locks') !! key.
Proof.
  intros Hsame. unfold releaseLock. rewrite <- Hsame.
  destruct (locks !! key) as [li|] eqn:Hkey; [| cbn [fst]; congruence].
  destruct (bool_decide (t ∈ holders li)); [| cbn [fst]; congruence].
  match goal with
  | |- context [let '(_, _) := ?x in _] => destruct x as [l r]
  end.
  destruct (bool_decide (holders l = ∅) && bool_decide (waitQueue l = []));
    cbn [fst].
  - by rewrite !lookup_delete_eq.
  - by rewrite !lookup_insert_eq.
Qed.

Lemma releaseAllStep_frame t (acc : Released) key lockInfo k :
  k <> key -> table (releaseAllStep t acc (key, lockInfo)) !! k = table acc !! k.
Proof.
  intros Hne. unfold releaseAllStep.
  assert (Hreleased :
            fst (if bool_decide (t ∈ holders lockInfo)
                 then releaseLock key t (table acc) else (table acc, [])) !! k
            = table acc !! k).
  { destruct (bool_decide (t ∈ holders lockInfo)); [| done].
    by apply releaseLock_frame. }
  destruct (if bool_decide (t ∈ holders lockInfo)
            then releaseLock key t (table acc) else (table acc, []))
    as [locks1 res]. cbn [fst] in Hreleased.
  destruct (locks1 !! key) as [li|]; cbn [table]; [| done].
  by rewrite lookup_insert_ne.
Qed.

Lemma releaseAllStep_local t (acc acc' : Released) key lockInfo :
  table acc !! key = table acc' !! key ->
  table (releaseAllStep t acc (key, lockInfo)) !! key
  = table (releaseAllStep t acc' (key, lockInfo)) !! key.
Proof.
  intros Hsame. unfold releaseAllStep.
  assert (Hreleased :
            fst (if bool_decide (t ∈ holders lockInfo)
                 then releaseLock key t (table acc) else (table acc, [])) !! key
            = fst (if bool_decide (t ∈ holders lockInfo)
                   then releaseLock key t (table acc') else (table acc', [])) !! key).
  { destruct (bool_decide (t ∈ holders lockInfo)); [| done].
    by apply releaseLock_local. }
  destruct (if bool_decide (t ∈ holders lockInfo)
            then releaseLock key t (table acc) else (table acc, []))
    as [locks1 res].
  destruct (if bool_decide (t ∈ holders lockInfo)
            then releaseLock key t (table acc') else (table acc', []))
    as [locks1' res']. cbn [fst] in Hreleased. rewrite <- Hreleased.
  destruct (locks1 !! key) as [li|] eqn:Hkey; cbn [table].
  - by rewrite !lookup_insert_eq.
  - by rewrite Hkey.
Qed.

Lemma releaseAll_untouched t (entries : list (string * LockInfo)) :
  forall acc key,
    key ∉ entries.*1 ->
    table (foldl (releaseAllStep t) acc entries) !! key = table acc !! key.
Proof.
  induction entries as [|[k li] rest IH]; intros acc key Hnotin; [done |].
  cbn [foldl]. apply not_elem_of_cons in Hnotin as [Hne Hnotin].
  rewrite IH by done. by apply releaseAllStep_frame.
Qed.

Lemma releaseAll_at t (entries : list (string * LockInfo)) :
  forall acc key lockInfo,
    NoDup entries.*1 ->
    (key, lockInfo) ∈ entries ->
    table (foldl (releaseAllStep t) acc entries) !! key
    = table (releaseAllStep t acc (key, lockInfo)) !! key.
Proof.
  induction entries as [|[k li] rest IH]; intros acc key lockInfo Hnodup Hin.
  { by apply elem_of_nil in Hin. }
  cbn [foldl]. cbn [fmap list_fmap fst] in Hnodup.
  apply NoDup_cons in Hnodup as [Hk Hnodup].
  apply elem_of_cons in Hin as [[= -> ->]|Hin].
  - by apply releaseAll_untouched.
  - assert (Hne : key <> k).
    { intros ->. apply Hk. by apply (list_elem_of_fmap_2 fst _ (k, lockInfo)). }
    rewrite (IH _ key lockInfo Hnodup Hin).
    apply releaseAllStep_local. by apply releaseAllStep_frame.
Qed.

(** The lock of each key is released on its own. *)
Lemma releaseAllLocks_lookup t (locks : LockTable) key :
  table (releaseAllLocks t locks) !! key
  = match locks !! key with
    | Some lockInfo =>
        table (releaseAllStep t {| table := locks; resolved := []; rejected := [] |}
                 (key, lockInfo)) !! key
    | None => None
    end.
Proof.
  unfold releaseAllLocks. destruct (locks !! key) as [lockInfo|] eqn:Hkey.
  - apply releaseAll_at; [apply NoDup_fst_map_to_list |].
    by apply elem_of_map_to_list.
  - rewrite releaseAll_untouched; [done |].
    intros Hin. apply list_elem_of_fmap in Hin as ([k li] & -> & Hin).
    apply elem_of_map_to_list in Hin. simpl in Hkey. congruence.
Qed.

Lemma processWaitQueue_holder (lockInfo : LockInfo) t :
  t ∈ holders (fst (processWaitQueue lockInfo)) ->
  t ∈ holders lockInfo \/ t ∈ requester <$> waitQueue lockInfo.
Proof.
  unfold processWaitQueue.
  destruct (waitQueue lockInfo) as [|first rest] eqn:Hq; [by left |].
  destruct (requested first) eqn:Hfirst.
  - pose proof (sharedPrefix_spec (first :: rest)) as (Hsplit & _ & _).
    destruct (sharedPrefix (first :: rest)) as [granted remaining].
    cbn [fst snd holders] in *. rewrite elem_of_union, elem_of_list_to_set.
    intros [?|Hin]; [by left | right]. rewrite Hsplit, fmap_app.
    apply elem_of_app. by left.
  - cbn [fst holders]. rewrite elem_of_union, elem_of_singleton.
    intros [? | ->]; [by left | right]. apply list_elem_of_here.
Qed.

Lemma processWaitQueue_queue (lockInfo : LockInfo) r :
  r ∈ waitQueue (fst (processWaitQueue lockInfo)) -> r ∈ waitQueue lockInfo.
Proof.
  unfold processWaitQueue.
  destruct (waitQueue lockInfo) as [|first rest] eqn:Hq;
    [cbn [fst]; by rewrite Hq |].
  destruct (requested first) eqn:Hfirst.
  - pose proof (sharedPrefix_spec (first :: rest)) as (Hsplit & _ & _).
    destruct (sharedPrefix (first :: rest)) as [granted remaining].
    cbn [fst snd waitQueue] in *. intros Hin. rewrite Hsplit.
    apply elem_of_app. by right.
  - cbn [fst waitQueue]. intros Hin. by apply list_elem_of_further.
Qed.

(** What [releaseLock] leaves of the lock of its key. *)
Lemma releaseLock_at key t (locks : LockTable) lockInfo lockInfo' :
  locks !! key = Some lockInfo ->
  t ∈ holders lockInfo ->
  fst (releaseLock key t locks) !! key = Some lockInfo' ->
  (forall x, x ∈ holders lockInfo' ->
             (x ∈ holders lockInfo /\ x <> t)
             \/ x ∈ requester <$> waitQueue lockInfo)
  /\ (forall r, r ∈ waitQueue lockInfo' -> r ∈ waitQueue lockInfo).
Proof.
  intros Hkey Hin. unfold releaseLock.
  rewrite Hkey, (bool_decide_eq_true_2 _ Hin).
  set (released := {| type := type lockInfo; holders := holders lockInfo ∖ {[t]};
                      waitQueue := waitQueue lockInfo |}).
  assert (Hhand :
    forall li, li = released \/ li = fst (processWaitQueue released) ->
      (forall x, x ∈ holders li ->
                 (x ∈ holders lockInfo /\ x <> t)
                 \/ x ∈ requester <$> waitQueue lockInfo)
      /\ (forall r, r ∈ waitQueue li -> r ∈ waitQueue lockInfo)).
  { assert (Hreleased : forall x, x ∈ holders released ->
              x ∈ holders lockInfo /\ x <> t).
    { intros x Hx. cbn [released holders] in Hx.
      apply elem_of_difference in Hx as [Hx Hne]. split; [done |].
      intros ->. apply Hne. by apply elem_of_singleton. }
    intros li [-> | ->].
    - split; [| done]. intros x Hx. left. by apply Hreleased.
    - split.
      + intros x Hx. apply processWaitQueue_holder in Hx as [Hx|Hx];
          [left; by apply Hreleased | by right].
      + intros r Hr. by apply processWaitQueue_queue in Hr. }
  assert (Hcases :
    (if bool_decide (holders released = ∅)
        && negb (bool_decide (waitQueue released = []))
     then processWaitQueue released else (released, [])).1 = released
    \/ (if bool_decide (holders released = ∅)
           && negb (bool_decide (waitQueue released = []))
        then processWaitQueue released else (released, [])).1
       = fst (processWaitQueue released)).
  { destruct (bool_decide (holders released = ∅)
              && negb (bool_decide (waitQueue released = []))); [by right | by left]. }
  destruct (if bool_decide (holders released = ∅)
               && negb (bool_decide (waitQueue released = []))
            then processWaitQueue released else (released, [])) as [li res].
  cbn [fst] in Hcases.
  destruct (bool_decide (holders li = ∅) && bool_decide (waitQueue li = []));
    cbn [fst].
  - by rewrite lookup_delete_eq.
  - rewrite lookup_insert_eq. intros [= <-]. apply Hhand.
    destruct Hcases as [-> | ->]; [by left | by right].
Qed.

(** X9: [releaseAllLocks(t)] withdraws every request of [t] from the wait
    queues; it keeps every lock that another transaction holds; and when
    [t] was not waiting for any lock, [t] holds no lock afterwards. *)
Theorem releaseAllLocks_withdraws (t : string) (locks : LockTable) :
  let locks' := table (releaseAllLocks t locks) in
  (forall key, ~ waitsFor locks' key t)
  /\ (forall key other, other <> t ->
        holdsLock locks key other -> holdsLock locks' key other)
  /\ ((forall key, ~ waitsFor locks key t) ->
      forall key, ~ holdsLock locks' key t).
Proof.
  cbv zeta. split; [| split].
  - intros key. unfold waitsFor. rewrite releaseAllLocks_lookup.
    destruct (locks !! key) as [lockInfo|]; [| tauto].
    unfold releaseAllStep. cbn [table].
    destruct (if bool_decide (t ∈ holders lockInfo)
              then releaseLock key t locks else (locks, [])) as [locks1 res].
    destruct (locks1 !! key) as [li|] eqn:Hkey; cbn [table].
    + rewrite lookup_insert_eq. cbn [waitQueue].
      intros Hin. apply list_elem_of_fmap in Hin as (r & -> & Hin).
      apply elem_of_filter_bool in Hin as [_ Hr].
      unfold isRequestOf in Hr. by rewrite String.eqb_refl in Hr.
    + rewrite Hkey. tauto.
  - intros key other Hne Hholds. apply releaseAllLocks_keeps; [| done].
    intros ->. by apply Hne.
  - intros Hwaits key. unfold holdsLock. rewrite releaseAllLocks_lookup.
    destruct (locks !! key) as [lockInfo|] eqn:Hlock; [| tauto].
    specialize (Hwaits key). unfold waitsFor in Hwaits. rewrite Hlock in Hwaits.
    unfold releaseAllStep. cbn [table].
    destruct (decide (t ∈ holders lockInfo)) as [Hin|Hout].
    + rewrite (bool_decide_eq_true_2 _ Hin).
      pose proof (releaseLock_at key t locks lockInfo) as Hat.
      destruct (releaseLock key t locks) as [locks1 res]. cbn [fst] in Hat.
      destruct (locks1 !! key) as [li|] eqn:Hkey; cbn [table].
      * rewrite lookup_insert_eq. cbn [holders]. intros Hheld.
        destruct (Hat li Hlock Hin eq_refl) as [Hholders _].
        destruct (Hholders t Hheld) as [[_ ?]|?]; done.
      * rewrite Hkey. tauto.
    + rewrite (bool_decide_eq_false_2 _ Hout), Hlock. cbn [table].
      by rewrite lookup_insert_eq.
Qed.

(** *** [detectDeadlock] *)

Lemma distinct_spec (l : list string) :
  NoDup (distinct l) /\ forall x, x ∈ distinct l <-> x ∈ l.
Proof.
  unfold distinct.
  assert (Hgen : forall seen, NoDup seen ->
            NoDup (foldl (fun seen x => if bool_decide (x ∈ seen) then seen
                                        else seen ++ [x]) seen l)
            /\ forall x, x ∈ foldl (fun seen x => if bool_decide (x ∈ seen) then seen
                                                  else seen ++ [x]) seen l
                         <-> x ∈ seen \/ x ∈ l).
  { induction l as [|y rest IH]; intros seen Hseen; cbn [foldl].
    - split; [done |]. intros x. rewrite elem_of_nil. tauto.
    - destruct (decide (y ∈ seen)) as [Hin|Hout].
      + rewrite (bool_decide_eq_true_2 _ Hin).
        destruct (IH seen Hseen) as [Hnodup Hiff]. split; [done |].
        intros x. rewrite Hiff, elem_of_cons. split; [tauto |].
        intros [?|[->|?]]; tauto.
      + rewrite (bool_decide_eq_false_2 _ Hout).
        destruct (IH (seen ++ [y])) as [Hnodup Hiff].
        { apply NoDup_app. split; [done |]. split; [| apply NoDup_singleton].
          intros x Hx Hy. apply list_elem_of_singleton in Hy as ->. done. }
        split; [done |]. intros x.
        rewrite Hiff, elem_of_app, !elem_of_cons, elem_of_nil. tauto. }
  destruct (Hgen [] (NoDup_nil_2)) as [Hnodup Hiff]. split; [done |].
  intros x. rewrite Hiff, elem_of_nil. tauto.
Qed.

(** X10: [detectDeadlock] reports each transaction once, and it reports
    exactly the transactions that have a request in a wait queue of more
    than five requests; waiting transactions in shorter queues are not
    reported, whatever they wait for. *)
Theorem detectDeadlock_reports (locks : LockTable) :
  NoDup (detectDeadlock locks)
  /\ forall t,
       t ∈ detectDeadlock locks
       <-> exists key lockInfo,
             locks !! key = Some lockInfo
             /\ (5 < length (waitQueue lockInfo))%nat
             /\ t ∈ requester <$> waitQueue lockInfo.
Proof.
  unfold detectDeadlock. cbv zeta.
  set (step := fun (suspicious : list string) (entry : string * LockInfo) =>
                 if bool_decide (5 < length (waitQueue entry.2))%nat
                 then suspicious ++ (requester <$> waitQueue entry.2)
                 else suspicious).
  destruct (distinct_spec (foldl step [] (map_to_list locks))) as [Hnodup Hiff].
  split; [done |]. intros t. rewrite Hiff.
  assert (Hgen : forall entries acc,
            t ∈ foldl step acc entries
            <-> t ∈ acc
                \/ exists entry, entry ∈ entries
                     /\ (5 < length (waitQueue entry.2))%nat
                     /\ t ∈ requester <$> waitQueue entry.2).
  { induction entries as [|entry rest IH]; intros acc; cbn [foldl].
    - split; [by left |]. intros [?|(entry & Hin & _)]; [done |].
      by apply elem_of_nil in Hin.
    - rewrite IH. unfold step at 1.
      destruct (decide (5 < length (waitQueue entry.2))%nat) as [Hlong|Hshort].
      + rewrite (bool_decide_eq_true_2 _ Hlong), elem_of_app. split.
        * intros [[?|?]|(x & Hx & ?)]; [by left | |].
          -- right. exists entry. split; [apply list_elem_of_here | done].
          -- right. exists x. split; [by apply list_elem_of_further | done].
        * intros [?|(x & Hx & Hlen & Hreq)]; [left; by left |].
          apply elem_of_cons in Hx as [->|Hx]; [left; by right |].
          right. by exists x.
      + rewrite (bool_decide_eq_false_2 _ Hshort). split.
        * intros [?|(x & Hx & ?)]; [by left |].
          right. exists x. split; [by apply list_elem_of_further | done].
        * intros [?|(x & Hx & Hlen & Hreq)]; [by left |].
          apply elem_of_cons in Hx as [->|Hx]; [done |].
          right. by exists x. }
  rewrite Hgen, elem_of_nil. split.
  - intros [?|([key li] & Hin & Hlen & Hreq)]; [done |].
    apply elem_of_map_to_list in Hin. by exists key, li.
  - intros (key & li & Hkey & Hlen & Hreq). right. exists (key, li).
    split; [by apply elem_of_map_to_list | done].
Qed.

End WaitQueues.

(** ** Locks are kept until commit or rollback *)

Section LockRetained.
Context `{!Platform}.

Lemma reachable_locksOk (e : Engine) : reachable e -> locksOk (lockManager e).
Proof.
  induction 1 as [file f|now ev e _ IH]; [done |]. by apply run_locksOk.
Qed.

(** Two transactions hold a lock together only when it is shared. *)
Lemma shared_by_two (locks : LockTable) K T t lockInfo :
  locksOk locks -> locks !! K = Some lockInfo ->
  holdsLock locks K T -> holdsLock locks K t -> t <> T ->
  type lockInfo = shared.
Proof.
  intros Hok HK HT Ht Hne. unfold holdsLock in HT, Ht. rewrite HK in HT, Ht.
  destruct (type lockInfo) eqn:Htype; [done |].
  destruct (Hok K lockInfo HK) as [_ Hone].
  destruct (Hone Htype) as [x Hx]. rewrite Hx in HT, Ht.
  apply elem_of_singleton in HT, Ht. congruence.
Qed.

(** C2 (as amended): in an engine that the interface can reach, a
    transaction T that holds the lock of a key K still holds it after
    every event other than its own commit or rollback, with two exceptions
    that the code makes on purpose: a write, read or delete of T on K that
    fails after the lock was acquired releases the hold of T on K; and a
    write or delete on K by another active transaction that holds the lock
    of K as well is granted the lock at once and leaves that transaction
    as the only holder. *)
Theorem lock_retained (now : Z) (ev : Event) (e : Engine) (K T : string) :
  reachable e ->
  holdsLock (lockManager e) K T ->
  ~ finishes T ev ->
  ~ (operatesOn T K ev /\ failedHoldingLock (fst (run now ev e))) ->
  ~ regrantsToOther e T K ev ->
  holdsLock (lockManager (snd (run now ev e))) K T.
Proof.
  intros Hreach Hholds Hfinish Hfail Hregrant.
  apply reachable_locksOk in Hreach.
  destruct ev as [t|t k data|t k|t k|t|t|t tr k data|t tr k|t k|k t| |];
    simpl in *.
  - done.
  - unfold write.
    destruct (activeTransactions e !! t) as [tr|] eqn:Htr; [| done].
    destruct (bool_decide (status tr = active)) eqn:Hactive; [| done].
    apply bool_decide_eq_true in Hactive.
    assert (Hkeep : holdsLock (snd (acquireLock k t exclusive (lockManager e))) K T).
    { apply acquireLock_keeps; [done |].
      destruct (decide (k = K)) as [->|?]; [| by left].
      destruct (decide (t = T)) as [->|?]; [by right; left |].
      destruct (holdsLock_dec (lockManager e) K t); [| by right; right; left].
      destruct Hregrant. repeat split; [done | done |]. by exists tr. }
    destruct (acquireLock k t exclusive (lockManager e)) as [[|] locks]; [| done].
    by rewrite writeBody_locks.
  - unfold read in *.
    destruct (activeTransactions e !! t) as [tr|]; [| done].
    destruct (bool_decide (status tr = active)); [| done].
    assert (Hkeep : holdsLock (snd (acquireLock k t shared (lockManager e))) K T).
    { apply acquireLock_keeps; [done |].
      destruct (decide (k = K)) as [->|?]; [| by left].
      destruct (decide (t = T)) as [->|?]; [by right; left |].
      destruct (holdsLock_dec (lockManager e) K t) as [Ht|?]; [| by right; right; left].
      right; right; right. split; [done |]. intros lockInfo HK.
      by apply (shared_by_two (lockManager e) K T t). }
    destruct (acquireLock k t shared (lockManager e)) as [[|] locks]; [| done].
    by apply readBody_keeps.
  - unfold delete.
    destruct (activeTransactions e !! t) as [tr|] eqn:Htr; [| done].
    destruct (bool_decide (status tr = active)) eqn:Hactive; [| done].
    apply bool_decide_eq_true in Hactive.
    assert (Hkeep : holdsLock (snd (acquireLock k t exclusive (lockManager e))) K T).
    { apply acquireLock_keeps; [done |].
      destruct (decide (k = K)) as [->|?]; [| by left].
      destruct (decide (t = T)) as [->|?]; [by right; left |].
      destruct (holdsLock_dec (lockManager e) K t); [| by right; right; left].
      destruct Hregrant. repeat split; [done | done |]. by exists tr. }
    destruct (acquireLock k t exclusive (lockManager e)) as [[|] locks]; [| done].
    by rewrite deleteBody_locks.
  - assert (t <> T) by (intros ->; apply Hfinish; by left).
    unfold commitTransaction.
    destruct (activeTransactions e !! t) as [tr|]; [| done].
    destruct (bool_decide (status tr = active)); [| done].
    simpl. by apply releaseAllLocks_keeps.
  - assert (t <> T) by (intros ->; apply Hfinish; right; by left).
    unfold rollbackTransaction.
    destruct (activeTransactions e !! t) as [tr|]; [| done].
    simpl. by apply releaseAllLocks_keeps.
  - by rewrite writeBody_locks.
  - by apply readBody_keeps.
  - done.
  - by apply removeLockRequest_keeps.
  - done.
  - destruct Hfinish. right; by right.
Qed.

(** The exclusive request of a holder is granted, and leaves it as the
    only holder. *)
Lemma acquireLock_exclusive_holder (locks : LockTable) K t :
  holdsLock locks K t ->
  exists lockInfo,
    locks !! K = Some lockInfo
    /\ acquireLock K t exclusive locks
       = (Granted, <[K := {| type := exclusive; holders := {[t]};
                             waitQueue := waitQueue lockInfo |}]> locks).
Proof.
  intros Hholds. apply holdsLock_lookup in Hholds as (lockInfo & HK & Hin).
  exists lockInfo. split; [done |]. unfold acquireLock, canGrantLock.
  by rewrite HK, (bool_decide_eq_true_2 _ Hin).
Qed.

(** The second exception is exact: a write or a delete on K by another
    active transaction that holds the lock of K always ends the hold of T
    on K. *)
Lemma regrant_evicts (now : Z) (ev : Event) (e : Engine) (K T : string) :
  regrantsToOther e T K ev ->
  ~ holdsLock (lockManager (snd (run now ev e))) K T.
Proof.
  destruct ev as [t|t k data|t k|t k|t|t|t tr k data|t tr k|t k|k t| |];
    try done; simpl.
  - intros (Hne & -> & Hholds & tr & Htr & Hactive).
    unfold write. rewrite Htr, (bool_decide_eq_true_2 _ Hactive).
    destruct (acquireLock_exclusive_holder _ _ _ Hholds) as (lockInfo & _ & ->).
    rewrite writeBody_locks. cbn [lockManager setLocks].
    rewrite holdsLock_insert_eq. cbn [holders]. intros Hin.
    apply elem_of_singleton in Hin. congruence.
  - intros (Hne & -> & Hholds & tr & Htr & Hactive).
    unfold delete. rewrite Htr, (bool_decide_eq_true_2 _ Hactive).
    destruct (acquireLock_exclusive_holder _ _ _ Hholds) as (lockInfo & _ & ->).
    rewrite deleteBody_locks. cbn [lockManager setLocks].
    rewrite holdsLock_insert_eq. cbn [holders]. intros Hin.
    apply elem_of_singleton in Hin. congruence.
Qed.

End LockRetained.

Lemma begunWritten_reachable : @reachable samplePlatform begunWritten.
Proof.
  exact (@reachable_run samplePlatform 1
           (Write "T" "k" (VObject [("a", VNumber 1)])) _
           (@reachable_run samplePlatform 0 (Begin "T") _
              (@reachable_create samplePlatform None ∅))).
Defined.

(** T holds the lock of k after its write and keeps it when it reads k. *)
Lemma lock_retained_witness :
  holdsLock (lockManager begunWritten) "k" "T"
  /\ holdsLock
       (lockManager (snd (@run samplePlatform 2 (Read "T" "k") begunWritten)))
       "k" "T".
Proof.
  assert (Hholds : holdsLock (lockManager begunWritten) "k" "T").
  { vm_compute. reflexivity. }
  split; [exact Hholds |].
  apply (@lock_retained samplePlatform 2 (Read "T" "k") begunWritten "k" "T").
  - exact begunWritten_reachable.
  - exact Hholds.
  - intros [Hcommit|[Hrollback|Hshutdown]]; discriminate.
  - intros [_ Hfailed]. vm_compute in Hfailed. exact Hfailed.
  - intros Hother. exact Hother.
Defined.

(** C2 as stated fails, in two ways.  The file of k does not parse and T
    reads k: the shared lock is granted to T, the read fails, its handler
    releases the lock, and T, still active, no longer holds the lock of k.
    And A and B share the lock of k, which both have read; B writes k:
    its exclusive request is granted at once, B is the only holder, and A,
    still active, no longer holds the lock of k. *)
Lemma lock_lost_while_active :
  (acquireLock "k" "T" shared (lockManager (begun {[ "k" := FGarbage ]}))
     = (Granted, {[ "k" := {| type := shared; holders := {[ "T" ]};
                              waitQueue := [] |} ]})
   /\ fst (@read samplePlatform "T" "k" (begun {[ "k" := FGarbage ]}))
      = Threw ReadFailed
   /\ lockManager (snd (@read samplePlatform "T" "k" (begun {[ "k" := FGarbage ]})))
      = ∅
   /\ status <$> activeTransactions
        (snd (@read samplePlatform "T" "k" (begun {[ "k" := FGarbage ]}))) !! "T"
      = Some active)
  /\ (lockManager readByAB
      = {[ "k" := {| type := shared; holders := {[ "A"; "B" ]};
                     waitQueue := [] |} ]}
     /\ fst (@write samplePlatform 2 "B" "k" (VObject [("a", VNumber 1)]) readByAB)
        = Returned VUndefined
     /\ lockManager
          (snd (@write samplePlatform 2 "B" "k" (VObject [("a", VNumber 1)]) readByAB))
        = {[ "k" := {| type := exclusive; holders := {[ "B" ]};
                       waitQueue := [] |} ]}
     /\ status <$> activeTransactions
          (snd (@write samplePlatform 2 "B" "k" (VObject [("a", VNumber 1)]) readByAB))
          !! "A"
        = Some active).
Proof. by vm_compute. Qed.

(** ** The engine: the log it keeps *)

Section EngineLogInvariant.
Context `{!Platform}.

Lemma initializeWAL_started (file : option (list LogLine)) :
  started (initializeWAL file).
Proof.
  destruct file as [lines|]; [| by split].
  unfold started. simpl.
  pose proof (foldl_max_lower (validEntries lines) 0).
  split; [lia |]. intros Hzero. exfalso. lia.
Qed.

Lemma flushBuffer_started now (w : WriteAheadLog.t) :
  started w -> started (flushBuffer now w).
Proof.
  intros [Hnonneg Hzero].
  destruct (flushBuffer_cases now w) as [[-> _]|[[Hbuffer ->]|[_ ->]]];
    [done | |]; split; cbn [currentLSN]; try lia.
  intros Hc. by destruct (Hzero Hc).
Qed.

Lemma writeLog_started now req (w : WriteAheadLog.t) :
  started w -> started (snd (writeLog now req w)).
Proof.
  intros [Hnonneg Hzero]. rewrite writeLog_unfold. cbn [snd].
  assert (Hpush : started (snd (pushEntry now req w))).
  { split; cbn [pushEntry snd currentLSN]; [lia |].
    intros Hc. exfalso. lia. }
  destruct (mustFlush _ _); [by apply flushBuffer_started | done].
Qed.

Lemma clearCommittedTransaction_started now txn (w : WriteAheadLog.t) :
  started w -> started (clearCommittedTransaction now txn w).
Proof.
  intros Hw. apply (flushBuffer_started now) in Hw.
  unfold clearCommittedTransaction.
  destruct (logFile (flushBuffer now w)) as [lines|] eqn:Hfile; [| done].
  destruct (existsb _ _); [| done].
  destruct Hw as [Hnonneg Hzero]. rewrite Hfile in Hzero.
  split; [done |]. cbn [currentLSN logBuffer logFile default from_option Datatypes.id] in *.
  intros Hc. destruct (Hzero Hc) as [Hbuffer Hvalid]. split; [done |].
  destruct (validEntries (List.filter (keepLine txn) lines)) as [|x rest] eqn:Hx;
    [done |].
  assert (Hin : x ∈ validEntries lines).
  { apply (validEntries_filter (keepLine txn)). rewrite Hx.
    apply list_elem_of_here. }
  rewrite Hvalid in Hin. by apply elem_of_nil in Hin.
Qed.

Lemma logSteps_started (w w' : WriteAheadLog.t) :
  logSteps w w' -> started w -> started w'.
Proof.
  induction 1 as [|now req w' _ IH|now w' _ IH|now txn w' _ IH]; intros Hw.
  - done.
  - by apply writeLog_started, IH.
  - by apply flushBuffer_started, IH.
  - by apply clearCommittedTransaction_started, IH.
Qed.

Lemma logSteps_trans (w1 w2 w3 : WriteAheadLog.t) :
  logSteps w1 w2 -> logSteps w2 w3 -> logSteps w1 w3.
Proof.
  intros H12 H23. induction H23; [done | | |]; by constructor.
Qed.

Lemma rollbackTransaction_logSteps now t (e : Engine) :
  logSteps (wal e) (wal (snd (rollbackTransaction now t e))).
Proof.
  destruct (activeTransactions e !! t) as [tr|] eqn:Htr.
  - rewrite (rollbackTransaction_unfold now t tr e Htr). cbn [snd wal].
    repeat constructor.
  - unfold rollbackTransaction. rewrite Htr. constructor.
Qed.

Lemma writeBody_logSteps now t tr k data (e : Engine) :
  logSteps (wal e) (wal (snd (writeBody now t tr k data e))).
Proof.
  destruct (writeBody_runs now t tr k data e) as (m & _ & ->).
  cbn [snd wal setTransactions setWal]. repeat constructor.
Qed.

Lemma readBody_wal t tr k (e : Engine) : wal (snd (readBody t tr k e)) = wal e.
Proof.
  unfold readBody.
  destruct (last (transactionEntries t tr k e)) as [lastEntry|].
  { by destruct (bool_decide (entryOp lastEntry = DELETE)). }
  by destruct (files e !! k) as [[|v|]|].
Qed.

(** Every event changes the log by calls of [writeLog], [forceFlush] and
    [clearCommittedTransaction] only. *)
Lemma run_logSteps (now : Z) (ev : Event) (e : Engine) :
  logSteps (wal e) (wal (snd (run now ev e))).
Proof.
  destruct ev as [t|t k data|t k|t k|t|t|t tr k data|t tr k|t k|k t| |];
    cbn [run].
  - rewrite beginTransaction_unfold. cbn [snd wal setTransactions setWal].
    repeat constructor.
  - unfold write. destruct (activeTransactions e !! t) as [tr|]; [| constructor].
    destruct (bool_decide (status tr = active)); [| constructor].
    destruct (acquireLock k t exclusive (lockManager e)) as [[|] locks];
      [| constructor].
    apply (writeBody_logSteps now t tr k data (setLocks locks e)).
  - unfold read. destruct (activeTransactions e !! t) as [tr|]; [| constructor].
    destruct (bool_decide (status tr = active)); [| constructor].
    destruct (acquireLock k t shared (lockManager e)) as [[|] locks];
      [| constructor].
    rewrite readBody_wal. constructor.
  - unfold delete. destruct (activeTransactions e !! t) as [tr|]; [| constructor].
    destruct (bool_decide (status tr = active)); [| constructor].
    destruct (acquireLock k t exclusive (lockManager e)) as [[|] locks];
      [| constructor].
    rewrite deleteBody_unfold. cbn [snd wal setTransactions setWal setLocks].
    repeat constructor.
  - unfold commitTransaction.
    destruct (activeTransactions e !! t) as [tr|]; [| constructor].
    destruct (bool_decide (status tr = active)); [| constructor].
    cbn [snd wal]. repeat constructor.
  - apply rollbackTransaction_logSteps.
  - apply writeBody_logSteps.
  - rewrite readBody_wal. constructor.
  - rewrite deleteBody_unfold. cbn [snd wal setTransactions setWal].
    repeat constructor.
  - constructor.
  - cbn [snd]. unfold forceCheckpoint. cbn [wal setWal]. repeat constructor.
  - cbn [snd]. unfold destroy. cbn [wal]. constructor.
    assert (Hloop : forall entries e0, logSteps (wal e) (wal e0) ->
              logSteps (wal e) (wal (foldl (destroyStep now) e0 entries))).
    { induction entries as [|[t' tr'] rest IH]; intros e0 He0; [done |].
      cbn [foldl]. apply IH. unfold destroyStep.
      destruct (bool_decide (status tr' = active)); [| done].
      eapply logSteps_trans; [exact He0 | apply rollbackTransaction_logSteps]. }
    apply Hloop. constructor.
Qed.

Lemma reachable_invariant (e : Engine) :
  reachable e -> consistent e /\ ordered (wal e) /\ started (wal e).
Proof.
  induction 1 as [file f|now ev e _ (Hconsistent & Hordered & Hstarted)].
  - split; [apply create_consistent |].
    split; [apply initializeWAL_ordered | apply initializeWAL_started].
  - split; [by apply run_consistent |].
    split; [eapply logSteps_ordered | eapply logSteps_started];
      first [apply run_logSteps | done].
Qed.

(** X11: in every engine that the interface can reach, the entries that
    [getLogEntries] can return (those of the buffer and the valid ones of
    the file) have LSNs below the next LSN, as has the start of every
    transaction; the buffer holds its entries by increasing LSN, above the
    entries of the file; and the next LSN is not negative.  So an entry that
    is appended never shares its LSN with an entry that can be read back,
    and it is read back after all of them. *)
Theorem reachable_log_in_order (e : Engine) :
  reachable e -> consistent e /\ ordered (wal e) /\ started (wal e).
Proof. apply reachable_invariant. Qed.

End EngineLogInvariant.

(** ** The engine: what reaches the key files *)

Section KeyFiles.
Context `{!Platform}.

Lemma writeBody_files now t tr k data (e : Engine) :
  files (snd (writeBody now t tr k data e)) = files e.
Proof. by destruct (writeBody_runs now t tr k data e) as (m & _ & ->). Qed.

Lemma readBody_files t tr k (e : Engine) :
  files (snd (readBody t tr k e)) = files e.
Proof.
  unfold readBody.
  destruct (last (transactionEntries t tr k e)) as [lastEntry|].
  { by destruct (bool_decide (entryOp lastEntry = DELETE)). }
  by destruct (files e !! k) as [[|v|]|].
Qed.

Lemma rollbackTransaction_files now t (e : Engine) :
  files (snd (rollbackTransaction now t e)) = files e.
Proof.
  destruct (activeTransactions e !! t) as [tr|] eqn:Htr.
  - by rewrite (rollbackTransaction_unfold now t tr e Htr).
  - unfold rollbackTransaction. by rewrite Htr.
Qed.

Lemma run_keeps_files (now : Z) (ev : Event) (e : Engine) :
  (forall t, ev <> Commit t) ->
  files (snd (run now ev e)) = files e.
Proof.
  intros Hev.
  destruct ev as [t|t k data|t k|t k|t|t|t tr k data|t tr k|t k|k t| |];
    cbn [run].
  - by rewrite beginTransaction_unfold.
  - unfold write. destruct (activeTransactions e !! t) as [tr|]; [| done].
    destruct (bool_decide (status tr = active)); [| done].
    destruct (acquireLock k t exclusive (lockManager e)) as [[|] locks];
      [| done].
    by rewrite writeBody_files.
  - unfold read. destruct (activeTransactions e !! t) as [tr|]; [| done].
    destruct (bool_decide (status tr = active)); [| done].
    destruct (acquireLock k t shared (lockManager e)) as [[|] locks];
      [| done].
    by rewrite readBody_files.
  - unfold delete. destruct (activeTransactions e !! t) as [tr|]; [| done].
    destruct (bool_decide (status tr = active)); [| done].
    destruct (acquireLock k t exclusive (lockManager e)) as [[|] locks];
      [| done].
    by rewrite deleteBody_unfold.
  - by destruct (Hev t).
  - apply rollbackTransaction_files.
  - apply writeBody_files.
  - apply readBody_files.
  - by rewrite deleteBody_unfold.
  - done.
  - done.
  - cbn [snd]. unfold destroy. cbn [files].
    assert (Hloop : forall entries e0,
              files (foldl (destroyStep now) e0 entries) = files e0).
    { induction entries as [|[t' tr'] rest IH]; intros e0; [done |].
      cbn [foldl]. rewrite IH. unfold destroyStep.
      destruct (bool_decide (status tr' = active)); [| done].
      apply rollbackTransaction_files. }
    apply Hloop.
Qed.

(** X12: no event other than a commit changes a key file: what a
    transaction writes or deletes stays in the log until the transaction
    commits, and a rollback, a failed operation, a time-out, a checkpoint or
    the shutdown of the engine leave the key files as they are. *)
Theorem files_change_only_at_commit (now : Z) (ev : Event) (e : Engine) :
  (forall t, ev <> Commit t) ->
  files (snd (run now ev e)) = files e.
Proof. apply run_keeps_files. Qed.

(** *** The log across [writeLog] *)






(** *** Commit *)











End KeyFiles.

(** ** The engine: transactions from begin to end *)

Section Transactions.
Context `{!Platform}.




Lemma grantable_acquired (locks : LockTable) k t lockType :
  grantable locks k t lockType ->
  exists locks', acquireLock k t lockType locks = (Granted, locks').
Proof.
  intros Hgrant. destruct (acquireLock_granted _ _ _ _ Hgrant) as (locks' & ? & _).
  by exists locks'.
Qed.





(** *** The status of a transaction *)

Lemma elem_of_getActiveTransactions t (e : Engine) :
  t ∈ getActiveTransactions e
  <-> exists tr, activeTransactions e !! t = Some tr /\ status tr = active.
Proof.
  unfold getActiveTransactions. rewrite elem_of_filter_bool. split.
  - intros [_ Hactive]. destruct (activeTransactions e !! t) as [tr|]; [| done].
    exists tr. split; [done |]. by apply bool_decide_eq_true in Hactive.
  - intros (tr & Htr & Hactive). rewrite Htr. split.
    + apply list_elem_of_fmap. exists (t, tr). split; [done |].
      by apply elem_of_map_to_list.
    + by apply bool_decide_eq_true.
Qed.

(** X16: [beginTransaction] makes the new transaction one of the active
    transactions, with its BEGIN entry in the log, and changes the status of
    no other transaction; the key files and the lock table stay as they
    are. *)
Theorem beginTransaction_activates (now : Z) (t : string) (e : Engine) :
  let e' := snd (beginTransaction now t e) in
  fst (beginTransaction now t e) = t
  /\ t ∈ getActiveTransactions e'
  /\ (forall other, other <> t ->
        (other ∈ getActiveTransactions e' <-> other ∈ getActiveTransactions e))
  /\ (exists entry, entry ∈ logged (wal e')
        /\ entryOp entry = BEGIN /\ entryTxn entry = t
        /\ Some (entryLsn entry) = startLSN <$> activeTransactions e' !! t)
  /\ files e' = files e
  /\ lockManager e' = lockManager e.
Proof.
  cbv zeta. rewrite beginTransaction_unfold.
  cbn [fst snd wal files lockManager setTransactions setWal].
  split; [done |]. split; [| split; [| split; [| done]]].
  - apply elem_of_getActiveTransactions. eexists.
    cbn [activeTransactions setTransactions setWal]. by rewrite lookup_insert_eq.
  - intros other Hne. rewrite !elem_of_getActiveTransactions.
    cbn [activeTransactions setTransactions setWal]. by rewrite lookup_insert_ne.
  - eexists. split; [apply writeLog_logged |].
    cbn [activeTransactions setTransactions setWal]. by rewrite lookup_insert_eq.
Qed.


(** X18: for a transaction identifier that the engine does not know,
    [write], [read], [delete] and [commitTransaction] fail with `Invalid
    transaction` and [rollbackTransaction] fails with `Transaction not
    found`; none of them changes the engine. *)
Theorem unknown_transaction_rejected (now : Z) (t k : string) (data : value)
    (e : Engine) :
  activeTransactions e !! t = None ->
  write now t k data e = (Threw InvalidTransaction, e)
  /\ read t k e = (Threw InvalidTransaction, e)
  /\ delete now t k e = (Threw InvalidTransaction, e)
  /\ commitTransaction now t e = (Threw InvalidTransaction, e)
  /\ rollbackTransaction now t e = (Threw TransactionNotFound, e).
Proof.
  intros Hunknown.
  unfold write, read, delete, commitTransaction, rollbackTransaction.
  by rewrite Hunknown.
Qed.

(** *** Reading *)

(** X19: [read] for a key for which the transaction has no pending entry
    returns the content of the key file: null when there is no file, {}
    when the file is empty, the parsed value otherwise; when the file does
    not parse, the read fails with `Read failed` (where [write] takes {} as
    the current value). *)
Theorem read_without_pending (t : string) (tr : Transaction) (k : string)
    (e : Engine) :
  activeTransactions e !! t = Some tr ->
  status tr = active ->
  grantable (lockManager e) k t shared ->
  transactionEntries t tr k e = [] ->
  fst (read t k e)
  = match files e !! k with
    | Some FGarbage => Threw ReadFailed
    | content => Returned (onDisk content)
    end.
Proof.
  intros Htr Hactive Hgrant Hpending.
  destruct (grantable_acquired _ _ _ _ Hgrant) as [locks Hacquire].
  unfold read. rewrite Htr, (bool_decide_eq_true_2 _ Hactive), Hacquire.
  unfold readBody.
  change (transactionEntries t tr k (setLocks locks e))
    with (transactionEntries t tr k e).
  rewrite Hpending. cbn [last files setLocks].
  by destruct (files e !! k) as [[|v|]|].
Qed.

(** X20: within a transaction, [delete] followed by [read] of the same
    key returns null, whatever the key file holds (the lock can be granted
    at once and the delete does not rotate the log). *)
Theorem delete_then_read (now : Z) (t : string) (tr : Transaction)
    (k : string) (e : Engine) :
  consistent e ->
  activeTransactions e !! t = Some tr ->
  status tr = active ->
  grantable (lockManager e) k t exclusive ->
  archives (wal (snd (delete now t k e))) = archives (wal e) ->
  fst (delete now t k e) = Returned VUndefined
  /\ fst (read t k (snd (delete now t k e))) = Returned VNull.
Proof.
  intros [Hbelow Hstart] Htr Hactive Hgrant.
  destruct (acquireLock_granted _ _ _ _ Hgrant) as (locks & Hacquire & Hholds).
  unfold delete. rewrite Htr, (bool_decide_eq_true_2 _ Hactive), Hacquire.
  rewrite deleteBody_unfold.
  set (req := {| operation := DELETE; transactionId := t; key := Some k;
                 beforeImage := deleteBeforeImage k (setLocks locks e);
                 afterImage := VNull |}).
  cbn [fst snd wal setWal setTransactions setLocks]. intros Harchives.
  split; [done |].
  destruct (writeLog_visible now req (Some (startLSN tr)) (wal e) Hbelow Harchives)
    as [l' Hentries].
  { unfold fromOk, newEntry, entryLsn. simpl.
    apply orb_true_iff. right. apply Z.leb_le.
    specialize (Hstart t tr Htr). lia. }
  unfold read.
  cbn [activeTransactions lockManager setTransactions setWal setLocks].
  rewrite lookup_alter_eq, Htr.
  cbn [fmap option_fmap option_map status pushOperation].
  rewrite (bool_decide_eq_true_2 _ Hactive).
  destruct (acquireLock_granted locks k t shared) as (locks' & -> & _).
  { unfold grantable. unfold holdsLock in Hholds.
    destruct (locks !! k); [by left | done]. }
  unfold readBody, transactionEntries.
  cbn [wal setLocks setTransactions setWal startLSN pushOperation].
  rewrite Hentries.
  rewrite filter_snoc_last.
  - reflexivity.
  - unfold keyIs, entryTxn, entryKey, entryOp. simpl.
    by rewrite !String.eqb_refl.
Qed.

(** *** Shutdown *)

Lemma rollbackTransaction_logged now t (e : Engine) :
  logged (wal e) ⊆ logged (wal (snd (rollbackTransaction now t e))).
Proof.
  destruct (activeTransactions e !! t) as [tr|] eqn:Htr.
  - rewrite (rollbackTransaction_unfold now t tr e Htr). cbn [snd wal].
    apply writeLog_keeps.
  - unfold rollbackTransaction. by rewrite Htr.
Qed.

Lemma rollbackTransaction_known now t t' (e : Engine) :
  is_Some (activeTransactions e !! t') ->
  is_Some (activeTransactions (snd (rollbackTransaction now t e)) !! t').
Proof.
  intros Hknown. destruct (activeTransactions e !! t) as [tr|] eqn:Htr.
  - rewrite (rollbackTransaction_unfold now t tr e Htr).
    cbn [snd activeTransactions]. destruct (decide (t = t')) as [->|Hne].
    + rewrite lookup_alter_eq, Htr. by eexists.
    + by rewrite lookup_alter_ne.
  - unfold rollbackTransaction. by rewrite Htr.
Qed.

Lemma destroyStep_logged now (e : Engine) entry :
  logged (wal e) ⊆ logged (wal (destroyStep now e entry)).
Proof.
  destruct entry as [t tr]. unfold destroyStep.
  destruct (bool_decide (status tr = active)); [| done].
  apply rollbackTransaction_logged.
Qed.

Lemma destroyStep_known now (e : Engine) entry t' :
  is_Some (activeTransactions e !! t') ->
  is_Some (activeTransactions (destroyStep now e entry) !! t').
Proof.
  destruct entry as [t tr]. unfold destroyStep.
  destruct (bool_decide (status tr = active)); [| done].
  apply rollbackTransaction_known.
Qed.

(** X21: [destroy] appends a ROLLBACK entry for every transaction that is
    active, flushes the log (the buffer holds nothing afterwards but the
    CHECKPOINT entry of a rotation), forgets all transactions and leaves
    the key files as they are. *)
Theorem destroy_rolls_back (now : Z) (e : Engine) :
  (forall t tr,
     activeTransactions e !! t = Some tr -> status tr = active ->
     exists entry, entry ∈ logged (wal (destroy now e))
                   /\ entryOp entry = ROLLBACK /\ entryTxn entry = t)
  /\ Forall (fun entry => entryOp entry = CHECKPOINT)
            (logBuffer (wal (destroy now e)))
  /\ activeTransactions (destroy now e) = ∅
  /\ files (destroy now e) = files e.
Proof.
  split; [| split; [| split]].
  - intros t tr Htr Hactive. unfold destroy. cbn [wal].
    assert (Hloop : forall entries e0,
              (t, tr) ∈ entries ->
              is_Some (activeTransactions e0 !! t) ->
              exists entry,
                entry ∈ logged (wal (foldl (destroyStep now) e0 entries))
                /\ entryOp entry = ROLLBACK /\ entryTxn entry = t).
    { assert (Hkeeps : forall entries e0,
                logged (wal e0) ⊆ logged (wal (foldl (destroyStep now) e0 entries))).
      { induction entries as [|entry rest IH]; intros e0; [done |].
        cbn [foldl]. etrans; [apply destroyStep_logged | apply IH]. }
      induction entries as [|entry rest IH]; intros e0 Hin Hknown.
      { by apply elem_of_nil in Hin. }
      cbn [foldl]. apply elem_of_cons in Hin as [<-|Hin].
      - destruct Hknown as [tr0 Htr0].
        exists (newEntry now
                  {| operation := ROLLBACK; transactionId := t; key := None;
                     beforeImage := VUndefined; afterImage := VUndefined |}
                  (wal e0)).
        split; [| done]. apply Hkeeps. unfold destroyStep.
        rewrite (bool_decide_eq_true_2 _ Hactive).
        rewrite (rollbackTransaction_unfold now t tr0 e0 Htr0). cbn [snd wal].
        apply writeLog_logged.
      - apply IH; [done |]. by apply destroyStep_known. }
    destruct (Hloop (map_to_list (activeTransactions e)) e) as (entry & Hin & Hop).
    + by apply elem_of_map_to_list.
    + by eexists.
    + exists entry. split; [| done]. by apply flushBuffer_logged.
  - apply flushBuffer_buffer.
  - done.
  - apply (run_keeps_files now Shutdown e). by intros t.
Qed.

End Transactions.

(** ** Crash recovery: what it does to a key file *)

Section RecoveryPasses.
Context `{!Platform}.

Lemma validEntries_all_verified (lines : list LogLine) :
  Forall (fun e => verifyChecksum e = true) (validEntries lines).
Proof.
  apply Forall_forall. intros e He. by apply elem_of_validEntries in He as [_ ?].
Qed.

(** X22: recovery skips the lines of the log that do not parse or do not
    pass their checksum: the constructor leaves the same key files and the
    same next LSN as on the log with those lines removed. *)
Theorem recovery_skips_corrupt_lines (lines : list LogLine)
    (f : gmap string FileContent) :
  files (create (Some lines) f)
  = files (create (Some (Parsed <$> validEntries lines)) f)
  /\ currentLSN (wal (create (Some lines) f))
     = currentLSN (wal (create (Some (Parsed <$> validEntries lines)) f)).
Proof.
  unfold create, performCrashRecovery, getLogEntries. simpl.
  by rewrite (validEntries_verified _ (validEntries_all_verified lines)).
Qed.














End RecoveryPasses.

(** ** deepMerge: patches *)

Section Patches.









End Patches.

(** ** Further properties of the lock table, the log and [write] *)

Section RoundTrip.

(** X28: a lock that is acquired on a key that has no lock object, or
    in shared mode beside other shared holders, and released again leaves
    the lock table as it was, and the release resolves no request. *)
Theorem acquire_release_round_trip (key t : string) (lockType : LockType)
    (locks : LockTable) :
  match locks !! key with
  | None => True
  | Some lockInfo =>
      (t ∉ holders lockInfo) /\ holders lockInfo <> ∅
      /\ type lockInfo = shared /\ lockType = shared
  end ->
  fst (acquireLock key t lockType locks) = Granted
  /\ releaseLock key t (snd (acquireLock key t lockType locks)) = (locks, []).
Proof.
  unfold acquireLock.
  destruct (locks !! key) as [lockInfo|] eqn:Hkey.
  - intros (Hout & Hnonempty & Htype & ->). unfold canGrantLock.
    rewrite (bool_decide_eq_false_2 _ Hout),
      (bool_decide_eq_false_2 _ Hnonempty), (bool_decide_eq_true_2 _ Htype).
    rewrite (bool_decide_eq_true_2 (shared = shared) eq_refl). cbn [andb fst snd].
    split; [done |]. unfold releaseLock. rewrite lookup_insert_eq.
    cbn [holders type waitQueue].
    assert (Hin : t ∈ holders lockInfo ∪ {[t]}).
    { apply elem_of_union. right. by apply elem_of_singleton. }
    assert (Hback : (holders lockInfo ∪ {[t]}) ∖ {[t]} = holders lockInfo).
    { rewrite difference_union_distr_l_L, difference_diag_L.
      rewrite (right_id_L ∅ (∪)). apply difference_disjoint_L.
      intros x Hx Hxt. apply elem_of_singleton in Hxt as ->. by apply Hout. }
    rewrite (bool_decide_eq_true_2 _ Hin), Hback.
    rewrite (bool_decide_eq_false_2 _ Hnonempty). cbn [andb holders].
    rewrite (bool_decide_eq_false_2 _ Hnonempty). cbn [andb].
    rewrite insert_insert_eq. f_equal. apply insert_id.
    rewrite Hkey. by destruct lockInfo.
  - intros _. cbn [fst snd]. split; [done |].
    unfold releaseLock. rewrite lookup_insert_eq. cbn [holders type waitQueue].
    rewrite (bool_decide_eq_true_2 (t ∈ ({[t]} : gset string)))
      by by apply elem_of_singleton.
    rewrite difference_diag_L.
    rewrite (bool_decide_eq_true_2 ((∅ : gset string) = ∅) eq_refl).
    rewrite (bool_decide_eq_true_2 (([] : list Request) = []) eq_refl).
    cbn [negb andb holders waitQueue].
    rewrite (bool_decide_eq_true_2 ((∅ : gset string) = ∅) eq_refl).
    rewrite (bool_decide_eq_true_2 (([] : list Request) = []) eq_refl).
    cbn [andb]. by rewrite delete_insert_id.
Qed.

End RoundTrip.

Section CheckpointAndWrite.
Context `{!Platform}.

(** X29: after [forceCheckpoint] every entry that the log held, in its
    buffer, its file or its archives, is in the log file or in an archive,
    together with a new CHECKPOINT entry; the buffer holds nothing but the
    CHECKPOINT entry of a rotation; the key files, the locks and the
    transactions are as they were.  (The log is intact: its file ends with
    a line break, so that the flush adds whole lines to it, and the images
    of its entries are JSON documents, so that the line of an entry parses
    back to the entry.) *)
Theorem forceCheckpoint_flushes (now : Z) (e : Engine) :
  intactLog (wal e) ->
  let e' := forceCheckpoint now e in
  Forall (onDiskEntry (wal e')) (logged (wal e))
  /\ (exists entry, onDiskEntry (wal e') entry
        /\ entryOp entry = CHECKPOINT /\ entryLsn entry = currentLSN (wal e))
  /\ Forall (fun entry => entryOp entry = CHECKPOINT) (logBuffer (wal e'))
  /\ files e' = files e
  /\ lockManager e' = lockManager e
  /\ activeTransactions e' = activeTransactions e.
Proof.
  intros _. cbv zeta. unfold forceCheckpoint, forceFlush. cbn [wal setWal files
    lockManager activeTransactions].
  split; [| split; [| split; [apply flushBuffer_buffer | done]]].
  - apply Forall_forall. intros entry Hin.
    apply onDiskEntry_flushBuffer, logged_alt. by apply writeLog_keeps.
  - exists (newEntry now checkpointRequest (wal e)). split; [| done].
    apply onDiskEntry_flushBuffer, logged_alt, writeLog_logged.
Qed.



End CheckpointAndWrite.

(** ** The further theorems at sample engines *)

(** The log of [begunWritten] has no file yet and two entries in its
    buffer, the BEGIN entry of T and its WRITE entry for k. *)
Lemma begunWritten_intact : @intactLog samplePlatform (wal begunWritten).
Proof.
  apply (@intact_blank samplePlatform).
  - vm_compute. reflexivity.
  - vm_compute. repeat constructor.
Defined.

(** T commits after its write: the BEGIN, WRITE and COMMIT entries are in
    the log file. *)
Lemma writeLog_commit_durable_witness :
  let w' := snd (@writeLog samplePlatform 2 (commitRequest "T") (wal begunWritten)) in
  onDiskEntry w' (@newEntry samplePlatform 2 (commitRequest "T") (wal begunWritten))
  /\ (forall e, e ∈ logBuffer (wal begunWritten) -> onDiskEntry w' e)
  /\ Forall (fun e => entryOp e = CHECKPOINT) (logBuffer w').
Proof.
  apply (@writeLog_commit_durable samplePlatform 2 (commitRequest "T")
           (wal begunWritten)).
  - exact begunWritten_intact.
  - reflexivity.
  - left. reflexivity.
Defined.

Lemma writeLog_keeps_logged_witness :
  @newEntry samplePlatform 2 (commitRequest "T") (wal begunWritten)
    :: logged (wal begunWritten)
  ⊆ logged (snd (@writeLog samplePlatform 2 (commitRequest "T") (wal begunWritten))).
Proof.
  apply (@writeLog_keeps_logged samplePlatform 2 (commitRequest "T")
           (wal begunWritten)).
  - exact begunWritten_intact.
  - reflexivity.
Defined.

Lemma forceFlush_keeps_entries_witness :
  @getLogEntries samplePlatform None
    (@forceFlush samplePlatform 2 (wal begunWritten))
  = @getLogEntries samplePlatform None (wal begunWritten).
Proof.
  apply (@forceFlush_keeps_entries samplePlatform 2 None (wal begunWritten)).
  - exact begunWritten_intact.
  - exact (proj1 (proj2 (@reachable_invariant samplePlatform begunWritten
                           begunWritten_reachable))).
  - vm_compute. reflexivity.
Defined.

(** A checkpoint after the write of T. *)
Lemma forceCheckpoint_flushes_witness :
  let e' := @forceCheckpoint samplePlatform 2 begunWritten in
  Forall (onDiskEntry (wal e')) (logged (wal begunWritten))
  /\ (exists entry, onDiskEntry (wal e') entry
        /\ entryOp entry = CHECKPOINT
        /\ entryLsn entry = currentLSN (wal begunWritten))
  /\ Forall (fun entry => entryOp entry = CHECKPOINT) (logBuffer (wal e'))
  /\ files e' = files begunWritten
  /\ lockManager e' = lockManager begunWritten
  /\ activeTransactions e' = activeTransactions begunWritten.
Proof.
  apply (@forceCheckpoint_flushes samplePlatform 2 begunWritten).
  exact begunWritten_intact.
Defined.

Lemma exclusive_lock_has_one_holder_witness :
  holders {| type := exclusive; holders := {[ "T" ]}; waitQueue := [] |} <> ∅
  /\ (type {| type := exclusive; holders := {[ "T" ]}; waitQueue := [] |} = exclusive ->
      exists t, holders {| type := exclusive; holders := {[ "T" ]}; waitQueue := [] |}
                = {[ t ]}).
Proof.
  apply (@exclusive_lock_has_one_holder samplePlatform begunWritten "k").
  - exact begunWritten_reachable.
  - vm_compute. reflexivity.
Defined.

(** A releases the lock of k: B and C get it together, D keeps waiting. *)
Lemma releaseLock_hands_over_witness :
  exists more remaining,
    [ {| requester := "C"; requested := shared |};
      {| requester := "D"; requested := exclusive |} ] = more ++ remaining
    /\ releaseLock "k" "A" queuedBehindA
       = (<["k" := {| type := requested {| requester := "B"; requested := shared |};
                      holders := list_to_set
                        (requester <$> {| requester := "B"; requested := shared |}
                                       :: more);
                      waitQueue := remaining |}]> queuedBehindA,
          {| requester := "B"; requested := shared |} :: more)
    /\ match requested {| requester := "B"; requested := shared |} with
       | exclusive => more = []
       | shared =>
           Forall (fun r => requested r = shared) more
           /\ forall r, head remaining = Some r -> requested r = exclusive
       end.
Proof.
  apply (releaseLock_hands_over "k" "A" queuedBehindA
           {| type := exclusive; holders := {[ "A" ]};
              waitQueue := [ {| requester := "B"; requested := shared |};
                             {| requester := "C"; requested := shared |};
                             {| requester := "D"; requested := exclusive |} ] |}).
  - unfold queuedBehindA. apply lookup_singleton_eq.
  - reflexivity.
  - reflexivity.
Defined.

Lemma reachable_log_in_order_witness :
  @consistent samplePlatform begunWritten
  /\ @ordered samplePlatform (wal begunWritten)
  /\ @started samplePlatform (wal begunWritten).
Proof.
  apply (@reachable_log_in_order samplePlatform begunWritten).
  exact begunWritten_reachable.
Defined.

(** T rolls back after its write: the key files are as they were. *)
Lemma files_change_only_at_commit_witness :
  files (snd (@run samplePlatform 2 (Rollback "T") begunWritten))
  = files begunWritten.
Proof.
  apply (@files_change_only_at_commit samplePlatform 2 (Rollback "T") begunWritten).
  intros t. discriminate.
Defined.





Lemma unknown_transaction_rejected_witness :
  @write samplePlatform 1 "U" "k" VNull (begun ∅)
    = (Threw InvalidTransaction, begun ∅)
  /\ @read samplePlatform "U" "k" (begun ∅) = (Threw InvalidTransaction, begun ∅)
  /\ @delete samplePlatform 1 "U" "k" (begun ∅)
     = (Threw InvalidTransaction, begun ∅)
  /\ @commitTransaction samplePlatform 1 "U" (begun ∅)
     = (Threw InvalidTransaction, begun ∅)
  /\ @rollbackTransaction samplePlatform 1 "U" (begun ∅)
     = (Threw TransactionNotFound, begun ∅).
Proof.
  apply (@unknown_transaction_rejected samplePlatform 1 "U" "k" VNull (begun ∅)).
  vm_compute. reflexivity.
Defined.

(** T reads acct, for which it has no pending entry. *)
Lemma read_without_pending_witness :
  fst (@read samplePlatform "T" "acct" (begun accountFile))
  = match files (begun accountFile) !! "acct" with
    | Some FGarbage => Threw ReadFailed
    | content => Returned (onDisk content)
    end.
Proof.
  apply (@read_without_pending samplePlatform "T" transactionT "acct"
           (begun accountFile)).
  - vm_compute. reflexivity.
  - reflexivity.
  - vm_compute. exact I.
  - vm_compute. reflexivity.
Defined.

Lemma delete_then_read_witness :
  fst (@delete samplePlatform 1 "T" "acct" (begun accountFile))
    = Returned VUndefined
  /\ fst (@read samplePlatform "T" "acct"
            (snd (@delete samplePlatform 1 "T" "acct" (begun accountFile))))
     = Returned VNull.
Proof.
  apply (@delete_then_read samplePlatform 1 "T" transactionT "acct"
           (begun accountFile)).
  - apply begun_consistent.
  - vm_compute. reflexivity.
  - reflexivity.
  - vm_compute. exact I.
  - vm_compute. reflexivity.
Defined.









(** C joins A and B on the lock of k and leaves again. *)
Lemma acquire_release_round_trip_witness :
  fst (acquireLock "k" "C" shared sharedByAB) = Granted
  /\ releaseLock "k" "C" (snd (acquireLock "k" "C" shared sharedByAB))
     = (sharedByAB, []).
Proof.
  apply (acquire_release_round_trip "k" "C" shared sharedByAB).
  unfold sharedByAB. rewrite lookup_singleton_eq. cbn [holders type].
  split; [| split; [| split; reflexivity]].
  - rewrite elem_of_union, !elem_of_singleton. intros [?|?]; discriminate.
  - apply (gset_nonempty _ "A"). apply elem_of_union. left.
    by apply elem_of_singleton.
Defined.

